(** * Verification of the per-instruction lifter and of the mask index search

    Two source files are embedded here:

    - [remill/BC/Mask.h]: the index searches [NthIndex], [NextIndex] and
      [GMask::Nth], the mask operators and the type masks built on them;
    - [mcsema/Arch/X86/Instr.cpp]: the lifting of one decoded x86
      instruction into a block of IR ([Instr::LiftIntoBlock] and the
      functions it calls).

    Machine integers are integers of [Z] with their wrap-around written
    out.  The IR builder is a state monad over the block under
    construction; a failed [CHECK] or a [LOG(FATAL)] ends the run with
    [Fatal]. *)

From Stdlib Require Import ZArith List String Bool Lia.
From Stdlib Require Import DecimalString.
Import ListNotations.

Local Open Scope Z_scope.

(* ===================================================================== *)
(** * remill/BC/Mask.h *)
(* ===================================================================== *)

Module Mask.

Section Templates.

(** The element type [T] of the container and its [operator==]. *)
Context {T : Type} (eqb : T -> T -> bool).

(** The [for] loop shared by [NthIndex] and [GMask::Nth]: [rest] holds
    the elements [mask[i]], [mask[i+1]], ..., and [counter] is the
    loop's local counter.  [++counter] runs only when [mask[i] == val]
    (the [&&] short-circuits).  The counter is bumped at most once per
    element, so it stays far below the [int64_t] limit. *)
Fixpoint Nth_loop (rest : list T) (val : T) (n : Z) (i counter : Z)
  : option Z :=
  match rest with
  | [] => None
  | x :: rest' =>
      if eqb x val then
        let counter' := counter + 1 in
        if counter' =? n then Some i
        else Nth_loop rest' val n (i + 1) counter'
      else Nth_loop rest' val n (i + 1) counter
  end.

(** [bool NthIndex(const U &mask, const T &val, int64_t n,
    uint64_t &offset)]: the result pairs the returned flag with the
    final content of [offset]. *)
Definition NthIndex (mask : list T) (val : T) (n : Z) (offset : Z)
  : bool * Z :=
  if n <? 0 then (false, offset)
  else
    match Nth_loop mask val n 0 (-1) with
    | Some i => (true, i)
    | None => (false, offset)
    end.

(** [uint64_t NthIndex(const U &mask, const T &val, int64_t n)]. *)
Definition NthIndex3 (mask : list T) (val : T) (n : Z) : Z :=
  snd (NthIndex mask val n 0).

(** [bool NextIndex(const U &mask, const T &val, uint64_t &offset)]. *)
Fixpoint NextIndex_loop (rest : list T) (val : T) (i : Z) : option Z :=
  match rest with
  | [] => None
  | x :: rest' =>
      if eqb x val then Some i else NextIndex_loop rest' val (i + 1)
  end.

Definition NextIndex (mask : list T) (val : T) (offset : Z) : bool * Z :=
  match NextIndex_loop (skipn (Z.to_nat offset) mask) val offset with
  | Some i => (true, i)
  | None => (false, offset)
  end.

(** Number of elements of [l] equal to [val]. *)
Definition matches (l : list T) (val : T) : Z :=
  Z.of_nat (List.length (filter (fun x => eqb x val) l)).

(** [i] is the zero-based [n]-th index of [mask] whose element equals
    [val]: the element at [i] matches, and exactly [n] elements before
    it do. *)
Definition nth_match (mask : list T) (val : T) (n i : Z) : Prop :=
  0 <= i /\
  (exists x, nth_error mask (Z.to_nat i) = Some x /\ eqb x val = true) /\
  matches (firstn (Z.to_nat i) mask) val = n.

End Templates.

(** [std::optional<uint64_t> GMask::Nth(int64_t n, bool val = true)]:
    the container holds [bool]s, compared with [==]. *)
Definition Nth (this : list bool) (n : Z) (val : bool) : option Z :=
  if n <? 0 then None
  else Nth_loop Bool.eqb this val n 0 (-1).

(** [GMask::reset]. *)
Definition reset (this : list bool) : list bool :=
  map (fun _ => false) this.

(** ** Masks as containers *)

(** [GMask(std::size_t used)] for a container that is not a
    [std::bitset]: [Container(used, true)]. *)
Definition GMask_ctor (used : nat) : list bool := repeat true used.

(** [std::transform(first1, last1, first2, out, binary_op)]: the second
    range is read as far as the first one goes; reading past its end is
    undefined, which is [None]. *)
Fixpoint transform2 {A B C : Type} (binary_op : A -> B -> C)
    (range1 : list A) (first2 : list B) : option (list C) :=
  match range1, first2 with
  | [], _ => Some []
  | x :: range1', y :: first2' =>
      match transform2 binary_op range1' first2' with
      | Some out => Some (binary_op x y :: out)
      | None => None
      end
  | _ :: _, [] => None
  end.

(** [Mask &ZipMasks(Mask &mask, const U &other, BinaryOp binary_op)]:
    the result is the new content of [mask]. *)
Definition ZipMasks_into {U : Type} (mask : list bool) (other : list U)
    (binary_op : bool -> U -> bool) : option (list bool) :=
  transform2 binary_op mask other.

(** [Mask ZipMasks(first1, last1, first2, binary_op)]. *)
Definition ZipMasks {A B : Type} (range1 : list A) (first2 : list B)
    (binary_op : A -> B -> bool) : option (list bool) :=
  transform2 binary_op range1 first2.

(** [Mask operator||(const Mask &lhs, const Mask &rhs)]. *)
Definition Mask_or (lhs rhs : list bool) : option (list bool) :=
  ZipMasks lhs rhs (fun l r => l || r).

(** [Mask operator&&(const Mask &lhs, const Mask &rhs)]. *)
Definition Mask_and (lhs rhs : list bool) : option (list bool) :=
  ZipMasks lhs rhs (fun l r => l && r).

(** [v[i] = x] for an index inside the container. *)
Fixpoint assign {A : Type} (i : nat) (x : A) (v : list A) : list A :=
  match v, i with
  | [], _ => []
  | _ :: v', O => x :: v'
  | y :: v', S i' => y :: assign i' x v'
  end.

(** [for (auto i = first; i < first + count; ++i) body]: the body works
    on the state [s] and fails where the source reads or writes outside
    a container.  None of the loops below changes the size it runs up
    to.  Where the source declares the index [0U], it is 32 bits wide
    and the loop is the source's as long as the size is below [2^32]. *)
Fixpoint for_range {S : Type} (first count : nat)
    (body : nat -> S -> option S) (s : S) : option S :=
  match count with
  | O => Some s
  | Datatypes.S count' =>
      match body first s with
      | Some s' => for_range (Datatypes.S first) count' body s'
      | None => None
      end
  end.

(** [std::vector<bool> &operator&=(std::vector<bool> &l,
    const std::vector<bool> &r)]: the result is the new content of
    [l].  In [l[i] = l[i] && r[i]] the built-in [&&] reads [r[i]] only
    when [l[i]] is true. *)
Definition and_assign (l r : list bool) : option (list bool) :=
  for_range 0 (List.length l)
    (fun i l =>
       match nth_error l i with
       | Some true =>
           match nth_error r i with
           | Some b => Some (assign i (true && b) l)
           | None => None
           end
       | Some false => Some (assign i false l)
       | None => None
       end) l.

(** [Converter::cc(const T &other, Op op)]. *)
Definition cc_op {T : Type} (other : list T) (op : T -> bool)
  : option (list bool) :=
  let self := GMask_ctor (List.length other) in
  for_range 0 (List.length other)
    (fun i self =>
       match nth_error other i with
       | Some x => if (i <? List.length self)%nat
                   then Some (assign i (op x) self) else None
       | None => None
       end) self.

(** [Converter::cc(const T &other)]. *)
Definition cc (other : list bool) : option (list bool) :=
  let self := GMask_ctor (List.length other) in
  for_range 0 (List.length other)
    (fun i self =>
       match nth_error other i with
       | Some x => if (i <? List.length self)%nat
                   then Some (assign i x self) else None
       | None => None
       end) self.

Section Registers.

(** [const Register *]. *)
Variable Register : Type.

(** [TypeMask<std::vector<bool>>]. *)
Record TypeMask : Type := {
  ret_type_mask : list bool;
  param_type_mask : list bool;
  rets : list Register;
  params : list Register
}.

(** [TypeMask(const RegisterList &regs)]. *)
Definition TypeMask_of_regs (regs : list Register) : TypeMask :=
  {| ret_type_mask := GMask_ctor (List.length regs);
     param_type_mask := GMask_ctor (List.length regs);
     rets := regs;
     params := regs |}.

(** [TypeMask(const RegisterList &regs, RType ret, PType param)]. *)
Definition TypeMask_ctor (regs : list Register) (ret param : list bool)
  : option TypeMask :=
  match
    for_range 0 (List.length regs)
      (fun i (acc : list Register * list Register) =>
         match nth_error regs i, nth_error ret i, nth_error param i with
         | Some r, Some in_ret, Some in_param =>
             Some (if in_ret then fst acc ++ [r] else fst acc,
                   if in_param then snd acc ++ [r] else snd acc)
         | _, _, _ => None
         end) ([], [])
  with
  | Some (rets', params') =>
      Some {| ret_type_mask := ret;
              param_type_mask := param;
              rets := rets';
              params := params' |}
  | None => None
  end.

(** [TypeMask::Empty]. *)
Definition Empty (this : TypeMask) : bool :=
  match rets this, params this with
  | [], [] => true
  | _, _ => false
  end.

(** [TypeMask::reset]. *)
Definition TypeMask_reset (this : TypeMask) : option TypeMask :=
  match
    for_range 0 (List.length (ret_type_mask this))
      (fun i (masks : list bool * list bool) =>
         if ((i <? List.length (fst masks)) && (i <? List.length (snd masks)))%nat
         then Some (assign i false (fst masks), assign i false (snd masks))
         else None)
      (ret_type_mask this, param_type_mask this)
  with
  | Some (ret', param') =>
      Some {| ret_type_mask := ret';
              param_type_mask := param';
              rets := [];
              params := [] |}
  | None => None
  end.

(** [TMask<std::vector<bool>>]. *)
Record TMask : Type := {
  t_ret_type_mask : list bool;
  t_param_type_mask : list bool
}.

(** [TMask(std::size_t used)]. *)
Definition TMask_ctor (used : nat) : TMask :=
  {| t_ret_type_mask := GMask_ctor used;
     t_param_type_mask := GMask_ctor used |}.

(** [TMask &operator&=(const PMask<T> &param)]. *)
Definition TMask_and_param (this : TMask) (param : list bool) : option TMask :=
  match and_assign (t_param_type_mask this) param with
  | Some p => Some {| t_ret_type_mask := t_ret_type_mask this;
                      t_param_type_mask := p |}
  | None => None
  end.

(** [TMask &operator&=(const RMask<T> &ret)]. *)
Definition TMask_and_ret (this : TMask) (ret : list bool) : option TMask :=
  match and_assign (t_ret_type_mask this) ret with
  | Some r => Some {| t_ret_type_mask := r;
                      t_param_type_mask := t_param_type_mask this |}
  | None => None
  end.

(** [TMask &operator&=(const TypeMask<Container> &mask)] and
    [TMask &operator&=(const TMask<T> &mask)]: the parameter mask
    first, then the return mask. *)
Definition TMask_and_masks (this : TMask) (ret param : list bool)
  : option TMask :=
  match and_assign (t_param_type_mask this) param with
  | Some p =>
      match and_assign (t_ret_type_mask this) ret with
      | Some r => Some {| t_ret_type_mask := r; t_param_type_mask := p |}
      | None => None
      end
  | None => None
  end.

(** [TMask::Build]. *)
Definition Build (this : TMask) (regs : list Register) : option TypeMask :=
  TypeMask_ctor regs (t_ret_type_mask this) (t_param_type_mask this).

(** The registers of [regs] whose bit of [mask] is set, in order. *)
Fixpoint selected (mask : list bool) (regs : list Register)
  : list Register :=
  match mask, regs with
  | b :: mask', r :: regs' =>
      if b then r :: selected mask' regs' else selected mask' regs'
  | _, _ => []
  end.

End Registers.

Arguments ret_type_mask {Register} t.
Arguments param_type_mask {Register} t.
Arguments rets {Register} t.
Arguments params {Register} t.
Arguments TypeMask_of_regs {Register} regs.
Arguments TypeMask_ctor {Register} regs ret param.
Arguments Empty {Register} this.
Arguments TypeMask_reset {Register} this.
Arguments Build {Register} this regs.
Arguments selected {Register} mask regs.

End Mask.

(* ===================================================================== *)
(** * mcsema/Arch/X86/Instr.cpp *)
(* ===================================================================== *)

Module X86.

(** ** Machine integers *)

(** Conversion to [uintptr_t] / [uint64_t]. *)
Definition to_uint64 (x : Z) : Z := x mod 2 ^ 64.

(** Conversion to [intptr_t] / [int64_t]. *)
Definition to_int64 (x : Z) : Z :=
  let y := x mod 2 ^ 64 in if y <? 2 ^ 63 then y else y - 2 ^ 64.

(** Decimal rendering of an integer streamed with [<<]. *)
Definition show (x : Z) : string := NilZero.string_of_int (Z.to_int x).

(** ** What the decoder hands over *)

(** [xed_operand_enum_t]: the operand names the source mentions;
    [XED_OPERAND_other] stands for every enumerator it does not. *)
Inductive xed_operand_enum_t : Type :=
| XED_OPERAND_INVALID
| XED_OPERAND_AGEN
| XED_OPERAND_MEM0
| XED_OPERAND_MEM1
| XED_OPERAND_IMM0SIGNED
| XED_OPERAND_IMM0
| XED_OPERAND_IMM1_BYTES
| XED_OPERAND_IMM1
| XED_OPERAND_PTR
| XED_OPERAND_REG0
| XED_OPERAND_REG1
| XED_OPERAND_REG2
| XED_OPERAND_REG3
| XED_OPERAND_RELBR
| XED_OPERAND_other (code : Z).

(** [xed_operand_visibility_enum_t]. *)
Inductive xed_operand_visibility_enum_t : Type :=
| XED_OPVIS_INVALID
| XED_OPVIS_EXPLICIT
| XED_OPVIS_IMPLICIT
| XED_OPVIS_SUPPRESSED.

(** One [xed_operand_t] of the instruction's operand table, seen through
    its four accessors. *)
Record xed_operand_t : Type := {
  xed_operand_name : xed_operand_enum_t;
  xed_operand_operand_visibility : xed_operand_visibility_enum_t;
  xed_operand_read : bool;
  xed_operand_written : bool
}.

(** The enumerators of [xed_iclass_enum_t] and [xed_reg_enum_t] that the
    source compares against, and the register tables it consults.  XED is
    not part of this repository: the numbering and the tables are taken
    as given.  Enumerators are integers because the source orders them
    ([XED_ICLASS_INT <= iclass && XED_ICLASS_INTO >= iclass]). *)
Class XED : Type := {
  XED_ICLASS_HLT : Z;
  XED_ICLASS_JMP : Z;
  XED_ICLASS_JMP_FAR : Z;
  XED_ICLASS_XEND : Z;
  XED_ICLASS_XABORT : Z;
  XED_ICLASS_XBEGIN : Z;
  XED_ICLASS_CALL_NEAR : Z;
  XED_ICLASS_CALL_FAR : Z;
  XED_ICLASS_RET_NEAR : Z;
  XED_ICLASS_RET_FAR : Z;
  XED_ICLASS_SYSCALL : Z;
  XED_ICLASS_SYSCALL_AMD : Z;
  XED_ICLASS_SYSENTER : Z;
  XED_ICLASS_SYSRET : Z;
  XED_ICLASS_SYSRET_AMD : Z;
  XED_ICLASS_SYSEXIT : Z;
  XED_ICLASS_INT : Z;
  XED_ICLASS_INTO : Z;
  XED_ICLASS_IRET : Z;
  XED_ICLASS_IRETQ : Z;
  XED_ICLASS_JB : Z;
  XED_ICLASS_JLE : Z;
  XED_ICLASS_JNB : Z;
  XED_ICLASS_JZ : Z;
  XED_ICLASS_LOOP : Z;
  XED_ICLASS_LOOPNE : Z;
  XED_ICLASS_POP : Z;
  XED_REG_INVALID : Z;
  XED_REG_RIP : Z;
  XED_REG_RSP : Z;
  XED_REG_FS : Z;
  XED_REG_GS : Z;
  XED_REG_MMX_FIRST : Z;
  XED_REG_MMX_LAST : Z;
  XED_REG_XMM_FIRST : Z;
  XED_REG_XMM_LAST : Z;
  XED_REG_YMM_FIRST : Z;
  XED_REG_YMM_LAST : Z;
  XED_REG_ZMM_FIRST : Z;
  XED_REG_ZMM_LAST : Z;
  xed_get_largest_enclosing_register : Z -> Z;
  xed_get_register_width_bits64 : Z -> Z;
  xed_reg_enum_t2str : Z -> string;
  xed_iform_enum_t2str : Z -> string
}.

(** [xed_decoded_inst_t], seen through the accessors the lifter calls.
    The memory accessors take the memory-operand index. *)
Record xed_decoded_inst_t : Type := {
  xed_decoded_inst_get_iclass : Z;
  xed_decoded_inst_get_iform_enum : Z;
  xed_decoded_inst_operands : list xed_operand_t;
  xed_decoded_inst_get_operand_width : Z;
  xed_decoded_inst_get_machine_mode_bits : Z;
  xed_operand_values_get_effective_address_width : Z;
  xed_decoded_inst_get_immediate_width_bits : Z;
  xed_operand_values_get_immediate_is_signed : bool;
  xed_decoded_inst_get_signed_immediate : Z;
  xed_decoded_inst_get_unsigned_immediate : Z;
  xed_decoded_inst_get_second_immediate : Z;
  xed_decoded_inst_get_branch_displacement : Z;
  xed_decoded_inst_get_seg_reg : Z -> Z;
  xed_decoded_inst_get_base_reg : Z -> Z;
  xed_decoded_inst_get_index_reg : Z -> Z;
  xed_decoded_inst_get_memory_displacement : Z -> Z;
  xed_decoded_inst_get_scale : Z -> Z;
  xed_decoded_inst_get_reg : xed_operand_enum_t -> Z
}.

(** The operand the table gives for an index past its end. *)
Definition no_operand : xed_operand_t :=
  {| xed_operand_name := XED_OPERAND_INVALID;
     xed_operand_operand_visibility := XED_OPVIS_INVALID;
     xed_operand_read := false;
     xed_operand_written := false |}.

Definition xed_inst_operand (xedd : xed_decoded_inst_t) (i : nat)
  : xed_operand_t :=
  nth i (xed_decoded_inst_operands xedd) no_operand.

Definition xed_decoded_inst_noperands (xedd : xed_decoded_inst_t) : nat :=
  List.length (xed_decoded_inst_operands xedd).

(** [==] on operand names. *)
Definition operand_eqb (a b : xed_operand_enum_t) : bool :=
  match a, b with
  | XED_OPERAND_INVALID, XED_OPERAND_INVALID
  | XED_OPERAND_AGEN, XED_OPERAND_AGEN
  | XED_OPERAND_MEM0, XED_OPERAND_MEM0
  | XED_OPERAND_MEM1, XED_OPERAND_MEM1
  | XED_OPERAND_IMM0SIGNED, XED_OPERAND_IMM0SIGNED
  | XED_OPERAND_IMM0, XED_OPERAND_IMM0
  | XED_OPERAND_IMM1_BYTES, XED_OPERAND_IMM1_BYTES
  | XED_OPERAND_IMM1, XED_OPERAND_IMM1
  | XED_OPERAND_PTR, XED_OPERAND_PTR
  | XED_OPERAND_REG0, XED_OPERAND_REG0
  | XED_OPERAND_REG1, XED_OPERAND_REG1
  | XED_OPERAND_REG2, XED_OPERAND_REG2
  | XED_OPERAND_REG3, XED_OPERAND_REG3
  | XED_OPERAND_RELBR, XED_OPERAND_RELBR => true
  | XED_OPERAND_other x, XED_OPERAND_other y => x =? y
  | _, _ => false
  end.

(** [cfg::Instr]: where the instruction sits. *)
Record cfg_Instr : Type := {
  address : Z;
  size : Z
}.

(** The immutable members of [x86::Instr]. *)
Record Instr : Type := {
  instr : cfg_Instr;
  xedd : xed_decoded_inst_t
}.

Definition iclass (this : Instr) : Z :=
  xed_decoded_inst_get_iclass (xedd this).

Definition kVectorRegAlign : Z := 64.

(** ** The IR under construction *)

Section IR.

(** [llvm::Function *]: the callable things of the module. *)
Variable Fn : Type.

(** [llvm::Value *].  A constant is its bit width and its bit pattern;
    every other value is the instruction that computes it. *)
#[warnings="-register-all"] Inductive Value : Type :=
| VConst (bits : Z) (pattern : Z)
| VArg0
| VStatePtr
| VVar (name : string)
| VLoad (ptr : Value) (align : Z)
| VAlloca (type_of : Value)
| VZExt (v : Value) (bits : Z)
| VSExt (v : Value) (bits : Z)
| VAdd (a b : Value)
| VMul (a b : Value)
| VICmpEQ (a b : Value)
| VCall (callee : Fn) (actuals : list Value).

(** [llvm::BasicBlock *]: the insertion block [B], or the [k]-th block
    that [llvm::BasicBlock::Create] has appended to the function. *)
Inductive BasicBlock : Type :=
| BB_B
| BB_created (k : nat).

(** One instruction of a block. *)
Inductive Inst : Type :=
| IVal (v : Value)
| IStore (v ptr : Value)
| ITailCall (callee : Fn)
| ICondBr (cond : Value) (if_true if_false : BasicBlock).

Inductive Severity : Type := WARNING | ERROR.

(** What one lift can change: the instruction list of [B], the blocks
    created in [F] (name and instructions), the members [args] and
    [append_instrs] of the [Instr] object, and the log. *)
Record LiftState : Type := {
  B_insts : list Inst;
  F_created : list (string * list Inst);
  args : list Value;
  append_instrs : list Inst;
  logged : list (Severity * string)
}.

(** A run either ends the process ([LOG(FATAL)], failed [CHECK]) or
    goes on with a result. *)
Inductive Outcome (A : Type) : Type :=
| Ok (a : A)
| Fatal (msg : string).
Arguments Ok {A} a.
Arguments Fatal {A} msg.

Definition IR (A : Type) : Type := LiftState -> Outcome (A * LiftState).

Definition ret {A} (a : A) : IR A := fun st => Ok (a, st).

Definition bind {A B} (m : IR A) (k : A -> IR B) : IR B :=
  fun st =>
    match m st with
    | Ok (a, st') => k a st'
    | Fatal msg => Fatal msg
    end.

Definition LOG_FATAL {A} (msg : string) : IR A := fun _ => Fatal msg.

Definition CHECK (cond : bool) (msg : string) : IR unit :=
  if cond then ret tt else LOG_FATAL msg.

Definition LOG (sev : Severity) (msg : string) : IR unit :=
  fun st =>
    Ok (tt, {| B_insts := B_insts st;
               F_created := F_created st;
               args := args st;
               append_instrs := append_instrs st;
               logged := logged st ++ [(sev, msg)] |}).

(** Insertion at the end of [B] (the builder is made with [ir(B)]). *)
Definition emit (x : Inst) : IR unit :=
  fun st =>
    Ok (tt, {| B_insts := B_insts st ++ [x];
               F_created := F_created st;
               args := args st;
               append_instrs := append_instrs st;
               logged := logged st |}).

(** [args.push_back(v)]. *)
Definition args_push_back (v : Value) : IR unit :=
  fun st =>
    Ok (tt, {| B_insts := B_insts st;
               F_created := F_created st;
               args := args st ++ [v];
               append_instrs := append_instrs st;
               logged := logged st |}).

Definition get_args : IR (list Value) := fun st => Ok (args st, st).

Definition get_append_instrs : IR (list Inst) :=
  fun st => Ok (append_instrs st, st).

(** [llvm::BasicBlock::Create] with the name and [F]. *)
Definition BasicBlock_Create (name : string) : IR BasicBlock :=
  fun st =>
    Ok (BB_created (List.length (F_created st)),
        {| B_insts := B_insts st;
           F_created := F_created st ++ [(name, [])];
           args := args st;
           append_instrs := append_instrs st;
           logged := logged st |}).

Fixpoint push_in_created (k : nat) (x : Inst)
    (bs : list (string * list Inst)) : list (string * list Inst) :=
  match bs, k with
  | [], _ => []
  | (name, insts) :: bs', O => (name, insts ++ [x]) :: bs'
  | b :: bs', S k' => b :: push_in_created k' x bs'
  end.

(** Modelled from the spec: [AddTerminatingTailCall] of
    [mcsema/BC/Util], which is not among the sources.  It ends the
    given block with an unconditional tail invocation of [callee] on
    the machine state, after which control does not come back. *)
Definition AddTerminatingTailCall (block : BasicBlock) (callee : Fn)
  : IR unit :=
  match block with
  | BB_B => emit (ITailCall callee)
  | BB_created k =>
      fun st =>
        Ok (tt, {| B_insts := B_insts st;
                   F_created := push_in_created k (ITailCall callee)
                                  (F_created st);
                   args := args st;
                   append_instrs := append_instrs st;
                   logged := logged st |})
  end.

(** Modelled from the spec: [FindVarInFunction] of [mcsema/BC/Util],
    which is not among the sources: the named lookup of a slot of the
    current routine. *)
Definition FindVarInFunction (name : string) : Value := VVar name.

(** Modelled from the spec: [FindStatePointer] of [mcsema/BC/Util],
    which is not among the sources: the handle of the machine state. *)
Definition FindStatePointer : Value := VStatePtr.

(** *** [llvm::ConstantInt::get] and [llvm::IRBuilder<>]

    LLVM is not part of this repository; its builder is modelled as
    documented.  An operation whose operands are all constants is
    folded to a constant and inserts no instruction. *)

(** Bit pattern of [APInt(bits, V, isSigned)] for a [uint64_t V]. *)
Definition APInt (bits V : Z) (isSigned : bool) : Z :=
  if bits <=? 64 then V mod 2 ^ bits
  else if isSigned then to_int64 V mod 2 ^ bits
  else V.

(** [llvm::ConstantInt::get(IntNTy(bits), V, isSigned)]; the argument
    is converted to the [uint64_t] parameter first. *)
Definition ConstantInt_get (bits V : Z) (isSigned : bool) : Value :=
  VConst bits (APInt bits (to_uint64 V) isSigned).

(** Two's-complement reading of a [bits]-wide pattern. *)
Definition as_signed (bits pattern : Z) : Z :=
  if pattern <? 2 ^ (bits - 1) then pattern else pattern - 2 ^ bits.

Definition Insert (v : Value) : IR Value :=
  bind (emit (IVal v)) (fun _ => ret v).

Definition CreateAlignedLoad (ptr : Value) (align : Z) : IR Value :=
  Insert (VLoad ptr align).

Definition CreateLoad (ptr : Value) : IR Value :=
  CreateAlignedLoad ptr 0.

Definition CreateStore (v ptr : Value) : IR unit :=
  emit (IStore v ptr).

Definition CreateAlloca (type_of : Value) : IR Value :=
  Insert (VAlloca type_of).

Definition CreateZExt (v : Value) (bits : Z) : IR Value :=
  match v with
  | VConst _ p => ret (VConst bits p)
  | _ => Insert (VZExt v bits)
  end.

Definition CreateSExt (v : Value) (bits : Z) : IR Value :=
  match v with
  | VConst w p =>
      if w =? bits then ret v
      else ret (VConst bits (as_signed w p mod 2 ^ bits))
  | _ => Insert (VSExt v bits)
  end.

Definition CreateAdd (a b : Value) : IR Value :=
  match a, b with
  | VConst w x, VConst _ y => ret (VConst w ((x + y) mod 2 ^ w))
  | _, _ => Insert (VAdd a b)
  end.

Definition CreateMul (a b : Value) : IR Value :=
  match a, b with
  | VConst w x, VConst _ y => ret (VConst w ((x * y) mod 2 ^ w))
  | _, _ => Insert (VMul a b)
  end.

Definition CreateICmpEQ (a b : Value) : IR Value :=
  match a, b with
  | VConst _ x, VConst _ y => ret (VConst 1 (if x =? y then 1 else 0))
  | _, _ => Insert (VICmpEQ a b)
  end.

Definition CreateCall (callee : Fn) (actuals : list Value) : IR Value :=
  Insert (VCall callee actuals).

Definition CreateCondBr (cond : Value) (if_true if_false : BasicBlock)
  : IR unit :=
  emit (ICondBr cond if_true if_false).

(** A [for] loop over a range or a container. *)
Fixpoint for_each {A} (l : list A) (body : A -> IR unit) : IR unit :=
  match l with
  | [] => ret tt
  | x :: l' => bind (body x) (fun _ => for_each l' body)
  end.

End IR.

Arguments VConst {Fn} bits pattern.
Arguments VArg0 {Fn}.
Arguments VStatePtr {Fn}.
Arguments VVar {Fn} name.
Arguments VLoad {Fn} ptr align.
Arguments VAlloca {Fn} type_of.
Arguments VZExt {Fn} v bits.
Arguments VSExt {Fn} v bits.
Arguments VAdd {Fn} a b.
Arguments VMul {Fn} a b.
Arguments VICmpEQ {Fn} a b.
Arguments VCall {Fn} callee actuals.
Arguments IVal {Fn} v.
Arguments IStore {Fn} v ptr.
Arguments ITailCall {Fn} callee.
Arguments ICondBr {Fn} cond if_true if_false.
Arguments B_insts {Fn} l.
Arguments F_created {Fn} l.
Arguments args {Fn} l.
Arguments append_instrs {Fn} l.
Arguments logged {Fn} l.
Arguments Ok {A} a.
Arguments Fatal {A} msg.
Arguments ret {Fn A} a st.
Arguments bind {Fn A B} m k st.
Arguments LOG_FATAL {Fn A} msg st.
Arguments CHECK {Fn} cond msg st.
Arguments LOG {Fn} sev msg st.
Arguments emit {Fn} x st.
Arguments args_push_back {Fn} v st.
Arguments get_args {Fn} st.
Arguments get_append_instrs {Fn} st.
Arguments BasicBlock_Create {Fn} name st.
Arguments push_in_created {Fn} k x bs.
Arguments AddTerminatingTailCall {Fn} block callee st.
Arguments FindVarInFunction {Fn} name.
Arguments FindStatePointer {Fn}.
Arguments ConstantInt_get {Fn} bits V isSigned.
Arguments Insert {Fn} v st.
Arguments CreateAlignedLoad {Fn} ptr align st.
Arguments CreateLoad {Fn} ptr st.
Arguments CreateStore {Fn} v ptr st.
Arguments CreateAlloca {Fn} type_of st.
Arguments CreateZExt {Fn} v bits st.
Arguments CreateSExt {Fn} v bits st.
Arguments CreateAdd {Fn} a b st.
Arguments CreateMul {Fn} a b st.
Arguments CreateICmpEQ {Fn} a b st.
Arguments CreateCall {Fn} callee actuals st.
Arguments CreateCondBr {Fn} cond if_true if_false st.
Arguments for_each {Fn A} l body st.

Declare Scope ir_scope.
Delimit Scope ir_scope with ir.
Notation "x <- m ;; k" := (bind m (fun x => k))
  (at level 61, m at next level, right associativity) : ir_scope.
Notation "m ;; k" := (bind m (fun _ => k))
  (at level 61, right associativity) : ir_scope.
Notation "' pat <- m ;; k" :=
  (bind m (fun x => match x with pat => k end))
  (at level 61, pat pattern, m at next level, right associativity) : ir_scope.

(** ** The lifter *)

Section Lifting.

Context {xed : XED}.
Variable Fn : Type.

(** The members of [Lifter] that [Instr] uses.  [Lifter] itself is not
    among the sources: its helper routines and its resolver from a
    program counter to the lifted block are taken as given. *)
Record Lifter : Type := {
  error : Fn;
  jump : Fn;
  function_call : Fn;
  function_return : Fn;
  system_call : Fn;
  system_return : Fn;
  interrupt_call : Fn;
  interrupt_return : Fn;
  compute_address : Fn;
  GetLiftedBlockForPC : Z -> Fn
}.

(** [llvm::GlobalVariable], as far as [LiftGeneric] looks at it;
    [getInitializer] is the function left by
    [stripPointerCasts] and [dyn_cast]. *)
Record GlobalVariable : Type := {
  isConstant : bool;
  hasInitializer : bool;
  getInitializer : Fn
}.

(** [llvm::Module], as far as [LiftGeneric] looks at it. *)
Record Module : Type := {
  getFunction : string -> option Fn;
  getGlobalVariable : string -> option GlobalVariable
}.

(** The command-line flag [FLAGS_os], the module [M] of the block and
    the lifter. *)
Variable FLAGS_os : string.
Variable M : Module.
Variable lifter : Lifter.

Local Open Scope string_scope.
Local Open Scope Z_scope.
Local Open Scope ir_scope.

(** Name of this instruction function. *)
Definition InstructionFunctionName (xedd : xed_decoded_inst_t) : string :=
  (if String.eqb FLAGS_os "mac" then "_" else "")
  ++ xed_iform_enum_t2str (xed_decoded_inst_get_iform_enum xedd)
  ++ "_"
  ++ show (xed_decoded_inst_get_operand_width xedd).

(** Returns the address space associated with a segment register. *)
Definition AddressSpace (seg : Z) (name : xed_operand_enum_t) : Z :=
  if operand_eqb XED_OPERAND_AGEN name then 0
  else if XED_REG_GS =? seg then 256
  else if XED_REG_FS =? seg then 257
  else 0.

(** *** Classification *)

Definition IsFunctionCall (this : Instr) : bool :=
  (XED_ICLASS_CALL_NEAR =? iclass this) || (XED_ICLASS_CALL_FAR =? iclass this).

Definition IsFunctionReturn (this : Instr) : bool :=
  (XED_ICLASS_RET_NEAR =? iclass this) || (XED_ICLASS_RET_FAR =? iclass this).

Definition IsSystemCall (this : Instr) : bool :=
  (XED_ICLASS_SYSCALL =? iclass this)
  || (XED_ICLASS_SYSCALL_AMD =? iclass this)
  || (XED_ICLASS_SYSENTER =? iclass this).

Definition IsSystemReturn (this : Instr) : bool :=
  (XED_ICLASS_SYSRET =? iclass this)
  || (XED_ICLASS_SYSRET_AMD =? iclass this)
  || (XED_ICLASS_SYSEXIT =? iclass this).

Definition IsInterruptCall (this : Instr) : bool :=
  (XED_ICLASS_INT <=? iclass this) && (XED_ICLASS_INTO >=? iclass this).

Definition IsInterruptReturn (this : Instr) : bool :=
  (XED_ICLASS_IRET <=? iclass this) && (XED_ICLASS_IRETQ >=? iclass this).

Definition IsBranch (this : Instr) : bool :=
  ((XED_ICLASS_JB <=? iclass this) && (XED_ICLASS_JLE >=? iclass this))
  || ((XED_ICLASS_JNB <=? iclass this) && (XED_ICLASS_JZ >=? iclass this))
  || ((XED_ICLASS_LOOP <=? iclass this) && (XED_ICLASS_LOOPNE >=? iclass this))
  || (XED_ICLASS_XBEGIN =? iclass this).

Definition IsJump (this : Instr) : bool :=
  (XED_ICLASS_JMP =? iclass this) || (XED_ICLASS_JMP_FAR =? iclass this)
  || (XED_ICLASS_XEND =? iclass this) || (XED_ICLASS_XABORT =? iclass this).

Definition IsDirectFunctionCall (this : Instr) : bool :=
  let xedo := xed_inst_operand (xedd this) 0 in
  let op_name := xed_operand_name xedo in
  (XED_ICLASS_CALL_NEAR =? iclass this) && operand_eqb XED_OPERAND_RELBR op_name.

Definition IsIndirectFunctionCall (this : Instr) : bool :=
  let xedo := xed_inst_operand (xedd this) 0 in
  let op_name := xed_operand_name xedo in
  ((XED_ICLASS_CALL_NEAR =? iclass this)
   && negb (operand_eqb XED_OPERAND_RELBR op_name))
  || (XED_ICLASS_CALL_FAR =? iclass this).

Definition IsDirectJump (this : Instr) : bool :=
  let xedo := xed_inst_operand (xedd this) 0 in
  let op_name := xed_operand_name xedo in
  (XED_ICLASS_JMP =? iclass this) && operand_eqb XED_OPERAND_RELBR op_name.

Definition IsIndirectJump (this : Instr) : bool :=
  let xedo := xed_inst_operand (xedd this) 0 in
  let op_name := xed_operand_name xedo in
  ((XED_ICLASS_JMP =? iclass this)
   && negb (operand_eqb XED_OPERAND_RELBR op_name))
  || (XED_ICLASS_JMP_FAR =? iclass this)
  || (XED_ICLASS_XEND =? iclass this) || (XED_ICLASS_XABORT =? iclass this).

Definition IsError (this : Instr) : bool :=
  XED_ICLASS_HLT =? iclass this.

Definition NextPC (this : Instr) : Z :=
  to_uint64 (address (instr this) + size (instr this)).

Definition TargetPC (this : Instr) : IR Fn Z :=
  CHECK (IsDirectJump this || IsDirectFunctionCall this || IsBranch this)
    "Can only get target PC of a direct jump, branch, or function call." ;;
  let disp := xed_decoded_inst_get_branch_displacement (xedd this) in
  let next_pc := to_int64 (NextPC this) in
  ret (to_uint64 (next_pc + disp)).

(** Name of the program counter register. *)
Definition PCRegName (xedd : xed_decoded_inst_t) : IR Fn string :=
  let w := xed_operand_values_get_effective_address_width xedd in
  if w =? 64 then ret "RIP"
  else if w =? 32 then ret "EIP"
  else if w =? 16 then ret "IP"
  else LOG ERROR "Unexpected address width." ;; ret "".

(** Store the next program counter into the associated state register. *)
Definition LiftPC (this : Instr) : IR Fn unit :=
  let addr_width := xed_decoded_inst_get_machine_mode_bits (xedd this) in
  let IntPtrTy := addr_width in
  name <- PCRegName (xedd this) ;;
  slot <- CreateLoad (FindVarInFunction (name ++ "_write")) ;;
  CreateStore (ConstantInt_get IntPtrTy (NextPC this) false) slot.

(** Lift a base/displacement memory operand. *)
Definition LiftMemory (this : Instr) (xedo : xed_operand_t) (op_num : nat)
  : IR Fn unit :=
  let op_name := xed_operand_name xedo in
  let mem_index := if operand_eqb XED_OPERAND_MEM1 op_name then 1 else 0 in
  let seg := xed_decoded_inst_get_seg_reg (xedd this) mem_index in
  let base := xed_decoded_inst_get_base_reg (xedd this) mem_index in
  let index := xed_decoded_inst_get_index_reg (xedd this) mem_index in
  let disp := xed_decoded_inst_get_memory_displacement (xedd this) mem_index in
  let scale := xed_decoded_inst_get_scale (xedd this) mem_index in
  let addr_width := xed_decoded_inst_get_machine_mode_bits (xedd this) in
  let addr_space := AddressSpace seg op_name in
  let IntPtrTy := addr_width in
  let Int32Ty := 32 in
  A <- (if (XED_REG_INVALID =? base) && (XED_REG_INVALID =? index) then
          (* Address is in the displacement. *)
          ret (ConstantInt_get IntPtrTy (to_uint64 disp) false)
        else if XED_REG_RIP =? base then
          (* PC-relative address. *)
          let next_pc := to_int64 (NextPC this) in
          ret (ConstantInt_get IntPtrTy (to_uint64 (next_pc + disp)) false)
        else
          (* Need to compute the address as B + (I * S) + D. *)
          let RegToValue (reg : Z) : IR Fn (Value Fn) :=
            if XED_REG_INVALID =? reg then
              ret (ConstantInt_get IntPtrTy 0 false)
            else
              let var_name := xed_reg_enum_t2str reg ++ "_read" in
              P <- CreateLoad (FindVarInFunction var_name) ;;
              V <- CreateLoad P ;;
              if xed_get_register_width_bits64 reg <? addr_width then
                CreateZExt V IntPtrTy
              else ret V in
          B <- RegToValue base ;;
          I <- RegToValue index ;;
          (* POP [xSP + ...] uses the value of xSP after incrementing it
             by the stack width. *)
          B <- (if (XED_ICLASS_POP =? iclass this)
                   && (XED_REG_RSP =? xed_get_largest_enclosing_register base)
                then CreateAdd B (ConstantInt_get IntPtrTy (addr_width / 8) false)
                else ret B) ;;
          let S := ConstantInt_get IntPtrTy scale true in
          let D := ConstantInt_get Int32Ty disp true in
          D <- (if 32 <? addr_width then CreateSExt D IntPtrTy else ret D) ;;
          IS <- CreateMul I S ;;
          BIS <- CreateAdd B IS ;;
          CreateAdd BIS D) ;;
  A <- (if negb (addr_space =? 0) then
          CreateCall (compute_address lifter)
            [FindStatePointer; A; ConstantInt_get Int32Ty addr_space true]
        else ret A) ;;
  (if xed_operand_written xedo then args_push_back A else ret tt) ;;
  (if xed_operand_read xedo then args_push_back A else ret tt).

(** Convert an immediate constant into an LLVM value for passing into
    the instruction implementation. *)
Definition LiftImmediate (this : Instr) (op_name : xed_operand_enum_t)
  : IR Fn unit :=
  let op_size := xed_decoded_inst_get_operand_width (xedd this) in
  let imm_size := xed_decoded_inst_get_immediate_width_bits (xedd this) in
  CHECK (imm_size <=? op_size)
    ("Immediate size is greater than effective operand size at PC "
     ++ show (address (instr this))) ;;
  '(val, is_signed) <-
    (if operand_eqb XED_OPERAND_IMM0SIGNED op_name
        || xed_operand_values_get_immediate_is_signed (xedd this) then
       ret (to_uint64 (to_int64
              (xed_decoded_inst_get_signed_immediate (xedd this))), true)
     else if operand_eqb XED_OPERAND_IMM0 op_name then
       ret (to_uint64 (xed_decoded_inst_get_unsigned_immediate (xedd this)),
            false)
     else if operand_eqb XED_OPERAND_IMM1_BYTES op_name
             || operand_eqb XED_OPERAND_IMM1 op_name then
       ret (to_uint64 (xed_decoded_inst_get_second_immediate (xedd this)),
            false)
     else LOG_FATAL "Unexpected immediate type") ;;
  args_push_back (ConstantInt_get op_size val is_signed).

Definition IsVectorReg (reg : Z) : bool :=
  ((XED_REG_MMX_FIRST <=? reg) && (XED_REG_MMX_LAST >=? reg))
  || ((XED_REG_XMM_FIRST <=? reg) && (XED_REG_XMM_LAST >=? reg))
  || ((XED_REG_YMM_FIRST <=? reg) && (XED_REG_YMM_LAST >=? reg))
  || ((XED_REG_ZMM_FIRST <=? reg) && (XED_REG_ZMM_LAST >=? reg)).

(** Lift a register operand.  Writes are placed first as they are the
    output operands.  The load of the register value and the
    [setAlignment] on it are one aligned load. *)
Definition LiftRegister (this : Instr) (xedo : xed_operand_t) : IR Fn unit :=
  let op_name := xed_operand_name xedo in
  let reg := xed_decoded_inst_get_reg (xedd this) op_name in
  let reg_name := xed_reg_enum_t2str reg in
  (if xed_operand_written xedo then
     RegAddr <- CreateLoad (FindVarInFunction (reg_name ++ "_write")) ;;
     args_push_back RegAddr
   else ret tt) ;;
  (if xed_operand_read xedo then
     RegAddr <- CreateLoad (FindVarInFunction (reg_name ++ "_read")) ;;
     Reg <- CreateAlignedLoad RegAddr kVectorRegAlign ;;
     if IsVectorReg reg then
       ValAddr <- CreateAlloca Reg ;;
       CreateStore Reg ValAddr ;;
       args_push_back ValAddr
     else args_push_back Reg
   else ret tt).

(** Lift a relative branch operand. *)
Definition LiftBranchDisplacement (this : Instr) : IR Fn unit :=
  let addr_width := xed_decoded_inst_get_machine_mode_bits (xedd this) in
  let IntPtrTy := addr_width in
  target_pc <- TargetPC this ;;
  args_push_back (ConstantInt_get IntPtrTy target_pc true).

(** Lift an operand. *)
Definition LiftOperand (this : Instr) (op_num : nat) : IR Fn unit :=
  let xedo := xed_inst_operand (xedd this) op_num in
  match xed_operand_operand_visibility xedo with
  | XED_OPVIS_SUPPRESSED => ret tt
  | _ =>
      match xed_operand_name xedo with
      | XED_OPERAND_AGEN
      | XED_OPERAND_MEM0 => LiftMemory this xedo op_num
      | XED_OPERAND_IMM0SIGNED
      | XED_OPERAND_IMM0
      | XED_OPERAND_IMM1_BYTES
      | XED_OPERAND_IMM1 => LiftImmediate this (xed_operand_name xedo)
      | XED_OPERAND_PTR =>
          LOG_FATAL "Unsupported operand type: XED_OPERAND_PTR"
      | XED_OPERAND_REG0
      | XED_OPERAND_REG1
      | XED_OPERAND_REG2
      | XED_OPERAND_REG3 => LiftRegister this xedo
      | XED_OPERAND_RELBR => LiftBranchDisplacement this
      | _ => LOG_FATAL "Unexpected operand type"
      end
  end.

(** Lift a generic instruction. *)
Definition LiftGeneric (this : Instr) : IR Fn unit :=
  args_push_back VArg0 ;;
  let num_operands := xed_decoded_inst_noperands (xedd this) in
  for_each (seq 0 num_operands) (fun i => LiftOperand this i) ;;
  let func_name := InstructionFunctionName (xedd this) in
  (match getFunction M func_name with
   | Some F' =>
       actuals <- get_args ;;
       CreateCall F' actuals ;; ret tt
   | None =>
       match getGlobalVariable M func_name with
       | Some FP =>
           CHECK (isConstant FP && hasInitializer FP)
             "Expected a `constexpr` variable as the function pointer." ;;
           actuals <- get_args ;;
           CreateCall (getInitializer FP) actuals ;; ret tt
       | None =>
           LOG WARNING ("Missing instruction semantics for " ++ func_name)
       end
   end) ;;
  (* Fixup instructions that must follow the instruction function. *)
  fixups <- get_append_instrs ;;
  for_each fixups (fun x => emit x).

(** Lift a conditional branch instruction. *)
Definition LiftConditionalBranch (this : Instr) : IR Fn unit :=
  let addr_width := xed_decoded_inst_get_machine_mode_bits (xedd this) in
  target_pc <- TargetPC this ;;
  name <- PCRegName (xedd this) ;;
  P <- CreateLoad (FindVarInFunction (name ++ "_read")) ;;
  DestPC <- CreateLoad P ;;
  let IntPtrTy := addr_width in
  let BranchPC := ConstantInt_get IntPtrTy target_pc false in
  Taken <- BasicBlock_Create "branch_taken" ;;
  FallThrough <- BasicBlock_Create "fall_through" ;;
  AddTerminatingTailCall Taken (GetLiftedBlockForPC lifter target_pc) ;;
  AddTerminatingTailCall FallThrough (GetLiftedBlockForPC lifter (NextPC this)) ;;
  cond <- CreateICmpEQ BranchPC DestPC ;;
  CreateCondBr cond Taken FallThrough.

(** [Instr::LiftIntoBlock]: the block [B_] is the one whose instructions
    the state holds in [B_insts]. *)
Definition LiftIntoBlock (this : Instr) : IR Fn bool :=
  if IsError this then
    AddTerminatingTailCall BB_B (error lifter) ;;
    ret false
  else if IsDirectJump this then
    target_pc <- TargetPC this ;;
    AddTerminatingTailCall BB_B (GetLiftedBlockForPC lifter target_pc) ;;
    ret false
  else if IsIndirectJump this then
    LiftPC this ;;
    LiftGeneric this ;;
    AddTerminatingTailCall BB_B (jump lifter) ;;
    ret false
  else if IsDirectFunctionCall this then
    LiftPC this ;;
    LiftGeneric this ;;
    target_pc <- TargetPC this ;;
    AddTerminatingTailCall BB_B (GetLiftedBlockForPC lifter target_pc) ;;
    ret false
  else if IsIndirectFunctionCall this then
    LiftPC this ;;
    LiftGeneric this ;;
    AddTerminatingTailCall BB_B (function_call lifter) ;;
    ret false
  else if IsFunctionReturn this then
    LiftPC this ;;
    LiftGeneric this ;;
    AddTerminatingTailCall BB_B (function_return lifter) ;;
    ret false
  else if IsBranch this then
    LiftPC this ;;
    LiftGeneric this ;;
    LiftConditionalBranch this ;;
    ret false
  else if IsSystemCall this then
    LiftPC this ;;
    LiftGeneric this ;;
    AddTerminatingTailCall BB_B (system_call lifter) ;;
    ret false
  else if IsSystemReturn this then
    LiftPC this ;;
    LiftGeneric this ;;
    AddTerminatingTailCall BB_B (system_return lifter) ;;
    LOG WARNING ("Unsupported instruction (system return) at PC "
                 ++ show (address (instr this))) ;;
    ret false
  else if IsInterruptCall this then
    LiftPC this ;;
    LiftGeneric this ;;
    AddTerminatingTailCall BB_B (interrupt_call lifter) ;;
    ret false
  else if IsInterruptReturn this then
    LiftPC this ;;
    LiftGeneric this ;;
    AddTerminatingTailCall BB_B (interrupt_return lifter) ;;
    LOG WARNING ("Unsupported instruction (system return) at PC "
                 ++ show (address (instr this))) ;;
    ret false
  else
    (* Not a control-flow instruction, need to add a fall-through. *)
    LiftGeneric this ;;
    ret true.

End Lifting.

Arguments error {Fn} l.
Arguments jump {Fn} l.
Arguments function_call {Fn} l.
Arguments function_return {Fn} l.
Arguments system_call {Fn} l.
Arguments system_return {Fn} l.
Arguments interrupt_call {Fn} l.
Arguments interrupt_return {Fn} l.
Arguments compute_address {Fn} l.
Arguments GetLiftedBlockForPC {Fn} l pc.
Arguments isConstant {Fn} g.
Arguments hasInitializer {Fn} g.
Arguments getInitializer {Fn} g.
Arguments getFunction {Fn} m name.
Arguments getGlobalVariable {Fn} m name.
Arguments TargetPC {xed Fn} this st.
Arguments PCRegName {Fn} xedd st.
Arguments LiftPC {Fn} this st.
Arguments LiftMemory {xed Fn} lifter this xedo op_num st.
Arguments LiftImmediate {Fn} this op_name st.
Arguments LiftRegister {xed Fn} this xedo st.
Arguments LiftBranchDisplacement {xed Fn} this st.
Arguments LiftOperand {xed Fn} lifter this op_num st.
Arguments LiftGeneric {xed Fn} FLAGS_os M lifter this st.
Arguments LiftConditionalBranch {xed Fn} lifter this st.
Arguments LiftIntoBlock {xed Fn} FLAGS_os M lifter this st.

(** ** Vocabulary of the properties *)

Section Vocabulary.

Context {xed : XED} {Fn : Type}.

Local Open Scope string_scope.
Local Open Scope Z_scope.

(** [st] after [bi] was inserted at the end of [B], [ar] was pushed on
    [args] and [lg] was logged. *)
Definition extend (st : LiftState Fn) (bi : list (Inst Fn))
    (ar : list (Value Fn)) (lg : list (Severity * string)) : LiftState Fn :=
  {| B_insts := (B_insts st ++ bi)%list;
     F_created := F_created st;
     args := (args st ++ ar)%list;
     append_instrs := append_instrs st;
     logged := (logged st ++ lg)%list |}.

(** The categories of [LiftIntoBlock], and the one an instruction falls
    in: the first predicate that holds, in the order of the dispatch. *)
Inductive Category : Type :=
| CatError
| CatDirectJump
| CatIndirectJump
| CatDirectFunctionCall
| CatIndirectFunctionCall
| CatFunctionReturn
| CatBranch
| CatSystemCall
| CatSystemReturn
| CatInterruptCall
| CatInterruptReturn
| CatFallThrough.

Definition classify (this : Instr) : Category :=
  if IsError this then CatError
  else if IsDirectJump this then CatDirectJump
  else if IsIndirectJump this then CatIndirectJump
  else if IsDirectFunctionCall this then CatDirectFunctionCall
  else if IsIndirectFunctionCall this then CatIndirectFunctionCall
  else if IsFunctionReturn this then CatFunctionReturn
  else if IsBranch this then CatBranch
  else if IsSystemCall this then CatSystemCall
  else if IsSystemReturn this then CatSystemReturn
  else if IsInterruptCall this then CatInterruptCall
  else if IsInterruptReturn this then CatInterruptReturn
  else CatFallThrough.

(** Some control-flow classification predicate holds. *)
Definition is_control_flow (this : Instr) : bool :=
  IsError this || IsDirectJump this || IsIndirectJump this
  || IsDirectFunctionCall this || IsIndirectFunctionCall this
  || IsFunctionReturn this || IsBranch this || IsSystemCall this
  || IsSystemReturn this || IsInterruptCall this || IsInterruptReturn this
  || IsFunctionCall this || IsJump this.

Definition visible (xedo : xed_operand_t) : bool :=
  match xed_operand_operand_visibility xedo with
  | XED_OPVIS_SUPPRESSED => false
  | _ => true
  end.

(** One value per role of the operand, the write slot first. *)
Definition per_role (xedo : xed_operand_t) (w r : Value Fn)
  : list (Value Fn) :=
  ((if xed_operand_written xedo then [w] else [])
   ++ (if xed_operand_read xedo then [r] else []))%list.

Definition is_memory_name (n : xed_operand_enum_t) : bool :=
  match n with XED_OPERAND_AGEN | XED_OPERAND_MEM0 => true | _ => false end.

Definition is_register_name (n : xed_operand_enum_t) : bool :=
  match n with
  | XED_OPERAND_REG0 | XED_OPERAND_REG1
  | XED_OPERAND_REG2 | XED_OPERAND_REG3 => true
  | _ => false
  end.

Definition is_immediate_name (n : xed_operand_enum_t) : bool :=
  match n with
  | XED_OPERAND_IMM0SIGNED | XED_OPERAND_IMM0
  | XED_OPERAND_IMM1_BYTES | XED_OPERAND_IMM1 => true
  | _ => false
  end.

(** The write handle of a register: the content of its [_write] slot. *)
Definition write_handle (reg : Z) : Value Fn :=
  VLoad (VVar (xed_reg_enum_t2str reg ++ "_write")) 0.

(** The value read from a register: the content of what its [_read]
    slot points to, copied to a fresh local for a vector register. *)
Definition read_value (reg : Z) : Value Fn :=
  let Reg := VLoad (VLoad (VVar (xed_reg_enum_t2str reg ++ "_read")) 0)
               kVectorRegAlign in
  if IsVectorReg reg then VAlloca Reg else Reg.

(** What a visible operand appends to the argument list. *)
Inductive contributes (this : Instr) (xedo : xed_operand_t)
  : list (Value Fn) -> Prop :=
| contributes_memory (A : Value Fn) :
    is_memory_name (xed_operand_name xedo) = true ->
    contributes this xedo (per_role xedo A A)
| contributes_register :
    is_register_name (xed_operand_name xedo) = true ->
    contributes this xedo
      (per_role xedo
         (write_handle
            (xed_decoded_inst_get_reg (xedd this) (xed_operand_name xedo)))
         (read_value
            (xed_decoded_inst_get_reg (xedd this) (xed_operand_name xedo))))
| contributes_immediate (pattern : Z) :
    is_immediate_name (xed_operand_name xedo) = true ->
    contributes this xedo
      [VConst (xed_decoded_inst_get_operand_width (xedd this)) pattern]
| contributes_branch_target (target_pc : Z) :
    xed_operand_name xedo = XED_OPERAND_RELBR ->
    contributes this xedo
      [ConstantInt_get (xed_decoded_inst_get_machine_mode_bits (xedd this))
         target_pc true].

(** The value a register contributes to an address: the content of what
    its [_read] slot points to, zero-extended when the register is
    narrower than the address. *)
Definition address_part (this : Instr) (reg : Z) : Value Fn :=
  let V := VLoad (VLoad (VVar (xed_reg_enum_t2str reg ++ "_read")) 0) 0 in
  if xed_get_register_width_bits64 reg
     <? xed_decoded_inst_get_machine_mode_bits (xedd this)
  then VZExt V (xed_decoded_inst_get_machine_mode_bits (xedd this))
  else V.

(** The address with its address-space tag: handed to the
    segmented-address helper when the tag is not zero. *)
Definition routed (lifter : Lifter Fn) (tag : Z) (A : Value Fn) : Value Fn :=
  if tag =? 0 then A
  else VCall (compute_address lifter)
         [VStatePtr; A; ConstantInt_get 32 tag true].

(** The value is the result of a call of the segmented-address helper. *)
Definition through_helper (lifter : Lifter Fn) (v : Value Fn) : Prop :=
  exists actuals, v = VCall (compute_address lifter) actuals.

(** The value is a constant or a sum, not the result of a call. *)
Definition plain_address (v : Value Fn) : Prop :=
  match v with
  | VConst _ _ | VAdd _ _ => True
  | _ => False
  end.

(** A terminating transfer. *)
Definition is_terminator (x : Inst Fn) : bool :=
  match x with
  | ITailCall _ | ICondBr _ _ _ => true
  | _ => false
  end.

(** The three stages of a lifted control transfer from [st] to [st']:
    the next program counter is stored into the [_write] slot of the
    program counter register, then the generic pass runs, which ends
    with the call of the semantics function when the module has one and
    the fix-ups, then [tail] and the terminating transfer [last] are
    inserted. *)
Definition staged (FLAGS_os : string) (M : Module Fn) (lifter : Lifter Fn)
    (this : Instr) (st st' : LiftState Fn) (last : Inst Fn) : Prop :=
  exists name st0 st1 st2 generic tail,
    PCRegName (xedd this) st = Ok (name, st0) /\
    LiftPC this st = Ok (tt, st1) /\
    B_insts st1 =
      (B_insts st
       ++ [IVal (VLoad (VVar (name ++ "_write")) 0);
           IStore (ConstantInt_get
                     (xed_decoded_inst_get_machine_mode_bits (xedd this))
                     (NextPC this) false)
                  (VLoad (VVar (name ++ "_write")) 0)])%list /\
    LiftGeneric FLAGS_os M lifter this st1 = Ok (tt, st2) /\
    B_insts st2 = (B_insts st1 ++ generic)%list /\
    (forall F',
        getFunction M (InstructionFunctionName FLAGS_os (xedd this))
          = Some F' ->
        exists before,
          generic =
          (before ++ IVal (VCall F' (args st2)) :: append_instrs st1)%list) /\
    B_insts st' = (B_insts st2 ++ tail ++ [last])%list /\
    forallb (fun x => negb (is_terminator x)) tail = true /\
    is_terminator last = true.

(** The address of a memory operand before it is routed: the
    displacement, or the next program counter plus the displacement, or
    a sum [(B + I * S) + D] whose base part [B], for a base register, is
    [address_part] of it, bumped by the stack width on a [POP] through
    the stack pointer. *)
Definition memory_address_shape (this : Instr) (xedo : xed_operand_t)
    (raw : Value Fn) : Prop :=
  let mem_index :=
    if operand_eqb XED_OPERAND_MEM1 (xed_operand_name xedo) then 1 else 0 in
  let base := xed_decoded_inst_get_base_reg (xedd this) mem_index in
  let index := xed_decoded_inst_get_index_reg (xedd this) mem_index in
  let disp := xed_decoded_inst_get_memory_displacement (xedd this) mem_index in
  let addr_width := xed_decoded_inst_get_machine_mode_bits (xedd this) in
  if (XED_REG_INVALID =? base) && (XED_REG_INVALID =? index) then
    raw = ConstantInt_get addr_width (to_uint64 disp) false
  else if XED_REG_RIP =? base then
    raw = ConstantInt_get addr_width
            (to_uint64 (to_int64 (NextPC this) + disp)) false
  else
    exists B IS D,
      raw = VAdd (VAdd B IS) D /\
      (base <> XED_REG_INVALID ->
       B = if (XED_ICLASS_POP =? iclass this)
              && (XED_REG_RSP =? xed_get_largest_enclosing_register base)
           then VAdd (address_part this base)
                  (ConstantInt_get addr_width (addr_width / 8) false)
           else address_part this base).

(** The run of [m] from any state inserts instructions into [B], leaves
    the rest of the state alone and returns a value that satisfies [P]. *)
Definition computes {A : Type} (m : IR Fn A) (P : A -> Prop) : Prop :=
  forall st, exists a bi, m st = Ok (a, extend st bi [] []) /\ P a.

Definition is_constant (v : Value Fn) : bool :=
  match v with VConst _ _ => true | _ => false end.

(** The operand is one [LiftOperand] goes through with: it is
    suppressed, or its name is one of the supported ones, an immediate
    fits the operand width and a branch displacement sits on an
    instruction that has a target. *)
Definition operand_liftable (this : Instr) (xedo : xed_operand_t) : bool :=
  negb (visible xedo)
  || match xed_operand_name xedo with
     | XED_OPERAND_AGEN | XED_OPERAND_MEM0 => true
     | XED_OPERAND_IMM0SIGNED | XED_OPERAND_IMM0
     | XED_OPERAND_IMM1_BYTES | XED_OPERAND_IMM1 =>
         xed_decoded_inst_get_immediate_width_bits (xedd this)
         <=? xed_decoded_inst_get_operand_width (xedd this)
     | XED_OPERAND_REG0 | XED_OPERAND_REG1
     | XED_OPERAND_REG2 | XED_OPERAND_REG3 => true
     | XED_OPERAND_RELBR =>
         IsDirectJump this || IsDirectFunctionCall this || IsBranch this
     | _ => false
     end.

(** The instruction is one the generic pass goes through with: every
    operand is liftable, and a global variable found under the name of
    the semantics function is a constant with an initializer. *)
Definition liftable (FLAGS_os : string) (M : Module Fn) (this : Instr)
  : bool :=
  forallb (operand_liftable this) (xed_decoded_inst_operands (xedd this))
  && match getFunction M (InstructionFunctionName FLAGS_os (xedd this)) with
     | Some _ => true
     | None =>
         match getGlobalVariable M
                 (InstructionFunctionName FLAGS_os (xedd this)) with
         | Some FP => isConstant FP && hasInitializer FP
         | None => true
         end
     end.

Definition not_terminator (x : Inst Fn) : bool := negb (is_terminator x).

(** Whenever the run of [m] returns, what it has inserted into [B]
    holds no terminating transfer, and it has created no block and left
    the fix-ups alone. *)
Definition quiet {A : Type} (m : IR Fn A) : Prop :=
  forall st a st',
    m st = Ok (a, st') ->
    exists bi,
      B_insts st' = (B_insts st ++ bi)%list /\
      forallb not_terminator bi = true /\
      F_created st' = F_created st /\
      append_instrs st' = append_instrs st.

End Vocabulary.

(** ** Concrete inputs

    A numbering of the enumerators in XED's alphabetical order, a
    module, a lifter and a few decoded instructions, on which the
    functions are run. *)

Module Sample.

Local Open Scope string_scope.
Local Open Scope Z_scope.

Definition reg_name (r : Z) : string :=
  if r =? 1 then "RAX" else if r =? 2 then "RBX"
  else if r =? 10 then "RSP" else if r =? 11 then "ESP"
  else if r =? 12 then "SP" else if r =? 20 then "RIP"
  else if r =? 30 then "FS" else if r =? 31 then "GS"
  else if r =? 50 then "XMM0" else "INVALID".

Definition xed_sample : XED := {|
  XED_ICLASS_CALL_FAR := 2;
  XED_ICLASS_CALL_NEAR := 3;
  XED_ICLASS_HLT := 5;
  XED_ICLASS_INT := 10;
  XED_ICLASS_INTO := 13;
  XED_ICLASS_IRET := 20;
  XED_ICLASS_IRETQ := 22;
  XED_ICLASS_JB := 30;
  XED_ICLASS_JLE := 35;
  XED_ICLASS_JMP := 36;
  XED_ICLASS_JMP_FAR := 37;
  XED_ICLASS_JNB := 38;
  XED_ICLASS_JZ := 50;
  XED_ICLASS_LOOP := 60;
  XED_ICLASS_LOOPNE := 62;
  XED_ICLASS_POP := 70;
  XED_ICLASS_RET_FAR := 80;
  XED_ICLASS_RET_NEAR := 81;
  XED_ICLASS_SYSCALL := 90;
  XED_ICLASS_SYSCALL_AMD := 91;
  XED_ICLASS_SYSENTER := 92;
  XED_ICLASS_SYSEXIT := 93;
  XED_ICLASS_SYSRET := 94;
  XED_ICLASS_SYSRET_AMD := 95;
  XED_ICLASS_XABORT := 100;
  XED_ICLASS_XBEGIN := 101;
  XED_ICLASS_XEND := 102;
  XED_REG_INVALID := 0;
  XED_REG_RSP := 10;
  XED_REG_RIP := 20;
  XED_REG_FS := 30;
  XED_REG_GS := 31;
  XED_REG_MMX_FIRST := 40;
  XED_REG_MMX_LAST := 47;
  XED_REG_XMM_FIRST := 50;
  XED_REG_XMM_LAST := 81;
  XED_REG_YMM_FIRST := 90;
  XED_REG_YMM_LAST := 121;
  XED_REG_ZMM_FIRST := 130;
  XED_REG_ZMM_LAST := 161;
  xed_get_largest_enclosing_register :=
    fun r => if (r =? 11) || (r =? 12) then 10 else r;
  xed_get_register_width_bits64 :=
    fun r => if r =? 11 then 32 else if r =? 12 then 16
             else if (50 <=? r) && (r <=? 81) then 128 else 64;
  xed_reg_enum_t2str := reg_name;
  xed_iform_enum_t2str :=
    fun f => if f =? 1 then "ADD_MEMv_GPRv" else if f =? 2 then "RET_NEAR"
             else if f =? 3 then "JZ_RELBRb" else "OTHER"
|}.

Definition ICLASS_ADD : Z := 1.

Definition sample_lifter : Lifter string := {|
  error := "__mcsema_error";
  jump := "__mcsema_jump";
  function_call := "__mcsema_function_call";
  function_return := "__mcsema_function_return";
  system_call := "__mcsema_system_call";
  system_return := "__mcsema_system_return";
  interrupt_call := "__mcsema_interrupt_call";
  interrupt_return := "__mcsema_interrupt_return";
  compute_address := "__mcsema_compute_address";
  GetLiftedBlockForPC := fun pc => "__lifted_block_" ++ show pc
|}.

Definition sample_module : Module string := {|
  getFunction :=
    fun name => if String.eqb name "ADD_MEMv_GPRv_64" then Some name
                else if String.eqb name "RET_NEAR_64" then Some name
                else None;
  getGlobalVariable :=
    fun name => if String.eqb name "JZ_RELBRb_64"
                then Some {| isConstant := true; hasInitializer := true;
                             getInitializer := "JZ_RELBRb_64_impl" |}
                else None
|}.

(** The state in which a fresh [Instr] starts on an empty block. *)
Definition fresh : LiftState string := {|
  B_insts := [];
  F_created := [];
  args := [];
  append_instrs := [];
  logged := []
|}.

Definition operand (name : xed_operand_enum_t)
    (vis : xed_operand_visibility_enum_t) (r w : bool) : xed_operand_t :=
  {| xed_operand_name := name;
     xed_operand_operand_visibility := vis;
     xed_operand_read := r;
     xed_operand_written := w |}.

(** A decoded instruction in 64-bit mode whose memory operand, if any,
    is [seg:[base + disp]]. *)
Definition decoded (iclass iform : Z) (ops : list xed_operand_t)
    (reg0 seg base disp : Z) : xed_decoded_inst_t := {|
  xed_decoded_inst_get_iclass := iclass;
  xed_decoded_inst_get_iform_enum := iform;
  xed_decoded_inst_operands := ops;
  xed_decoded_inst_get_operand_width := 64;
  xed_decoded_inst_get_machine_mode_bits := 64;
  xed_operand_values_get_effective_address_width := 64;
  xed_decoded_inst_get_immediate_width_bits := 0;
  xed_operand_values_get_immediate_is_signed := false;
  xed_decoded_inst_get_signed_immediate := 0;
  xed_decoded_inst_get_unsigned_immediate := 0;
  xed_decoded_inst_get_second_immediate := 0;
  xed_decoded_inst_get_branch_displacement := disp;
  xed_decoded_inst_get_seg_reg := fun _ => seg;
  xed_decoded_inst_get_base_reg := fun _ => base;
  xed_decoded_inst_get_index_reg := fun _ => 0;
  xed_decoded_inst_get_memory_displacement := fun _ => disp;
  xed_decoded_inst_get_scale := fun _ => 1;
  xed_decoded_inst_get_reg := fun _ => reg0
|}.

Definition at_0x1000 (sz : Z) (x : xed_decoded_inst_t) : Instr :=
  {| instr := {| address := 4096; size := sz |}; xedd := x |}.

(** [hlt]. *)
Definition hlt : Instr := at_0x1000 1 (decoded 5 0 [] 0 0 0 0).

(** [jmp .-5], two bytes long. *)
Definition jmp_rel : Instr :=
  at_0x1000 2
    (decoded 36 0 [operand XED_OPERAND_RELBR XED_OPVIS_EXPLICIT true false;
                   operand XED_OPERAND_REG0 XED_OPVIS_SUPPRESSED false true]
       20 0 0 (-5)).

(** [ret]. *)
Definition ret_near : Instr :=
  at_0x1000 1
    (decoded 81 2 [operand XED_OPERAND_REG0 XED_OPVIS_SUPPRESSED true true;
                   operand XED_OPERAND_MEM0 XED_OPVIS_SUPPRESSED true false]
       10 0 10 0).

(** [jz .+16]. *)
Definition jz_rel : Instr :=
  at_0x1000 2
    (decoded 50 3 [operand XED_OPERAND_RELBR XED_OPVIS_EXPLICIT true false;
                   operand XED_OPERAND_REG0 XED_OPVIS_SUPPRESSED false true]
       20 0 0 16).

(** [add gs:[rbx + 8], rax]. *)
Definition add_mem_reg : Instr :=
  at_0x1000 4
    (decoded ICLASS_ADD 1
       [operand XED_OPERAND_MEM0 XED_OPVIS_EXPLICIT true true;
        operand XED_OPERAND_REG0 XED_OPVIS_EXPLICIT true false;
        operand XED_OPERAND_REG1 XED_OPVIS_SUPPRESSED false true]
       1 31 2 8).

(** [pop [rsp + 8]]. *)
Definition pop_mem : Instr :=
  at_0x1000 4
    (decoded 70 0
       [operand XED_OPERAND_MEM0 XED_OPVIS_EXPLICIT false true;
        operand XED_OPERAND_REG0 XED_OPVIS_SUPPRESSED true true;
        operand XED_OPERAND_MEM1 XED_OPVIS_SUPPRESSED true false]
       10 0 10 8).

(** A non-control-flow instruction with a far-pointer operand. *)
Definition far_pointer : Instr :=
  at_0x1000 7
    (decoded ICLASS_ADD 0
       [operand XED_OPERAND_PTR XED_OPVIS_EXPLICIT true false] 0 0 0 0).

(** An instruction with two immediates in a 16-bit operand, the first
    [-1], the second [5], and the given immediate-signedness flag. *)
Definition two_immediates (flag : bool) : Instr :=
  at_0x1000 4 {|
    xed_decoded_inst_get_iclass := ICLASS_ADD;
    xed_decoded_inst_get_iform_enum := 0;
    xed_decoded_inst_operands :=
      [operand XED_OPERAND_IMM0 XED_OPVIS_EXPLICIT true false;
       operand XED_OPERAND_IMM1 XED_OPVIS_EXPLICIT true false];
    xed_decoded_inst_get_operand_width := 16;
    xed_decoded_inst_get_machine_mode_bits := 64;
    xed_operand_values_get_effective_address_width := 64;
    xed_decoded_inst_get_immediate_width_bits := 16;
    xed_operand_values_get_immediate_is_signed := flag;
    xed_decoded_inst_get_signed_immediate := -1;
    xed_decoded_inst_get_unsigned_immediate := 65535;
    xed_decoded_inst_get_second_immediate := 5;
    xed_decoded_inst_get_branch_displacement := 0;
    xed_decoded_inst_get_seg_reg := fun _ => 0;
    xed_decoded_inst_get_base_reg := fun _ => 0;
    xed_decoded_inst_get_index_reg := fun _ => 0;
    xed_decoded_inst_get_memory_displacement := fun _ => 0;
    xed_decoded_inst_get_scale := fun _ => 0;
    xed_decoded_inst_get_reg := fun _ => 0
  |}.

(** A decoded instruction whose effective address width is 8. *)
Definition address_width_8 : xed_decoded_inst_t := {|
  xed_decoded_inst_get_iclass := ICLASS_ADD;
  xed_decoded_inst_get_iform_enum := 0;
  xed_decoded_inst_operands := [];
  xed_decoded_inst_get_operand_width := 8;
  xed_decoded_inst_get_machine_mode_bits := 64;
  xed_operand_values_get_effective_address_width := 8;
  xed_decoded_inst_get_immediate_width_bits := 0;
  xed_operand_values_get_immediate_is_signed := false;
  xed_decoded_inst_get_signed_immediate := 0;
  xed_decoded_inst_get_unsigned_immediate := 0;
  xed_decoded_inst_get_second_immediate := 0;
  xed_decoded_inst_get_branch_displacement := 0;
  xed_decoded_inst_get_seg_reg := fun _ => 0;
  xed_decoded_inst_get_base_reg := fun _ => 0;
  xed_decoded_inst_get_index_reg := fun _ => 0;
  xed_decoded_inst_get_memory_displacement := fun _ => 0;
  xed_decoded_inst_get_scale := fun _ => 0;
  xed_decoded_inst_get_reg := fun _ => 0
|}.

(** [mov rax, [0x2000]]: a memory operand that is its displacement. *)
Definition mov_absolute : Instr :=
  at_0x1000 8
    (decoded ICLASS_ADD 0
       [operand XED_OPERAND_REG0 XED_OPVIS_EXPLICIT false true;
        operand XED_OPERAND_MEM0 XED_OPVIS_EXPLICIT true false]
       1 0 0 8192).

(** [mov rax, [rip + 16]], seven bytes long. *)
Definition mov_rip_relative : Instr :=
  at_0x1000 7
    (decoded ICLASS_ADD 0
       [operand XED_OPERAND_REG0 XED_OPVIS_EXPLICIT false true;
        operand XED_OPERAND_MEM0 XED_OPVIS_EXPLICIT true false]
       1 0 20 16).

(** [sysret]. *)
Definition sysret : Instr := at_0x1000 2 (decoded 94 0 [] 0 0 0 0).

(** [movaps xmm0, xmm0]: a vector register read and written. *)
Definition movaps_xmm0 : Instr :=
  at_0x1000 3
    (decoded ICLASS_ADD 0
       [operand XED_OPERAND_REG0 XED_OPVIS_EXPLICIT true true] 50 0 0 0).

(** An instruction with the signed 8-bit immediate [-1] in a 32-bit
    operand. *)
Definition signed_immediate : Instr :=
  at_0x1000 3 {|
    xed_decoded_inst_get_iclass := ICLASS_ADD;
    xed_decoded_inst_get_iform_enum := 0;
    xed_decoded_inst_operands :=
      [operand XED_OPERAND_REG0 XED_OPVIS_EXPLICIT true true;
       operand XED_OPERAND_IMM0SIGNED XED_OPVIS_EXPLICIT true false];
    xed_decoded_inst_get_operand_width := 32;
    xed_decoded_inst_get_machine_mode_bits := 64;
    xed_operand_values_get_effective_address_width := 64;
    xed_decoded_inst_get_immediate_width_bits := 8;
    xed_operand_values_get_immediate_is_signed := true;
    xed_decoded_inst_get_signed_immediate := -1;
    xed_decoded_inst_get_unsigned_immediate := 255;
    xed_decoded_inst_get_second_immediate := 0;
    xed_decoded_inst_get_branch_displacement := 0;
    xed_decoded_inst_get_seg_reg := fun _ => 0;
    xed_decoded_inst_get_base_reg := fun _ => 0;
    xed_decoded_inst_get_index_reg := fun _ => 0;
    xed_decoded_inst_get_memory_displacement := fun _ => 0;
    xed_decoded_inst_get_scale := fun _ => 0;
    xed_decoded_inst_get_reg := fun _ => 1
  |}.

(** An instruction whose 32-bit immediate does not fit its 16-bit
    operand. *)
Definition wide_immediate : Instr :=
  at_0x1000 6 {|
    xed_decoded_inst_get_iclass := ICLASS_ADD;
    xed_decoded_inst_get_iform_enum := 0;
    xed_decoded_inst_operands :=
      [operand XED_OPERAND_REG0 XED_OPVIS_EXPLICIT true true;
       operand XED_OPERAND_IMM0 XED_OPVIS_EXPLICIT true false];
    xed_decoded_inst_get_operand_width := 16;
    xed_decoded_inst_get_machine_mode_bits := 64;
    xed_operand_values_get_effective_address_width := 64;
    xed_decoded_inst_get_immediate_width_bits := 32;
    xed_operand_values_get_immediate_is_signed := false;
    xed_decoded_inst_get_signed_immediate := 0;
    xed_decoded_inst_get_unsigned_immediate := 65536;
    xed_decoded_inst_get_second_immediate := 0;
    xed_decoded_inst_get_branch_displacement := 0;
    xed_decoded_inst_get_seg_reg := fun _ => 0;
    xed_decoded_inst_get_base_reg := fun _ => 0;
    xed_decoded_inst_get_index_reg := fun _ => 0;
    xed_decoded_inst_get_memory_displacement := fun _ => 0;
    xed_decoded_inst_get_scale := fun _ => 0;
    xed_decoded_inst_get_reg := fun _ => 1
  |}.

End Sample.

End X86.

(* ===================================================================== *)
(** * Properties of the mask index search *)
(* ===================================================================== *)

Module MaskFacts.

Import Mask.

Section Search.

Context {T : Type} (eqb : T -> T -> bool).

Lemma matches_nonneg (l : list T) (val : T) : 0 <= matches eqb l val.
Proof. unfold matches. lia. Qed.

Lemma matches_cons (x : T) (l : list T) (val : T) :
  matches eqb (x :: l) val =
  (if eqb x val then 1 else 0) + matches eqb l val.
Proof.
  unfold matches. cbn [filter]. destruct (eqb x val); cbn [List.length]; lia.
Qed.

(** The loop, started at index [i] with fewer than [n] matches counted,
    stops at [j] exactly when [j] is [k] places further, the element
    there matches, and the elements skipped bring the count to [n]. *)
Lemma Nth_loop_spec (val : T) (n : Z) (rest : list T) :
  forall i counter j,
    counter < n ->
    (Nth_loop eqb rest val n i counter = Some j <->
     exists k : nat,
       j = i + Z.of_nat k /\
       (exists x, nth_error rest k = Some x /\ eqb x val = true) /\
       matches eqb (firstn k rest) val = n - counter - 1).
Proof.
  induction rest as [|x rest IH]; intros i counter j Hlt; simpl.
  - split; [discriminate|].
    intros [k [_ [[y [Hy _]] _]]]. destruct k; discriminate.
  - destruct (eqb x val) eqn:Ex.
    + destruct (counter + 1 =? n) eqn:En.
      * apply Z.eqb_eq in En. split.
        -- intros H; inversion H; subst j. exists 0%nat.
           split; [lia|]. split; [exists x; auto|]. simpl.
           unfold matches; simpl; lia.
        -- intros [k [Hj [_ Hm]]]. destruct k as [|k].
           ++ f_equal. lia.
           ++ simpl firstn in Hm. rewrite matches_cons, Ex in Hm.
              pose proof (matches_nonneg (firstn k rest) val). lia.
      * apply Z.eqb_neq in En. rewrite IH by lia. split.
        -- intros [k [Hj [Hx Hm]]]. exists (S k).
           split; [lia|]. split; [exact Hx|].
           simpl firstn. rewrite matches_cons, Ex. lia.
        -- intros [k [Hj [Hx Hm]]]. destruct k as [|k].
           ++ simpl in Hm. unfold matches in Hm; simpl in Hm. lia.
           ++ exists k. split; [lia|]. split; [exact Hx|].
              simpl firstn in Hm. rewrite matches_cons, Ex in Hm. lia.
    + rewrite IH by lia. split.
      * intros [k [Hj [Hx Hm]]]. exists (S k).
        split; [lia|]. split; [exact Hx|].
        simpl firstn. rewrite matches_cons, Ex. lia.
      * intros [k [Hj [Hx Hm]]]. destruct k as [|k].
        -- destruct Hx as [y [Hy Hyv]]. simpl in Hy.
           inversion Hy; subst y. congruence.
        -- exists k. split; [lia|]. split; [exact Hx|].
           simpl firstn in Hm. rewrite matches_cons, Ex in Hm. lia.
Qed.

Lemma Nth_loop_nth_match (mask : list T) (val : T) (n i : Z) :
  0 <= n ->
  (Nth_loop eqb mask val n 0 (-1) = Some i <-> nth_match eqb mask val n i).
Proof.
  intros Hn. rewrite Nth_loop_spec by lia. unfold nth_match. split.
  - intros [k [Hi [Hx Hm]]]. subst i. simpl.
    rewrite Nat2Z.id. split; [lia|]. split; [exact Hx|]. lia.
  - intros [Hi [Hx Hm]]. exists (Z.to_nat i).
    split; [lia|]. split; [exact Hx|]. lia.
Qed.

End Search.

(** C10.  [GMask::Nth(n, val)] and the four-argument [NthIndex] compute
    the same search: [Nth] returns the index [i] exactly when [NthIndex]
    returns [true] with [offset] set to [i], and that is exactly when
    [i] is the zero-based [n]-th index whose element equals [val]; [Nth]
    returns nothing exactly when [NthIndex] returns [false] with
    [offset] as it was; for a negative [n] that is what both do. *)
Theorem Nth_refines_NthIndex (mask : list bool) (val : bool) (n offset : Z) :
  (forall i, Nth mask n val = Some i <->
             NthIndex Bool.eqb mask val n offset = (true, i)) /\
  (forall i, Nth mask n val = Some i <-> nth_match Bool.eqb mask val n i) /\
  (Nth mask n val = None <->
   NthIndex Bool.eqb mask val n offset = (false, offset)) /\
  (n < 0 ->
   Nth mask n val = None /\
   NthIndex Bool.eqb mask val n offset = (false, offset)).
Proof.
  unfold Nth, NthIndex.
  destruct (n <? 0) eqn:Hn.
  - apply Z.ltb_lt in Hn.
    split; [|split; [|split]].
    + intros i; split; discriminate.
    + intros i; split; [discriminate|].
      intros [Hi [_ Hm]].
      pose proof (matches_nonneg Bool.eqb (firstn (Z.to_nat i) mask) val).
      lia.
    + split; reflexivity.
    + intros _; split; reflexivity.
  - apply Z.ltb_ge in Hn.
    split; [|split; [|split]].
    + intros i; split.
      * intros H; rewrite H; reflexivity.
      * destruct (Nth_loop Bool.eqb mask val n 0 (-1)); intros H;
          inversion H; reflexivity.
    + intros i. apply Nth_loop_nth_match; exact Hn.
    + split.
      * intros H; rewrite H; reflexivity.
      * destruct (Nth_loop Bool.eqb mask val n 0 (-1)); intros H;
          [discriminate|reflexivity].
    + lia.
Qed.

(** On the mask [1 0 1 1] the index of the third set bit is 3, and a
    search for a negative rank leaves the offset 77 alone. *)
Lemma Nth_refines_NthIndex_witness :
  Nth [true; false; true; true] 2 true = Some 3 /\
  NthIndex Bool.eqb [true; false; true; true] true 2 77 = (true, 3) /\
  NthIndex Bool.eqb [true; false; true; true] true (-1) 77 = (false, 77).
Proof.
  destruct (Nth_refines_NthIndex [true; false; true; true] true 2 77)
    as [H1 _].
  destruct (Nth_refines_NthIndex [true; false; true; true] true (-1) 77)
    as [_ [_ [_ H4]]].
  split; [reflexivity|].
  split; [apply H1; reflexivity|].
  apply H4. lia.
Defined.

(** ** More on the searches *)

Section MoreSearch.

Context {T : Type} (eqb : T -> T -> bool).

Lemma matches_app (l1 l2 : list T) (val : T) :
  matches eqb (l1 ++ l2) val = matches eqb l1 val + matches eqb l2 val.
Proof.
  unfold matches. rewrite filter_app, length_app. lia.
Qed.

Lemma matches_le_length (l : list T) (val : T) :
  matches eqb l val <= Z.of_nat (List.length l).
Proof.
  induction l as [|x l IH]; [unfold matches; simpl; lia|].
  rewrite matches_cons. cbn [List.length].
  destruct (eqb x val); lia.
Qed.

Lemma NextIndex_loop_spec (val : T) (rest : list T) :
  forall i,
    match NextIndex_loop eqb rest val i with
    | Some j =>
        exists k : nat,
          j = i + Z.of_nat k /\
          (exists x, nth_error rest k = Some x /\ eqb x val = true) /\
          (forall k' x, (k' < k)%nat -> nth_error rest k' = Some x ->
                        eqb x val = false)
    | None => forall k x, nth_error rest k = Some x -> eqb x val = false
    end.
Proof.
  induction rest as [|y rest IH]; intros i; simpl.
  - intros k x H. destruct k; discriminate.
  - destruct (eqb y val) eqn:Ey.
    + exists 0%nat. split; [lia|]. split; [exists y; auto|].
      intros k' x Hk. lia.
    + specialize (IH (i + 1)).
      destruct (NextIndex_loop eqb rest val (i + 1)) as [j|].
      * destruct IH as [k [Hj [Hx Hbefore]]]. exists (S k).
        split; [lia|]. split; [exact Hx|].
        intros k' x Hk Hn. destruct k' as [|k'].
        -- simpl in Hn. inversion Hn; subst x. exact Ey.
        -- apply (Hbefore k' x); [lia|exact Hn].
      * intros k x Hn. destruct k as [|k].
        -- simpl in Hn. inversion Hn; subst x. exact Ey.
        -- apply (IH k x Hn).
Qed.

(** X1.  [NextIndex] finds the least index from [offset] on whose
    element equals [val]; when it fails, no element from [offset] on
    equals [val] and [offset] is as it was. *)
Theorem NextIndex_least (mask : list T) (val : T) (offset : Z) :
  0 <= offset ->
  match NextIndex eqb mask val offset with
  | (true, i) =>
      offset <= i < Z.of_nat (List.length mask) /\
      (exists x, nth_error mask (Z.to_nat i) = Some x /\ eqb x val = true) /\
      (forall j x, offset <= j < i ->
                   nth_error mask (Z.to_nat j) = Some x -> eqb x val = false)
  | (false, o) =>
      o = offset /\
      (forall j x, offset <= j ->
                   nth_error mask (Z.to_nat j) = Some x -> eqb x val = false)
  end.
Proof.
  intros Ho. unfold NextIndex.
  pose proof (NextIndex_loop_spec val (skipn (Z.to_nat offset) mask) offset)
    as H.
  destruct (NextIndex_loop eqb (skipn (Z.to_nat offset) mask) val offset)
    as [i|].
  - destruct H as [k [Hi [[x [Hx Hv]] Hbefore]]].
    rewrite nth_error_skipn in Hx.
    assert (Hidx : Z.to_nat i = (Z.to_nat offset + k)%nat) by lia.
    split; [|split].
    + split; [lia|].
      assert (Hlt : (Z.to_nat offset + k < List.length mask)%nat).
      { apply nth_error_Some. rewrite Hx. discriminate. }
      lia.
    + exists x. rewrite Hidx. auto.
    + intros j y Hj Hy.
      apply (Hbefore (Z.to_nat j - Z.to_nat offset)%nat y); [lia|].
      rewrite nth_error_skipn.
      replace (Z.to_nat offset + (Z.to_nat j - Z.to_nat offset))%nat
        with (Z.to_nat j) by lia.
      exact Hy.
  - split; [reflexivity|]. intros j y Hj Hy.
    apply (H (Z.to_nat j - Z.to_nat offset)%nat y).
    rewrite nth_error_skipn.
    replace (Z.to_nat offset + (Z.to_nat j - Z.to_nat offset))%nat
      with (Z.to_nat j) by lia.
    exact Hy.
Qed.

Lemma Nth_loop_found_iff (val : T) (n : Z) (rest : list T) :
  forall i counter,
    counter < n ->
    ((exists j, Nth_loop eqb rest val n i counter = Some j) <->
     n - counter <= matches eqb rest val).
Proof.
  induction rest as [|x rest IH]; intros i counter Hlt; simpl.
  - unfold matches; simpl. split; [intros [j H]; discriminate|lia].
  - rewrite matches_cons. destruct (eqb x val).
    + destruct (counter + 1 =? n) eqn:En.
      * apply Z.eqb_eq in En.
        pose proof (matches_nonneg eqb rest val).
        split; [lia|]. intros _. exists i. reflexivity.
      * apply Z.eqb_neq in En. rewrite IH by lia. lia.
    + rewrite IH by lia. lia.
Qed.

Lemma nth_match_bounds (mask : list T) (val : T) (n i : Z) :
  nth_match eqb mask val n i -> n <= i < Z.of_nat (List.length mask).
Proof.
  intros [Hi [[x [Hx _]] Hm]].
  assert (Hlt : (Z.to_nat i < List.length mask)%nat).
  { apply nth_error_Some. rewrite Hx. discriminate. }
  pose proof (matches_le_length (firstn (Z.to_nat i) mask) val) as Hle.
  rewrite length_firstn in Hle. lia.
Qed.

(** The index the loop stops at is not before the one it starts at. *)
Lemma Nth_loop_ge (val : T) (n : Z) (rest : list T) :
  forall i counter j,
    Nth_loop eqb rest val n i counter = Some j -> i <= j.
Proof.
  induction rest as [|x rest IH]; intros i counter j H; simpl in H.
  - discriminate.
  - destruct (eqb x val).
    + destruct (counter + 1 =? n).
      * inversion H. lia.
      * apply IH in H. lia.
    + apply IH in H. lia.
Qed.

(** One match short of [n], the loop is the search for the next match. *)
Lemma Nth_loop_next (val : T) (n : Z) (rest : list T) :
  forall i counter,
    counter + 1 = n ->
    Nth_loop eqb rest val n i counter = NextIndex_loop eqb rest val i.
Proof.
  induction rest as [|x rest IH]; intros i counter Hc; simpl.
  - reflexivity.
  - destruct (eqb x val).
    + replace (counter + 1 =? n) with true by (symmetry; apply Z.eqb_eq; lia).
      reflexivity.
    + apply IH. exact Hc.
Qed.

Lemma Nth_loop_successor (val : T) (n : Z) (rest : list T) :
  forall i counter j,
    counter < n ->
    Nth_loop eqb rest val n i counter = Some j ->
    Nth_loop eqb rest val (n + 1) i counter =
    NextIndex_loop eqb (skipn (S (Z.to_nat (j - i))) rest) val (j + 1).
Proof.
  induction rest as [|x rest IH]; intros i counter j Hlt H; simpl in H.
  - discriminate.
  - cbn [Nth_loop]. destruct (eqb x val).
    + destruct (counter + 1 =? n) eqn:En.
      * apply Z.eqb_eq in En. inversion H; subst j.
        replace (counter + 1 =? n + 1) with false
          by (symmetry; apply Z.eqb_neq; lia).
        replace (i - i) with 0 by lia. cbn [Z.to_nat skipn].
        apply Nth_loop_next. lia.
      * apply Z.eqb_neq in En.
        replace (counter + 1 =? n + 1) with false
          by (symmetry; apply Z.eqb_neq; lia).
        pose proof (Nth_loop_ge _ _ _ _ _ _ H) as Hge.
        rewrite (IH (i + 1) (counter + 1) j) by (lia || exact H).
        replace (Z.to_nat (j - i)) with (S (Z.to_nat (j - (i + 1)))) by lia.
        reflexivity.
    + pose proof (Nth_loop_ge _ _ _ _ _ _ H) as Hge.
      rewrite (IH (i + 1) counter j) by (lia || exact H).
      replace (Z.to_nat (j - i)) with (S (Z.to_nat (j - (i + 1)))) by lia.
      reflexivity.
Qed.

(** X4.  The three-argument [NthIndex] returns the index when there is
    an [n]-th match and 0 when there is none, so that 0 is its answer
    in two cases that it does not tell apart: the first element is the
    match of rank 0, or the mask has no match of rank [n]. *)
Theorem NthIndex3_zero (mask : list T) (val : T) (n : Z) :
  (forall i, NthIndex eqb mask val n 0 = (true, i) ->
             NthIndex3 eqb mask val n = i) /\
  (NthIndex3 eqb mask val n = 0 <->
   (n = 0 /\ exists x, nth_error mask 0 = Some x /\ eqb x val = true) \/
   ~ (0 <= n < matches eqb mask val)).
Proof.
  unfold NthIndex3, NthIndex. split.
  - intros i H. rewrite H. reflexivity.
  - destruct (n <? 0) eqn:Hn.
    + apply Z.ltb_lt in Hn. simpl. split; [intros _; right; lia|reflexivity].
    + apply Z.ltb_ge in Hn.
      pose proof (Nth_loop_found_iff val n mask 0 (-1)) as Hf.
      pose proof (Nth_loop_nth_match eqb mask val n) as Hm.
      destruct (Nth_loop eqb mask val n 0 (-1)) as [i|] eqn:E; simpl.
      * assert (Hin : n - -1 <= matches eqb mask val).
        { apply Hf; [lia|]. exists i. reflexivity. }
        assert (Hnm : nth_match eqb mask val n i)
          by (apply (Hm i Hn); reflexivity).
        split.
        -- intros ->. left. destruct Hnm as [_ [Hx Hcount]].
           simpl in Hcount. unfold matches in Hcount. simpl in Hcount.
           split; [lia|exact Hx].
        -- intros [[Hn0 [x [Hx Hv]]]|Hno]; [|lia].
           subst n.
           assert (H0 : nth_match eqb mask val 0 0).
           { split; [lia|]. split; [exists x; auto|]. reflexivity. }
           apply (Hm 0 Hn) in H0. congruence.
      * split; [|reflexivity]. intros _. right. intros [_ Hlt].
        assert (Hex : exists j, @None Z = Some j).
        { apply Hf; lia. }
        destruct Hex as [j Hj]. discriminate.
Qed.

End MoreSearch.

(** X2.  [GMask::Nth(n, val)] finds an index exactly when [n] is a rank
    below the number of elements equal to [val], and the index it finds
    is at least [n] and inside the mask. *)
Theorem Nth_defined (this : list bool) (n : Z) (val : bool) :
  ((exists i, Nth this n val = Some i) <->
   0 <= n < matches Bool.eqb this val) /\
  (forall i, Nth this n val = Some i ->
             n <= i < Z.of_nat (List.length this)).
Proof.
  unfold Nth. destruct (n <? 0) eqn:Hn.
  - apply Z.ltb_lt in Hn. split.
    + split; [intros [i H]; discriminate|lia].
    + intros i H. discriminate.
  - apply Z.ltb_ge in Hn. split.
    + rewrite Nth_loop_found_iff by lia. lia.
    + intros i H. apply Nth_loop_nth_match in H; [|exact Hn].
      apply (nth_match_bounds _ _ _ _ _ H).
Qed.

(** X3.  The searches compose: the match of rank 0 is the first match
    from index 0, and the match of rank [n + 1] is the first match
    after the match of rank [n]. *)
Theorem Nth_successor (this : list bool) (n : Z) (val : bool) :
  (Nth this 0 val =
   (let (found, j) := NextIndex Bool.eqb this val 0 in
    if found then Some j else None)) /\
  (forall i,
      Nth this n val = Some i ->
      Nth this (n + 1) val =
      (let (found, j) := NextIndex Bool.eqb this val (i + 1) in
       if found then Some j else None)).
Proof.
  split.
  - unfold Nth, NextIndex. simpl Z.ltb. cbv iota. cbn [Z.to_nat skipn].
    rewrite (Nth_loop_next Bool.eqb val 0 this 0 (-1)) by lia.
    destruct (NextIndex_loop Bool.eqb this val 0); reflexivity.
  - unfold Nth, NextIndex. intros i H.
    destruct (n <? 0) eqn:Hn; [discriminate|].
    apply Z.ltb_ge in Hn.
    replace (n + 1 <? 0) with false by (symmetry; apply Z.ltb_ge; lia).
    pose proof (Nth_loop_ge _ _ _ _ _ _ _ H) as Hge.
    rewrite (Nth_loop_successor Bool.eqb val n this 0 (-1) i) by (lia || exact H).
    replace (S (Z.to_nat (i - 0))) with (Z.to_nat (i + 1)) by lia.
    destruct (NextIndex_loop Bool.eqb (skipn (Z.to_nat (i + 1)) this) val
                (i + 1)); reflexivity.
Qed.

(** ** Fresh and reset masks *)

Lemma Nth_loop_all (val : bool) (n : Z) (rest : list bool) :
  Forall (fun x => Bool.eqb x val = true) rest ->
  forall i counter,
    counter < n ->
    Nth_loop Bool.eqb rest val n i counter =
    if n - counter - 1 <? Z.of_nat (List.length rest)
    then Some (i + (n - counter - 1)) else None.
Proof.
  induction 1 as [|x rest Hx _ IH]; intros i counter Hlt; simpl Nth_loop.
  - replace (n - counter - 1 <? Z.of_nat (List.length (@nil bool)))
      with false by (symmetry; apply Z.ltb_ge; simpl; lia).
    reflexivity.
  - rewrite Hx. cbn [List.length]. destruct (counter + 1 =? n) eqn:En.
    + apply Z.eqb_eq in En.
      replace (n - counter - 1 <? Z.of_nat (S (List.length rest)))
        with true by (symmetry; apply Z.ltb_lt; lia).
      f_equal. lia.
    + apply Z.eqb_neq in En. rewrite IH by lia.
      replace (n - (counter + 1) - 1 <? Z.of_nat (List.length rest))
        with (n - counter - 1 <? Z.of_nat (S (List.length rest))).
      * destruct (_ <? _); [f_equal; lia|reflexivity].
      * destruct (n - counter - 1 <? Z.of_nat (S (List.length rest))) eqn:E.
        -- symmetry. apply Z.ltb_lt. apply Z.ltb_lt in E. lia.
        -- symmetry. apply Z.ltb_ge. apply Z.ltb_ge in E. lia.
Qed.

Lemma Nth_loop_none (val : bool) (n : Z) (rest : list bool) :
  Forall (fun x => Bool.eqb x val = false) rest ->
  forall i counter, Nth_loop Bool.eqb rest val n i counter = None.
Proof.
  induction 1 as [|x rest Hx _ IH]; intros i counter; simpl.
  - reflexivity.
  - rewrite Hx. apply IH.
Qed.

(** X5.  In a mask made with [GMask(used)] every bit is set, so the set
    bit of rank [n] is at index [n]; [reset] keeps the size and clears
    every bit, so that no set bit is found any more and the clear bit
    of rank [n] is at index [n]. *)
Theorem GMask_fresh_and_reset (used : nat) (this : list bool) (n : Z) :
  Nth (GMask_ctor used) n true =
    (if (0 <=? n) && (n <? Z.of_nat used) then Some n else None) /\
  List.length (reset this) = List.length this /\
  Nth (reset this) n true = None /\
  Nth (reset this) n false =
    (if (0 <=? n) && (n <? Z.of_nat (List.length this)) then Some n
     else None).
Proof.
  assert (Hall : forall k, Forall (fun x => Bool.eqb x true = true)
                             (repeat true k)).
  { intros k. induction k; simpl; constructor; auto. }
  assert (Hres : forall v, Forall (fun x => Bool.eqb x v = negb v)
                             (reset this)).
  { intros v. unfold reset.
    induction this; simpl; constructor; auto; destruct v; reflexivity. }
  split; [|split; [|split]].
  - unfold Nth, GMask_ctor. destruct (n <? 0) eqn:Hn.
    + apply Z.ltb_lt in Hn.
      replace (0 <=? n) with false by (symmetry; apply Z.leb_gt; lia).
      reflexivity.
    + apply Z.ltb_ge in Hn.
      replace (0 <=? n) with true by (symmetry; apply Z.leb_le; lia).
      rewrite (Nth_loop_all true n _ (Hall used)) by lia.
      rewrite repeat_length. simpl andb.
      replace (n - -1 - 1) with n by lia. reflexivity.
  - unfold reset. apply length_map.
  - unfold Nth. destruct (n <? 0); [reflexivity|].
    apply Nth_loop_none. exact (Hres true).
  - unfold Nth. destruct (n <? 0) eqn:Hn.
    + apply Z.ltb_lt in Hn.
      replace (0 <=? n) with false by (symmetry; apply Z.leb_gt; lia).
      reflexivity.
    + apply Z.ltb_ge in Hn.
      replace (0 <=? n) with true by (symmetry; apply Z.leb_le; lia).
      rewrite (Nth_loop_all false n _ (Hres false)) by lia.
      unfold reset. rewrite length_map. simpl andb.
      replace (n - -1 - 1) with n by lia. reflexivity.
Qed.

(** ** Combining masks *)

Lemma transform2_spec {A B C : Type} (op : A -> B -> C) (l : list A) :
  forall (r : list B),
    match transform2 op l r with
    | Some out =>
        (List.length l <= List.length r)%nat /\
        out = map (fun p => op (fst p) (snd p)) (combine l r)
    | None => (List.length r < List.length l)%nat
    end.
Proof.
  induction l as [|x l IH]; intros r; simpl.
  - split; [lia|reflexivity].
  - destruct r as [|y r]; [simpl; lia|].
    specialize (IH r). destruct (transform2 op l r) as [out|].
    + destruct IH as [Hlen ->]. simpl. split; [lia|reflexivity].
    + simpl. lia.
Qed.

Lemma nth_error_zip {A B C : Type} (op : A -> B -> C) (l : list A) :
  forall (r : list B) i a b,
    nth_error l i = Some a -> nth_error r i = Some b ->
    nth_error (map (fun p => op (fst p) (snd p)) (combine l r)) i
    = Some (op a b).
Proof.
  induction l as [|x l IH]; intros r i a b Ha Hb.
  - destruct i; discriminate.
  - destruct r as [|y r]; [destruct i; discriminate|].
    destruct i as [|i]; simpl in *.
    + inversion Ha; inversion Hb; reflexivity.
    + apply IH; assumption.
Qed.

Lemma combine_firstn_length {A B : Type} (l : list A) :
  forall r : list B, combine l (firstn (List.length l) r) = combine l r.
Proof.
  induction l as [|x l IH]; intros r; [reflexivity|].
  destruct r as [|y r]; [reflexivity|]. simpl. rewrite IH. reflexivity.
Qed.

(** X6.  [operator&&] and [operator||] on masks are defined exactly when
    the right mask is at least as long as the left one; the result has
    the length of the left mask and holds the conjunction, or the
    disjunction, of the bits at each index; what the right mask has
    beyond that length is ignored. *)
Theorem Mask_and_or_pointwise (lhs rhs : list bool) :
  ((List.length lhs <= List.length rhs)%nat ->
   exists conj disj,
     Mask_and lhs rhs = Some conj /\ Mask_or lhs rhs = Some disj /\
     List.length conj = List.length lhs /\
     List.length disj = List.length lhs /\
     (forall i a b,
         nth_error lhs i = Some a -> nth_error rhs i = Some b ->
         nth_error conj i = Some (a && b) /\
         nth_error disj i = Some (a || b)) /\
     Mask_and lhs (firstn (List.length lhs) rhs) = Some conj) /\
  ((List.length rhs < List.length lhs)%nat ->
   Mask_and lhs rhs = None /\ Mask_or lhs rhs = None).
Proof.
  unfold Mask_and, Mask_or, ZipMasks. split.
  - intros Hlen.
    pose proof (transform2_spec (fun l r => l && r) lhs rhs) as Ha.
    pose proof (transform2_spec (fun l r => l || r) lhs rhs) as Ho.
    pose proof (transform2_spec (fun l r => l && r) lhs
                  (firstn (List.length lhs) rhs)) as Hf.
    destruct (transform2 (fun l r => l && r) lhs rhs) as [conj|]; [|lia].
    destruct (transform2 (fun l r => l || r) lhs rhs) as [disj|]; [|lia].
    destruct Ha as [_ ->]. destruct Ho as [_ ->].
    eexists; eexists. split; [reflexivity|]. split; [reflexivity|].
    rewrite !length_map, !length_combine.
    split; [lia|]. split; [lia|]. split.
    + intros i a b Hi Hj. split; apply nth_error_zip; assumption.
    + destruct (transform2 (fun l r => l && r) lhs
                  (firstn (List.length lhs) rhs)) as [out|].
      * destruct Hf as [_ ->]. f_equal.
        rewrite combine_firstn_length. reflexivity.
      * rewrite length_firstn in Hf. lia.
  - intros Hlen.
    pose proof (transform2_spec (fun l r => l && r) lhs rhs) as Ha.
    pose proof (transform2_spec (fun l r => l || r) lhs rhs) as Ho.
    destruct (transform2 (fun l r => l && r) lhs rhs); [lia|].
    destruct (transform2 (fun l r => l || r) lhs rhs); [lia|].
    split; reflexivity.
Qed.

(** ** The loops over an index *)

Lemma nth_error_middle {A : Type} (done : list A) (x : A) (todo : list A) :
  nth_error (done ++ x :: todo) (List.length done) = Some x.
Proof.
  rewrite nth_error_app2 by lia. rewrite Nat.sub_diag. reflexivity.
Qed.

Lemma assign_middle {A : Type} (done : list A) (x y : A) (todo : list A) :
  assign (List.length done) y (done ++ x :: todo) = (done ++ y :: todo)%list.
Proof.
  induction done as [|d done IH]; simpl; [reflexivity|].
  rewrite IH. reflexivity.
Qed.

Lemma skipn_step {A : Type} (n : nat) (l : list A) :
  skipn n l =
  match nth_error l n with
  | Some x => x :: skipn (S n) l
  | None => []
  end.
Proof.
  revert l. induction n as [|n IH]; intros l.
  - destruct l; reflexivity.
  - destruct l as [|y l]; [reflexivity|]. exact (IH l).
Qed.

Lemma skipn_past {A : Type} (n : nat) (l : list A) :
  nth_error l n = None -> skipn (S n) l = [].
Proof.
  intros H. apply nth_error_None in H. apply skipn_all2. lia.
Qed.

(** The loop of [operator&=] from index [length done] on: it goes
    through exactly when [l] has no set bit at or beyond the size of
    [r], and then it holds the conjunctions as far as [r] goes and is
    as it was beyond. *)
Lemma and_assign_loop (r : list bool) (todo : list bool) :
  forall done : list bool,
    for_range (List.length done) (List.length todo)
      (fun i l =>
         match nth_error l i with
         | Some true =>
             match nth_error r i with
             | Some b => Some (assign i (true && b) l)
             | None => None
             end
         | Some false => Some (assign i false l)
         | None => None
         end) (done ++ todo) =
    let rest := skipn (List.length done) r in
    if forallb negb (skipn (List.length rest) todo)
    then Some (done ++ map (fun p => fst p && snd p) (combine todo rest)
                    ++ skipn (List.length rest) todo)%list
    else None.
Proof.
  induction todo as [|a todo IH]; intros done; cbv zeta.
  - simpl. rewrite skipn_nil. reflexivity.
  - cbn [List.length for_range]. rewrite nth_error_middle.
    rewrite (skipn_step (List.length done) r).
    assert (Hnext : forall x : bool,
               S (List.length done) = List.length (done ++ [x])).
    { intros x. rewrite length_app. simpl. lia. }
    destruct a.
    + destruct (nth_error r (List.length done)) as [b|] eqn:E;
        [|reflexivity].
      rewrite assign_middle.
      change (done ++ (true && b) :: todo)%list
        with (done ++ [true && b] ++ todo)%list.
      rewrite app_assoc, (Hnext (true && b)), IH. cbv zeta.
      rewrite <- (Hnext (true && b)).
      cbn [List.length skipn combine map fst snd].
      destruct (forallb negb _); [|reflexivity].
      rewrite <- app_assoc. reflexivity.
    + rewrite assign_middle.
      change (done ++ false :: todo)%list with (done ++ [false] ++ todo)%list.
      rewrite app_assoc, (Hnext false), IH. cbv zeta.
      rewrite <- (Hnext false).
      destruct (nth_error r (List.length done)) as [b|] eqn:E.
      * cbn [List.length skipn combine map fst snd andb].
        destruct (forallb negb _); [|reflexivity].
        rewrite <- app_assoc. reflexivity.
      * rewrite (skipn_past _ _ E).
        cbn [List.length skipn forallb negb andb combine map app].
        rewrite combine_nil. cbn [map app].
        destruct (forallb negb todo); [|reflexivity].
        rewrite <- app_assoc. reflexivity.
Qed.

Lemma and_assign_run (l r : list bool) :
  and_assign l r =
  if forallb negb (skipn (List.length r) l)
  then Some (map (fun p => fst p && snd p) (combine l r)
               ++ skipn (List.length r) l)%list
  else None.
Proof.
  unfold and_assign. exact (and_assign_loop r l []).
Qed.

(** Where the right operand is long enough, [operator&=] is the
    [std::transform] of [operator&&]. *)
Lemma and_assign_in_range (l r : list bool) :
  (List.length l <= List.length r)%nat ->
  and_assign l r = transform2 (fun a b => a && b) l r.
Proof.
  intros Hlen. rewrite and_assign_run.
  rewrite skipn_all2 by exact Hlen. cbn [forallb]. rewrite app_nil_r.
  pose proof (transform2_spec (fun a b => a && b) l r) as H.
  destruct (transform2 (fun a b => a && b) l r) as [out|]; [|lia].
  destruct H as [_ ->]. reflexivity.
Qed.

(** X7.  Where the right operand is at least as long as the left one,
    the in-place [operator&=] on [std::vector<bool>] computes what
    [operator&&] returns.  Where it is shorter, [operator&&] reads it
    out of range, and [operator&=] does so only if the left operand has
    a set bit at or beyond the size of the right one: the conjunction
    does not read the right bit when the left bit is clear, and then
    the left operand gets the conjunctions as far as the right one goes
    and keeps its clear bits beyond. *)
Theorem and_assign_extends_Mask_and (l r : list bool) :
  Z.of_nat (List.length l) < 2 ^ 32 ->
  ((List.length l <= List.length r)%nat ->
   and_assign l r = Mask_and l r /\ exists out, Mask_and l r = Some out) /\
  ((List.length r < List.length l)%nat ->
   Mask_and l r = None /\
   (forallb negb (skipn (List.length r) l) = true ->
    exists prefix,
      Mask_and (firstn (List.length r) l) r = Some prefix /\
      and_assign l r = Some (prefix ++ skipn (List.length r) l)%list) /\
   (forallb negb (skipn (List.length r) l) = false ->
    and_assign l r = None)).
Proof.
  intros _. split.
  - intros Hlen. split.
    + rewrite and_assign_in_range by exact Hlen. reflexivity.
    + unfold Mask_and, ZipMasks.
      pose proof (transform2_spec (fun a b => a && b) l r) as H.
      destruct (transform2 (fun a b => a && b) l r) as [out|]; [|lia].
      exists out. reflexivity.
  - intros Hlen. split; [|split].
    + unfold Mask_and, ZipMasks.
      pose proof (transform2_spec (fun a b => a && b) l r) as H.
      destruct (transform2 (fun a b => a && b) l r); [lia|reflexivity].
    + intros Hclear. rewrite and_assign_run, Hclear.
      unfold Mask_and, ZipMasks.
      pose proof (transform2_spec (fun a b => a && b)
                    (firstn (List.length r) l) r) as H.
      destruct (transform2 (fun a b => a && b) (firstn (List.length r) l) r)
        as [prefix|].
      * destruct H as [_ ->]. eexists. split; [reflexivity|].
        rewrite <- combine_firstn_r. reflexivity.
      * rewrite length_firstn in H. lia.
    + intros Hset. rewrite and_assign_run, Hset. reflexivity.
Qed.

Lemma cc_op_loop {T : Type} (op : T -> bool) (todo : list T) :
  forall (done : list T),
    for_range (List.length done) (List.length todo)
      (fun i self =>
         match nth_error (done ++ todo) i with
         | Some x => if (i <? List.length self)%nat
                     then Some (assign i (op x) self) else None
         | None => None
         end) (map op done ++ repeat true (List.length todo)) =
    Some (map op (done ++ todo)).
Proof.
  induction todo as [|x todo IH]; intros done.
  - simpl. rewrite !app_nil_r. reflexivity.
  - cbn [List.length for_range repeat]. rewrite nth_error_middle.
    replace (List.length done <?
             List.length (map op done ++ true :: repeat true (List.length todo)))%nat
      with true
      by (symmetry; apply Nat.ltb_lt; rewrite length_app, length_map;
          simpl; lia).
    replace (List.length done) with (List.length (map op done)) at 2
      by apply length_map.
    rewrite assign_middle.
    specialize (IH (done ++ [x])%list).
    rewrite length_app in IH. simpl in IH.
    rewrite Nat.add_1_r in IH.
    rewrite <- app_assoc in IH. simpl in IH.
    rewrite map_app in IH. simpl in IH.
    rewrite <- app_assoc in IH. simpl in IH.
    exact IH.
Qed.

(** X8.  [Converter::cc] copies: the mask it returns has the size and
    the bits of the container it is given, and with an operation the
    image of each element, whatever the mask was filled with when it
    was made. *)
Theorem cc_copies {T : Type} (other : list bool) (others : list T)
    (op : T -> bool) :
  Z.of_nat (List.length other) < 2 ^ 32 ->
  Z.of_nat (List.length others) < 2 ^ 32 ->
  cc other = Some other /\ cc_op others op = Some (map op others).
Proof.
  intros _ _. split.
  - unfold cc, GMask_ctor.
    pose proof (cc_op_loop (fun b : bool => b) other []) as H.
    simpl in H. rewrite map_id in H. exact H.
  - unfold cc_op, GMask_ctor.
    exact (cc_op_loop op others []).
Qed.

(** ** Type masks *)

Section TypeMasks.

Context {Register : Type}.

Lemma TypeMask_loop (ret param : list bool) (todo : list Register) :
  forall (done accr accp : list Register),
    for_range (List.length done) (List.length todo)
      (fun i (acc : list Register * list Register) =>
         match nth_error (done ++ todo) i, nth_error ret i,
               nth_error param i with
         | Some r, Some in_ret, Some in_param =>
             Some (if in_ret then fst acc ++ [r] else fst acc,
                   if in_param then snd acc ++ [r] else snd acc)
         | _, _, _ => None
         end) (accr, accp) =
    if ((List.length todo <=? List.length (skipn (List.length done) ret))
        && (List.length todo <=? List.length (skipn (List.length done) param)))%nat
    then Some ((accr ++ selected (skipn (List.length done) ret) todo)%list,
               (accp ++ selected (skipn (List.length done) param) todo)%list)
    else None.
Proof.
  induction todo as [|r todo IH]; intros done accr accp.
  - destruct (skipn (List.length done) ret),
      (skipn (List.length done) param); simpl; rewrite !app_nil_r;
      reflexivity.
  - cbn [List.length for_range]. rewrite nth_error_middle.
    rewrite (skipn_step (List.length done) ret).
    rewrite (skipn_step (List.length done) param).
    destruct (nth_error ret (List.length done)) as [a|]; [|reflexivity].
    destruct (nth_error param (List.length done)) as [b|].
    2:{ cbn [List.length]. rewrite andb_false_r. reflexivity. }
    specialize (IH (done ++ [r])%list).
    rewrite length_app in IH. simpl in IH. rewrite Nat.add_1_r in IH.
    rewrite <- app_assoc in IH. simpl in IH.
    rewrite IH. cbn [List.length Nat.leb selected fst snd].
    destruct ((_ <=? _) && (_ <=? _))%nat; [|reflexivity].
    destruct a, b; rewrite <- ?app_assoc; reflexivity.
Qed.

Lemma selected_nth (mask : list bool) :
  forall (regs : list Register) (k i : nat),
    (exists x, nth_error mask i = Some x /\ Bool.eqb x true = true) ->
    matches Bool.eqb (firstn i mask) true = Z.of_nat k ->
    (i < List.length regs)%nat ->
    nth_error (selected mask regs) k = nth_error regs i.
Proof.
  induction mask as [|b mask IH]; intros regs k i [x [Hx Hv]] Hm Hlt.
  - destruct i; discriminate.
  - destruct regs as [|r regs]; [simpl in Hlt; lia|].
    destruct i as [|i].
    + simpl in Hx. inversion Hx; subst x.
      destruct b; [|discriminate]. simpl in Hm. unfold matches in Hm.
      simpl in Hm. assert (k = 0%nat) by lia. subst k. reflexivity.
    + cbn [firstn] in Hm. rewrite matches_cons in Hm.
      pose proof (matches_nonneg Bool.eqb (firstn i mask) true) as Hnn.
      simpl in Hx, Hlt. cbn [selected nth_error].
      destruct b; cbn [Bool.eqb] in Hm.
      * destruct k as [|k]; [lia|]. cbn [nth_error].
        apply IH; [exists x; auto|lia|lia].
      * apply IH; [exists x; auto|lia|lia].
Qed.

Lemma selected_all (regs : list Register) :
  selected (repeat true (List.length regs)) regs = regs.
Proof.
  induction regs as [|r regs IH]; simpl; [reflexivity|].
  rewrite IH. reflexivity.
Qed.

(** X9.  The constructor of [TypeMask] from two masks keeps, in order,
    the registers whose bit is set: the entry of rank [n] of [rets] is
    the register at the index that [Nth] finds for [n] in the return
    mask, and likewise for [params].  A mask shorter than the register
    list is read out of range. *)
Theorem TypeMask_ctor_selects (regs : list Register) (ret param : list bool) :
  Z.of_nat (List.length regs) < 2 ^ 32 ->
  ((List.length regs <= List.length ret)%nat ->
   (List.length regs <= List.length param)%nat ->
   exists tm,
     TypeMask_ctor regs ret param = Some tm /\
     ret_type_mask tm = ret /\ param_type_mask tm = param /\
     rets tm = selected ret regs /\ params tm = selected param regs /\
     (forall n i,
         Nth ret n true = Some i -> i < Z.of_nat (List.length regs) ->
         nth_error (rets tm) (Z.to_nat n) = nth_error regs (Z.to_nat i)) /\
     (forall n i,
         Nth param n true = Some i -> i < Z.of_nat (List.length regs) ->
         nth_error (params tm) (Z.to_nat n) = nth_error regs (Z.to_nat i))) /\
  ((List.length ret < List.length regs)%nat \/
   (List.length param < List.length regs)%nat ->
   TypeMask_ctor regs ret param = None).
Proof.
  intros _.
  pose proof (TypeMask_loop ret param regs [] [] []) as Hloop.
  simpl in Hloop. unfold TypeMask_ctor. rewrite Hloop. clear Hloop.
  assert (Hnth : forall mask n i,
             Nth mask n true = Some i -> i < Z.of_nat (List.length regs) ->
             nth_error (selected mask regs) (Z.to_nat n)
             = nth_error regs (Z.to_nat i)).
  { intros mask n i H Hlt. unfold Nth in H.
    destruct (n <? 0) eqn:Hn; [discriminate|]. apply Z.ltb_ge in Hn.
    apply Nth_loop_nth_match in H; [|exact Hn].
    destruct H as [Hi [Hx Hm]].
    apply (selected_nth mask regs (Z.to_nat n) (Z.to_nat i) Hx); lia. }
  split.
  - intros Hr Hp.
    apply Nat.leb_le in Hr, Hp. rewrite Hr, Hp. simpl.
    eexists. split; [reflexivity|]. simpl.
    repeat split; try reflexivity; apply Hnth.
  - intros [H|H]; apply Nat.leb_gt in H; rewrite H;
      rewrite ?andb_false_r; reflexivity.
Qed.

(** X10.  The constructor from a register list alone gives what the
    constructor from two masks gives on two fresh masks of that size:
    every register is a return register and a parameter.  Such a
    [TypeMask] is [Empty] exactly when the register list is. *)
Theorem TypeMask_of_regs_is_full (regs : list Register) :
  Z.of_nat (List.length regs) < 2 ^ 32 ->
  TypeMask_ctor regs (GMask_ctor (List.length regs))
    (GMask_ctor (List.length regs))
  = Some (TypeMask_of_regs regs) /\
  (Empty (TypeMask_of_regs regs) = true <-> regs = []).
Proof.
  intros _. split.
  - pose proof (TypeMask_loop (GMask_ctor (List.length regs))
                  (GMask_ctor (List.length regs)) regs [] [] []) as Hloop.
    simpl in Hloop. unfold TypeMask_ctor. rewrite Hloop.
    unfold GMask_ctor. rewrite repeat_length, Nat.leb_refl. simpl.
    rewrite selected_all. reflexivity.
  - unfold Empty, TypeMask_of_regs. simpl.
    destruct regs; split; intros H; try reflexivity; discriminate.
Qed.

Lemma reset_loop (rt : list bool) :
  forall (rd pd pt : list bool),
    List.length rd = List.length pd ->
    for_range (List.length rd) (List.length rt)
      (fun i (masks : list bool * list bool) =>
         if ((i <? List.length (fst masks))
             && (i <? List.length (snd masks)))%nat
         then Some (assign i false (fst masks), assign i false (snd masks))
         else None)
      ((rd ++ rt)%list, (pd ++ pt)%list) =
    if (List.length rt <=? List.length pt)%nat
    then Some ((rd ++ repeat false (List.length rt))%list,
               (pd ++ repeat false (List.length rt)
                   ++ skipn (List.length rt) pt)%list)
    else None.
Proof.
  induction rt as [|r rt IH]; intros rd pd pt Hlen.
  - simpl. rewrite app_nil_r. reflexivity.
  - cbn [List.length for_range fst snd].
    replace (List.length rd <? List.length (rd ++ r :: rt))%nat with true
      by (symmetry; apply Nat.ltb_lt; rewrite length_app; simpl; lia).
    destruct pt as [|p pt].
    + rewrite app_nil_r.
      replace (List.length rd <? List.length pd)%nat with false
        by (symmetry; apply Nat.ltb_ge; lia).
      reflexivity.
    + replace (List.length rd <? List.length (pd ++ p :: pt))%nat with true
        by (symmetry; apply Nat.ltb_lt; rewrite length_app; simpl; lia).
      cbn [andb]. rewrite assign_middle.
      rewrite Hlen at 2. rewrite assign_middle.
      specialize (IH (rd ++ [false])%list (pd ++ [false])%list pt).
      rewrite !length_app in IH. simpl in IH.
      rewrite Nat.add_1_r in IH.
      rewrite <- !app_assoc in IH. simpl in IH.
      rewrite IH by lia. cbn [List.length Nat.leb repeat skipn].
      destruct (List.length rt <=? List.length pt)%nat; reflexivity.
Qed.

(** X11.  [TypeMask::reset] empties both register lists and clears the
    return mask, but it runs over the parameter mask with the size of
    the return mask: the bits of the parameter mask beyond that size
    stay as they were, and a shorter parameter mask is written out of
    range. *)
Theorem TypeMask_reset_clears (this : TypeMask Register) :
  Z.of_nat (List.length (ret_type_mask this)) < 2 ^ 32 ->
  let size := List.length (ret_type_mask this) in
  ((size <= List.length (param_type_mask this))%nat ->
   exists tm,
     TypeMask_reset this = Some tm /\
     Empty tm = true /\
     ret_type_mask tm = repeat false size /\
     param_type_mask tm =
       (repeat false size ++ skipn size (param_type_mask this))%list) /\
  ((List.length (param_type_mask this) < size)%nat ->
   TypeMask_reset this = None).
Proof.
  intros _ size.
  pose proof (reset_loop (ret_type_mask this) [] [] (param_type_mask this)
                eq_refl) as Hloop.
  simpl in Hloop. unfold TypeMask_reset. rewrite Hloop. fold size. split.
  - intros H. apply Nat.leb_le in H. rewrite H.
    eexists. split; [reflexivity|]. repeat split.
  - intros H. apply Nat.leb_gt in H. rewrite H. reflexivity.
Qed.

End TypeMasks.

Lemma transform2_fresh (n : nat) :
  forall r : list bool,
    (n <= List.length r)%nat ->
    transform2 (fun a b => a && b) (repeat true n) r = Some (firstn n r).
Proof.
  induction n as [|n IH]; intros r Hn; [reflexivity|].
  destruct r as [|b r]; [simpl in Hn; lia|].
  simpl. rewrite IH by (simpl in Hn; lia). reflexivity.
Qed.

(** X12.  A fresh [TMask] is neutral for [operator&=]: after it is
    and-ed with two masks of its size it holds exactly those masks, so
    that [Build] gives the [TypeMask] of those masks; longer masks are
    cut to its size. *)
Theorem TMask_fresh_is_neutral (used : nat) (ret param : list bool) :
  Z.of_nat used < 2 ^ 32 ->
  (used <= List.length ret)%nat ->
  (used <= List.length param)%nat ->
  TMask_and_masks (TMask_ctor used) ret param
  = Some {| t_ret_type_mask := firstn used ret;
            t_param_type_mask := firstn used param |} /\
  (List.length ret = used -> List.length param = used ->
   forall (Register : Type) (regs : list Register) tmask,
     TMask_and_masks (TMask_ctor used) ret param = Some tmask ->
     Build tmask regs = TypeMask_ctor regs ret param).
Proof.
  intros Hu Hr Hp.
  assert (H : TMask_and_masks (TMask_ctor used) ret param
              = Some {| t_ret_type_mask := firstn used ret;
                        t_param_type_mask := firstn used param |}).
  { unfold TMask_and_masks, TMask_ctor. simpl.
    rewrite !and_assign_in_range
      by (unfold GMask_ctor; rewrite repeat_length; assumption).
    unfold GMask_ctor.
    rewrite !transform2_fresh by assumption. reflexivity. }
  split; [exact H|].
  intros Hlr Hlp Register regs tmask Ht. rewrite H in Ht.
  inversion Ht; subst tmask. unfold Build. simpl.
  rewrite <- Hlr at 1. rewrite <- Hlp at 1. rewrite !firstn_all.
  reflexivity.
Qed.

(** ** Runs on concrete masks *)

(** From index 2 of [0 1 0 1] the next set bit is at index 3. *)
Lemma NextIndex_least_witness :
  0 <= 2 /\
  NextIndex Bool.eqb [false; true; false; true] true 2 = (true, 3) /\
  (forall j x, 2 <= j < 3 ->
               nth_error [false; true; false; true] (Z.to_nat j) = Some x ->
               Bool.eqb x true = false).
Proof.
  split; [lia|]. split; [reflexivity|].
  pose proof (NextIndex_least Bool.eqb [false; true; false; true] true 2
                ltac:(lia)) as H.
  change (NextIndex Bool.eqb [false; true; false; true] true 2)
    with (true, 3) in H.
  destruct H as [_ [_ H]]. exact H.
Defined.

(** [0 1 0 1] has two set bits: rank 1 is found, at an index in
    [1 .. 3]. *)
Lemma Nth_defined_witness :
  (exists i, Nth [false; true; false; true] 1 true = Some i) /\
  1 <= 3 < 4.
Proof.
  destruct (Nth_defined [false; true; false; true] 1 true) as [Hex Hb].
  split.
  - apply Hex. vm_compute. split; [discriminate|reflexivity].
  - apply (Hb 3). reflexivity.
Defined.

(** In [0 1 0 1] the set bit of rank 0 is at index 1 and the next one
    is the first set bit from index 2. *)
Lemma Nth_successor_witness :
  Nth [false; true; false; true] (0 + 1) true =
  (let (found, j) := NextIndex Bool.eqb [false; true; false; true] true
                       (1 + 1) in
   if found then Some j else None).
Proof.
  destruct (Nth_successor [false; true; false; true] 0 true) as [_ H].
  apply H. reflexivity.
Defined.

(** On [1 0] the answer 0 is the match of rank 0; on [0 0] it is the
    absence of a match. *)
Lemma NthIndex3_zero_witness :
  NthIndex3 Bool.eqb [true; false] true 0 = 0 /\
  NthIndex3 Bool.eqb [false; false] true 0 = 0.
Proof.
  destruct (NthIndex3_zero Bool.eqb [true; false] true 0) as [H1 _].
  destruct (NthIndex3_zero Bool.eqb [false; false] true 0) as [_ H2].
  split.
  - apply H1. reflexivity.
  - apply H2. right. vm_compute. intros [_ H]. discriminate H.
Defined.

(** [1 1 0 && 1 0 1 1] is [1 0 0]; [1 1 0 && 1] reads past the end. *)
Lemma Mask_and_or_pointwise_witness :
  (exists conj disj,
      Mask_and [true; true; false] [true; false; true; true] = Some conj /\
      Mask_or [true; true; false] [true; false; true; true] = Some disj /\
      List.length conj = 3%nat /\ List.length disj = 3%nat) /\
  Mask_and [true; true; false] [true] = None.
Proof.
  destruct (Mask_and_or_pointwise [true; true; false]
              [true; false; true; true]) as [H1 _].
  destruct (Mask_and_or_pointwise [true; true; false] [true]) as [_ H2].
  split.
  - destruct H1 as [conj [disj [Ha [Ho [Hlc [Hld _]]]]]]; [simpl; lia|].
    exists conj, disj. repeat split; assumption.
  - apply H2. simpl. lia.
Defined.

(** [1 1 0 &= 1 0 1 1] is [1 1 0 && 1 0 1 1]; [1 0 &= 0] is [0 0]
    although [1 0 && 0] reads past the end; [0 1 &= 0] reads past the
    end. *)
Lemma and_assign_extends_Mask_and_witness :
  and_assign [true; true; false] [true; false; true; true]
  = Mask_and [true; true; false] [true; false; true; true] /\
  Mask_and [true; false] [false] = None /\
  and_assign [true; false] [false] = Some [false; false] /\
  and_assign [false; true] [false] = None.
Proof.
  destruct (and_assign_extends_Mask_and [true; true; false]
              [true; false; true; true]) as [H1 _]; [simpl; lia|].
  destruct (and_assign_extends_Mask_and [true; false] [false])
    as [_ H2]; [simpl; lia|].
  destruct (and_assign_extends_Mask_and [false; true] [false])
    as [_ H3]; [simpl; lia|].
  destruct H1 as [H1 _]; [simpl; lia|].
  destruct H2 as [H2 [H2' _]]; [simpl; lia|].
  destruct H3 as [_ [_ H3]]; [simpl; lia|].
  destruct H2' as [prefix [Hp H2']]; [reflexivity|].
  split; [exact H1|]. split; [exact H2|]. split.
  - rewrite H2'. inversion Hp. reflexivity.
  - apply H3. reflexivity.
Defined.

Lemma cc_copies_witness :
  cc [true; false; true] = Some [true; false; true] /\
  cc_op [1; 0; 2] (fun z => 0 <? z) = Some [true; false; true].
Proof.
  apply (cc_copies [true; false; true] [1; 0; 2] (fun z => 0 <? z));
    simpl; lia.
Defined.

(** Of the registers [a b c] the masks [1 0 1] and [0 1 1] make [a c]
    return registers and [b c] parameters. *)
Lemma TypeMask_ctor_selects_witness :
  exists tm,
    TypeMask_ctor ["a"; "b"; "c"]%string [true; false; true]
      [false; true; true] = Some tm /\
    rets tm = ["a"; "c"]%string /\ params tm = ["b"; "c"]%string.
Proof.
  destruct (TypeMask_ctor_selects ["a"; "b"; "c"]%string [true; false; true]
              [false; true; true]) as [H _]; [simpl; lia|].
  destruct H as [tm [Hc [_ [_ [Hr [Hp _]]]]]]; [simpl; lia|simpl; lia|].
  exists tm. split; [exact Hc|]. split; [exact Hr|exact Hp].
Defined.

Lemma TypeMask_of_regs_is_full_witness :
  TypeMask_ctor ["a"; "b"]%string (GMask_ctor 2) (GMask_ctor 2)
  = Some (TypeMask_of_regs ["a"; "b"]%string).
Proof.
  destruct (TypeMask_of_regs_is_full ["a"; "b"]%string) as [H _];
    [simpl; lia|exact H].
Defined.

(** A return mask of size 2 and a parameter mask [1 1 1]: after [reset]
    the third parameter bit is still set. *)
Lemma TypeMask_reset_clears_witness :
  exists tm,
    TypeMask_reset
      {| ret_type_mask := [true; false];
         param_type_mask := [true; true; true];
         rets := ["a"]%string;
         params := ["a"; "b"; "c"]%string |} = Some tm /\
    Empty tm = true /\
    ret_type_mask tm = [false; false] /\
    param_type_mask tm = [false; false; true].
Proof.
  destruct (TypeMask_reset_clears
              {| ret_type_mask := [true; false];
                 param_type_mask := [true; true; true];
                 rets := ["a"]%string;
                 params := ["a"; "b"; "c"]%string |}) as [H _];
    [simpl; lia|].
  destruct H as [tm [Hr [He [Hm Hp]]]]; [simpl; lia|].
  exists tm. repeat split; assumption.
Defined.

Lemma TMask_fresh_is_neutral_witness :
  TMask_and_masks (TMask_ctor 3) [true; false; true] [false; true; true]
  = Some {| t_ret_type_mask := [true; false; true];
            t_param_type_mask := [false; true; true] |}.
Proof.
  destruct (TMask_fresh_is_neutral 3 [true; false; true]
              [false; true; true]) as [H _];
    [simpl; lia|simpl; lia|simpl; lia|exact H].
Defined.

End MaskFacts.

(* ===================================================================== *)
(** * Properties of the lifter *)
(* ===================================================================== *)

Module X86Facts.

Import X86.

Local Open Scope string_scope.
Local Open Scope Z_scope.

(** ** Machine integers *)

Lemma to_uint64_to_int64 (x d : Z) :
  to_uint64 (to_int64 x + d) = to_uint64 (x + d).
Proof.
  unfold to_uint64, to_int64. cbv zeta.
  destruct (x mod 2 ^ 64 <? 2 ^ 63).
  - apply Z.add_mod_idemp_l. lia.
  - replace (x mod 2 ^ 64 - 2 ^ 64 + d)
      with ((x mod 2 ^ 64 + d) + (-1) * 2 ^ 64) by ring.
    rewrite Z.mod_add by lia. apply Z.add_mod_idemp_l. lia.
Qed.

Lemma to_uint64_idem (x : Z) : to_uint64 (to_uint64 x) = to_uint64 x.
Proof. unfold to_uint64. apply Z.mod_mod. lia. Qed.

Lemma to_uint64_small (x : Z) : 0 <= x < 2 ^ 64 -> to_uint64 x = x.
Proof. intros H. unfold to_uint64. apply Z.mod_small. exact H. Qed.

Lemma next_pc_plus (this : Instr) (d : Z) :
  to_uint64 (to_int64 (NextPC this) + d) =
  to_uint64 (address (instr this) + size (instr this) + d).
Proof.
  rewrite to_uint64_to_int64. unfold NextPC, to_uint64.
  apply Z.add_mod_idemp_l. lia.
Qed.

Section Facts.

Context {xed : XED} {Fn : Type}.
Variable FLAGS_os : string.
Variable M : Module Fn.
Variable lifter : Lifter Fn.

Implicit Types (this : Instr) (st : LiftState Fn) (xedo : xed_operand_t).

(** ** The target of a transfer *)

Lemma TargetPC_run this st :
  TargetPC this st =
  if IsDirectJump this || IsDirectFunctionCall this || IsBranch this
  then Ok (to_uint64 (address (instr this) + size (instr this)
                      + xed_decoded_inst_get_branch_displacement (xedd this)),
           st)
  else Fatal
         "Can only get target PC of a direct jump, branch, or function call.".
Proof.
  unfold TargetPC, bind, CHECK.
  destruct (IsDirectJump this || IsDirectFunctionCall this || IsBranch this).
  - unfold ret. rewrite next_pc_plus. reflexivity.
  - reflexivity.
Qed.

(** C3.  [TargetPC] of an instruction at address [A] with size [S] and
    branch displacement [D] is [A + S + D] in [uintptr_t] arithmetic
    when the instruction is a direct jump, a direct function call or a
    branch, and a failed [CHECK] otherwise; the [uintptr_t] sum is the
    integer [A + S + D] whenever that is an address. *)
Theorem TargetPC_is_next_pc_plus_displacement this st :
  let A := address (instr this) in
  let S := size (instr this) in
  let D := xed_decoded_inst_get_branch_displacement (xedd this) in
  (IsDirectJump this || IsDirectFunctionCall this || IsBranch this = true ->
   TargetPC this st = Ok (to_uint64 (A + S + D), st) /\
   (0 <= A + S + D < 2 ^ 64 -> TargetPC this st = Ok (A + S + D, st))) /\
  (IsDirectJump this || IsDirectFunctionCall this || IsBranch this = false ->
   exists msg, TargetPC this st = Fatal msg).
Proof.
  cbv zeta. rewrite TargetPC_run. split; intros H; rewrite H.
  - split; [reflexivity|]. intros Hr. rewrite to_uint64_small by exact Hr.
    reflexivity.
  - eexists; reflexivity.
Qed.

(** ** Runs of the builder *)

Lemma extend_nil st : extend st [] [] [] = st.
Proof. destruct st. unfold extend. simpl. rewrite !app_nil_r. reflexivity. Qed.

Lemma extend_extend st bi ar lg bi' ar' lg' :
  extend (extend st bi ar lg) bi' ar' lg' =
  extend st (bi ++ bi') (ar ++ ar') (lg ++ lg').
Proof. unfold extend. simpl. rewrite <- !app_assoc. reflexivity. Qed.

Lemma emit_run (x : Inst Fn) st : emit x st = Ok (tt, extend st [x] [] []).
Proof. unfold emit, extend. rewrite !app_nil_r. reflexivity. Qed.

Lemma args_push_back_run (v : Value Fn) st :
  args_push_back v st = Ok (tt, extend st [] [v] []).
Proof. unfold args_push_back, extend. rewrite !app_nil_r. reflexivity. Qed.

Lemma LOG_run (sev : Severity) (msg : string) st :
  LOG sev msg st = Ok (tt, extend st [] [] [(sev, msg)]).
Proof. unfold LOG, extend. rewrite !app_nil_r. reflexivity. Qed.

Lemma Insert_run (v : Value Fn) st :
  Insert v st = Ok (v, extend st [IVal v] [] []).
Proof. unfold Insert, bind. rewrite emit_run. reflexivity. Qed.

Lemma bind_Ok {A B : Type} (m : IR Fn A) (k : A -> IR Fn B) st a st1 :
  m st = Ok (a, st1) -> bind m k st = k a st1.
Proof. intros H. unfold bind. rewrite H. reflexivity. Qed.

Lemma bind_inv {A B : Type} (m : IR Fn A) (k : A -> IR Fn B) st b st' :
  bind m k st = Ok (b, st') ->
  exists a st1, m st = Ok (a, st1) /\ k a st1 = Ok (b, st').
Proof.
  unfold bind. destruct (m st) as [[a st1]|msg]; [|discriminate].
  intros H. exists a, st1. split; [reflexivity|exact H].
Qed.

Lemma computes_ret {A : Type} (a : A) (P : A -> Prop) :
  P a -> computes (Fn:=Fn) (ret a) P.
Proof.
  intros H st. exists a, []. rewrite extend_nil. split; [reflexivity|exact H].
Qed.

Lemma computes_Insert (v : Value Fn) (P : Value Fn -> Prop) :
  P v -> computes (Insert v) P.
Proof.
  intros H st. exists v, [IVal v]. rewrite Insert_run.
  split; [reflexivity|exact H].
Qed.

Lemma computes_bind {A B : Type} (m : IR Fn A) (k : A -> IR Fn B)
    (P : A -> Prop) (Q : B -> Prop) :
  computes m P -> (forall a, P a -> computes (k a) Q) -> computes (bind m k) Q.
Proof.
  intros Hm Hk st.
  destruct (Hm st) as [a [bi [Ha HP]]].
  destruct (Hk a HP (extend st bi [] [])) as [b [bi' [Hb HQ]]].
  exists b, (bi ++ bi')%list. rewrite (bind_Ok _ _ _ _ _ Ha), Hb.
  rewrite extend_extend. split; [reflexivity|exact HQ].
Qed.

Lemma computes_weaken {A : Type} (m : IR Fn A) (P Q : A -> Prop) :
  computes m P -> (forall a, P a -> Q a) -> computes m Q.
Proof.
  intros Hm HPQ st. destruct (Hm st) as [a [bi [Ha HP]]].
  exists a, bi. split; [exact Ha|apply HPQ; exact HP].
Qed.

Lemma CreateLoad_computes (ptr : Value Fn) :
  computes (CreateLoad ptr) (eq (VLoad ptr 0)).
Proof. apply computes_Insert. reflexivity. Qed.

Lemma CreateAdd_any (a b : Value Fn) : computes (CreateAdd a b) (fun _ => True).
Proof.
  destruct a, b; first [apply computes_ret | apply computes_Insert]; exact I.
Qed.

Lemma CreateMul_any (a b : Value Fn) : computes (CreateMul a b) (fun _ => True).
Proof.
  destruct a, b; first [apply computes_ret | apply computes_Insert]; exact I.
Qed.

Lemma CreateAdd_left (a b : Value Fn) :
  is_constant a = false -> computes (CreateAdd a b) (eq (VAdd a b)).
Proof.
  intros H. destruct a; try discriminate; apply computes_Insert; reflexivity.
Qed.

Lemma CreateAdd_right (a b : Value Fn) :
  is_constant b = false -> computes (CreateAdd a b) (eq (VAdd a b)).
Proof.
  intros H.
  destruct a, b; try discriminate; apply computes_Insert; reflexivity.
Qed.

Lemma CreateMul_left (a b : Value Fn) :
  is_constant a = false -> computes (CreateMul a b) (eq (VMul a b)).
Proof.
  intros H. destruct a; try discriminate; apply computes_Insert; reflexivity.
Qed.

Lemma address_part_not_constant this reg :
  is_constant (Fn:=Fn) (address_part this reg) = false.
Proof. unfold address_part. destruct (_ <? _); reflexivity. Qed.

Lemma RegToValue_computes this (reg : Z) :
  computes (Fn:=Fn)
    (if XED_REG_INVALID =? reg then
       ret (ConstantInt_get
              (xed_decoded_inst_get_machine_mode_bits (xedd this)) 0 false)
     else
       bind (CreateLoad (FindVarInFunction (xed_reg_enum_t2str reg ++ "_read")))
         (fun P =>
            bind (CreateLoad P)
              (fun V =>
                 if xed_get_register_width_bits64 reg
                    <? xed_decoded_inst_get_machine_mode_bits (xedd this)
                 then CreateZExt V
                        (xed_decoded_inst_get_machine_mode_bits (xedd this))
                 else ret V)))
    (fun v => reg <> XED_REG_INVALID -> v = address_part this reg).
Proof.
  destruct (XED_REG_INVALID =? reg) eqn:E.
  - apply computes_ret. apply Z.eqb_eq in E. congruence.
  - eapply computes_bind; [apply CreateLoad_computes|].
    intros P <-.
    eapply computes_bind; [apply CreateLoad_computes|].
    intros V <-. unfold address_part, FindVarInFunction.
    destruct (_ <? _).
    + apply computes_Insert. reflexivity.
    + apply computes_ret. reflexivity.
Qed.

Lemma LiftMemory_address this xedo :
  let mem_index :=
    if operand_eqb XED_OPERAND_MEM1 (xed_operand_name xedo) then 1 else 0 in
  let base := xed_decoded_inst_get_base_reg (xedd this) mem_index in
  let index := xed_decoded_inst_get_index_reg (xedd this) mem_index in
  let addr_width := xed_decoded_inst_get_machine_mode_bits (xedd this) in
  forall (D0 S : Value Fn),
  (XED_REG_INVALID =? base) && (XED_REG_INVALID =? index) = false ->
  computes
    (bind
       (if XED_REG_INVALID =? base then
          ret (ConstantInt_get addr_width 0 false)
        else
          bind (CreateLoad
                  (FindVarInFunction (xed_reg_enum_t2str base ++ "_read")))
            (fun P =>
               bind (CreateLoad P)
                 (fun V =>
                    if xed_get_register_width_bits64 base <? addr_width
                    then CreateZExt V addr_width else ret V)))
       (fun B =>
          bind
            (if XED_REG_INVALID =? index then
               ret (ConstantInt_get addr_width 0 false)
             else
               bind (CreateLoad
                       (FindVarInFunction
                          (xed_reg_enum_t2str index ++ "_read")))
                 (fun P =>
                    bind (CreateLoad P)
                      (fun V =>
                         if xed_get_register_width_bits64 index <? addr_width
                         then CreateZExt V addr_width else ret V)))
            (fun I =>
               bind
                 (if (XED_ICLASS_POP =? iclass this)
                     && (XED_REG_RSP =? xed_get_largest_enclosing_register base)
                  then CreateAdd B
                         (ConstantInt_get addr_width (addr_width / 8) false)
                  else ret B)
                 (fun B' =>
                    bind (if 32 <? addr_width
                          then CreateSExt D0 addr_width else ret D0)
                      (fun D =>
                         bind (CreateMul I S)
                           (fun IS =>
                              bind (CreateAdd B' IS)
                                (fun BIS => CreateAdd BIS D)))))))
    (fun raw =>
       exists B IS D,
         raw = VAdd (VAdd B IS) D /\
         (base <> XED_REG_INVALID ->
          B = if (XED_ICLASS_POP =? iclass this)
                 && (XED_REG_RSP =? xed_get_largest_enclosing_register base)
              then VAdd (address_part this base)
                     (ConstantInt_get addr_width (addr_width / 8) false)
              else address_part this base)).
Proof.
  intros mem_index base index addr_width D0 S E1.
  eapply computes_bind; [apply RegToValue_computes|].
  intros B HB.
  eapply computes_bind; [apply RegToValue_computes|].
  intros Iv HI.
  set (B'spec := if (XED_ICLASS_POP =? iclass this)
                    && (XED_REG_RSP =? xed_get_largest_enclosing_register base)
                 then VAdd (address_part this base)
                        (ConstantInt_get addr_width (addr_width / 8) false)
                 else address_part (Fn:=Fn) this base).
  apply computes_bind with
    (P := fun B' => (base <> XED_REG_INVALID -> B' = B'spec)).
  { unfold B'spec.
    destruct ((XED_ICLASS_POP =? iclass this)
              && (XED_REG_RSP =? xed_get_largest_enclosing_register base)).
    - destruct (Z.eq_dec base XED_REG_INVALID) as [e|ne].
      + eapply computes_weaken; [apply CreateAdd_any|].
        intros; contradiction.
      + eapply computes_weaken.
        * apply CreateAdd_left. rewrite (HB ne).
          apply address_part_not_constant.
        * intros a <- _. rewrite (HB ne). reflexivity.
    - apply computes_ret. exact HB. }
  intros B' HB'.
  apply computes_bind with (P := fun _ => True).
  { destruct (32 <? addr_width); [|apply computes_ret; exact I].
    destruct D0; try (apply computes_Insert; exact I).
    simpl. destruct (bits =? addr_width); apply computes_ret; exact I. }
  intros D _.
  apply computes_bind with
    (P := fun IS => is_constant B' = false \/ is_constant IS = false).
  { destruct (Z.eq_dec base XED_REG_INVALID) as [e|ne].
    - assert (ni : index <> XED_REG_INVALID).
      { intros e'. rewrite e, e', Z.eqb_refl in E1. discriminate. }
      eapply computes_weaken.
      + apply CreateMul_left. rewrite (HI ni).
        apply address_part_not_constant.
      + intros a <-. right. reflexivity.
    - eapply computes_weaken; [apply CreateMul_any|].
      intros a _. left. rewrite (HB' ne). unfold B'spec.
      destruct ((XED_ICLASS_POP =? iclass this) && _);
        [reflexivity|apply address_part_not_constant]. }
  intros IS HIS.
  apply computes_bind with (P := eq (VAdd B' IS)).
  { destruct HIS; [apply CreateAdd_left|apply CreateAdd_right]; assumption. }
  intros BIS <-.
  eapply computes_weaken; [apply CreateAdd_left; reflexivity|].
  intros raw <-. exists B', IS, D. split; [reflexivity|exact HB'].
Qed.

Lemma LiftMemory_run this xedo (op_num : nat) st :
  let tag :=
    AddressSpace
      (xed_decoded_inst_get_seg_reg (xedd this)
         (if operand_eqb XED_OPERAND_MEM1 (xed_operand_name xedo)
          then 1 else 0))
      (xed_operand_name xedo) in
  exists bi raw,
    memory_address_shape this xedo raw /\
    LiftMemory lifter this xedo op_num st =
    Ok (tt, extend st bi
              (per_role xedo (routed lifter tag raw) (routed lifter tag raw))
              []).
Proof.
  intros tag.
  assert (Haddr : exists m : IR Fn (Value Fn),
             computes m (memory_address_shape this xedo) /\
             LiftMemory lifter this xedo op_num =
             bind m (fun A =>
               bind (if negb (tag =? 0) then
                       CreateCall (compute_address lifter)
                         [FindStatePointer; A; ConstantInt_get 32 tag true]
                     else ret A)
                 (fun A =>
                    bind (if xed_operand_written xedo
                          then args_push_back A else ret tt)
                      (fun _ => if xed_operand_read xedo
                                then args_push_back A else ret tt)))).
  { eexists. split; [|unfold LiftMemory; cbv zeta; reflexivity].
    unfold memory_address_shape. cbv zeta.
    destruct ((XED_REG_INVALID =? _) && (XED_REG_INVALID =? _)) eqn:E1.
    { apply computes_ret. reflexivity. }
    destruct (XED_REG_RIP =? _) eqn:E2.
    { apply computes_ret. reflexivity. }
    apply LiftMemory_address. exact E1. }
  destruct Haddr as [m [Hm ->]].
  destruct (Hm st) as [raw [bi [Hrun Hshape]]].
  rewrite (bind_Ok _ _ _ _ _ Hrun).
  unfold routed, per_role.
  destruct (tag =? 0); simpl negb; cbv iota.
  - exists bi, raw. split; [exact Hshape|].
    unfold bind, ret.
    destruct (xed_operand_written xedo), (xed_operand_read xedo);
      rewrite ?args_push_back_run, ?extend_extend, ?app_nil_r;
      reflexivity.
  - eexists (bi ++ [_])%list, raw. split; [exact Hshape|].
    unfold bind at 1. unfold CreateCall. rewrite Insert_run, extend_extend.
    unfold bind, ret.
    destruct (xed_operand_written xedo), (xed_operand_read xedo);
      rewrite ?args_push_back_run, ?extend_extend, ?app_nil_r;
      reflexivity.
Qed.

(** ** The operands *)

Lemma LiftRegister_run this xedo st :
  let reg :=
    xed_decoded_inst_get_reg (xedd this) (xed_operand_name xedo) in
  exists bi,
    LiftRegister this xedo st =
    Ok (tt, extend st bi
              (per_role xedo (write_handle reg) (read_value reg)) []).
Proof.
  intros reg. unfold LiftRegister, per_role, write_handle, read_value.
  cbv zeta. fold reg.
  unfold CreateAlloca, CreateStore, CreateLoad, CreateAlignedLoad,
    FindVarInFunction, bind, ret.
  destruct (xed_operand_written xedo), (xed_operand_read xedo),
    (IsVectorReg reg);
    rewrite ?Insert_run, ?emit_run, ?args_push_back_run, ?extend_extend;
    rewrite ?Insert_run, ?emit_run, ?args_push_back_run, ?extend_extend;
    rewrite ?Insert_run, ?emit_run, ?args_push_back_run, ?extend_extend;
    try (eexists; reflexivity);
    exists []; simpl app; rewrite extend_nil; reflexivity.
Qed.

Lemma LiftImmediate_inv this (op_name : xed_operand_enum_t) st st' :
  LiftImmediate (Fn:=Fn) this op_name st = Ok (tt, st') ->
  exists pattern,
    st' = extend st []
            [VConst (xed_decoded_inst_get_operand_width (xedd this)) pattern]
            [].
Proof.
  unfold LiftImmediate. cbv zeta. intros H.
  apply bind_inv in H. destruct H as [[] [st1 [H1 H]]].
  unfold CHECK in H1. destruct (_ <=? _); [|discriminate].
  inversion H1; subst st1. clear H1.
  apply bind_inv in H. destruct H as [[val is_signed] [st1 [H1 H]]].
  assert (st1 = st) as ->.
  { destruct (_ || _); [inversion H1; reflexivity|].
    destruct (operand_eqb XED_OPERAND_IMM0 op_name);
      [inversion H1; reflexivity|].
    destruct (_ || _); [inversion H1; reflexivity|discriminate]. }
  rewrite args_push_back_run in H. inversion H.
  eexists. unfold ConstantInt_get. reflexivity.
Qed.

Lemma LiftBranchDisplacement_inv this st st' :
  LiftBranchDisplacement (Fn:=Fn) this st = Ok (tt, st') ->
  exists target_pc,
    st' = extend st []
            [ConstantInt_get
               (xed_decoded_inst_get_machine_mode_bits (xedd this))
               target_pc true] [].
Proof.
  unfold LiftBranchDisplacement. cbv zeta. intros H.
  apply bind_inv in H. destruct H as [t [st1 [H1 H]]].
  rewrite TargetPC_run in H1. destruct (_ || _); [|discriminate].
  inversion H1; subst. rewrite args_push_back_run in H. inversion H.
  eexists. reflexivity.
Qed.

Lemma LiftOperand_inv this (op_num : nat) st st' :
  LiftOperand lifter this op_num st = Ok (tt, st') ->
  exists bi c,
    st' = extend st bi c [] /\
    if visible (xed_inst_operand (xedd this) op_num)
    then contributes this (xed_inst_operand (xedd this) op_num) c
    else c = [].
Proof.
  unfold LiftOperand, visible. cbv zeta.
  set (xedo := xed_inst_operand (xedd this) op_num).
  assert (Hvis : forall st st',
             match xed_operand_name xedo with
             | XED_OPERAND_AGEN | XED_OPERAND_MEM0 =>
                 LiftMemory lifter this xedo op_num
             | XED_OPERAND_IMM0SIGNED | XED_OPERAND_IMM0
             | XED_OPERAND_IMM1_BYTES | XED_OPERAND_IMM1 =>
                 LiftImmediate this (xed_operand_name xedo)
             | XED_OPERAND_PTR =>
                 LOG_FATAL "Unsupported operand type: XED_OPERAND_PTR"
             | XED_OPERAND_REG0 | XED_OPERAND_REG1
             | XED_OPERAND_REG2 | XED_OPERAND_REG3 => LiftRegister this xedo
             | XED_OPERAND_RELBR => LiftBranchDisplacement this
             | _ => LOG_FATAL "Unexpected operand type"
             end st = Ok (tt, st') ->
             exists bi c,
               st' = extend st bi c [] /\ contributes this xedo c).
  { clear st st'. intros st st' H.
    destruct (xed_operand_name xedo) eqn:En; try discriminate.
    - destruct (LiftMemory_run this xedo op_num st) as [bi [raw [_ Hr]]].
      rewrite Hr in H. inversion H. eexists; eexists.
      split; [reflexivity|]. apply contributes_memory. rewrite En.
      reflexivity.
    - destruct (LiftMemory_run this xedo op_num st) as [bi [raw [_ Hr]]].
      rewrite Hr in H. inversion H. eexists; eexists.
      split; [reflexivity|]. apply contributes_memory. rewrite En.
      reflexivity.
    - apply LiftImmediate_inv in H. destruct H as [p ->].
      eexists; eexists. split; [reflexivity|].
      apply contributes_immediate. rewrite En. reflexivity.
    - apply LiftImmediate_inv in H. destruct H as [p ->].
      eexists; eexists. split; [reflexivity|].
      apply contributes_immediate. rewrite En. reflexivity.
    - apply LiftImmediate_inv in H. destruct H as [p ->].
      eexists; eexists. split; [reflexivity|].
      apply contributes_immediate. rewrite En. reflexivity.
    - apply LiftImmediate_inv in H. destruct H as [p ->].
      eexists; eexists. split; [reflexivity|].
      apply contributes_immediate. rewrite En. reflexivity.
    - destruct (LiftRegister_run this xedo st) as [bi Hr].
      rewrite Hr in H. inversion H. eexists; eexists.
      split; [reflexivity|]. rewrite En.
      pose proof (contributes_register (Fn:=Fn) this xedo) as Hc.
      rewrite En in Hc. apply Hc. reflexivity.
    - destruct (LiftRegister_run this xedo st) as [bi Hr].
      rewrite Hr in H. inversion H. eexists; eexists.
      split; [reflexivity|]. rewrite En.
      pose proof (contributes_register (Fn:=Fn) this xedo) as Hc.
      rewrite En in Hc. apply Hc. reflexivity.
    - destruct (LiftRegister_run this xedo st) as [bi Hr].
      rewrite Hr in H. inversion H. eexists; eexists.
      split; [reflexivity|]. rewrite En.
      pose proof (contributes_register (Fn:=Fn) this xedo) as Hc.
      rewrite En in Hc. apply Hc. reflexivity.
    - destruct (LiftRegister_run this xedo st) as [bi Hr].
      rewrite Hr in H. inversion H. eexists; eexists.
      split; [reflexivity|]. rewrite En.
      pose proof (contributes_register (Fn:=Fn) this xedo) as Hc.
      rewrite En in Hc. apply Hc. reflexivity.
    - apply LiftBranchDisplacement_inv in H. destruct H as [t ->].
      eexists; eexists. split; [reflexivity|].
      apply contributes_branch_target. exact En. }
  destruct (xed_operand_operand_visibility xedo); intros H;
    try (apply Hvis; exact H).
  inversion H. exists [], []. rewrite extend_nil. split; reflexivity.
Qed.

Lemma for_each_operands_inv this (l : list nat) :
  forall st st',
    for_each l (fun i => LiftOperand lifter this i) st = Ok (tt, st') ->
    exists bi cs,
      st' = extend st bi (List.concat cs) [] /\
      Forall2 (contributes this)
        (filter visible (map (xed_inst_operand (xedd this)) l)) cs.
Proof.
  induction l as [|i l IH]; intros st st' H; simpl in H.
  - inversion H. exists [], []. rewrite extend_nil.
    split; [reflexivity|constructor].
  - apply bind_inv in H. destruct H as [[] [st1 [H1 H]]].
    apply LiftOperand_inv in H1. destruct H1 as [bi [c [-> Hc]]].
    apply IH in H. destruct H as [bi' [cs [-> Hcs]]].
    rewrite extend_extend. simpl map. simpl filter.
    destruct (visible (xed_inst_operand (xedd this) i)).
    + exists (bi ++ bi')%list, (c :: cs). split; [reflexivity|].
      constructor; assumption.
    + subst c. exists (bi ++ bi')%list, cs. split; [reflexivity|exact Hcs].
Qed.

Lemma map_nth_seq {A : Type} (d : A) (l : list A) :
  map (fun i => nth i l d) (seq 0 (List.length l)) = l.
Proof.
  induction l as [|x l IH]; [reflexivity|].
  cbn [List.length seq map nth]. f_equal.
  rewrite <- seq_shift, map_map. exact IH.
Qed.

Lemma for_each_emit (l : list (Inst Fn)) :
  forall st, for_each l (fun x => emit x) st = Ok (tt, extend st l [] []).
Proof.
  induction l as [|x l IH]; intros st; simpl.
  - unfold ret. rewrite extend_nil. reflexivity.
  - unfold bind. rewrite emit_run, IH, extend_extend. reflexivity.
Qed.

(** ** The generic pass *)

Lemma LiftGeneric_inv this st st' :
  LiftGeneric FLAGS_os M lifter this st = Ok (tt, st') ->
  exists bi cs lg,
    st' = extend st bi (VArg0 :: List.concat cs) lg /\
    Forall2 (contributes this)
      (filter visible (xed_decoded_inst_operands (xedd this))) cs /\
    (forall F',
        getFunction M (InstructionFunctionName FLAGS_os (xedd this))
          = Some F' ->
        exists before,
          bi = (before ++ IVal (VCall F' (args st')) :: append_instrs st)%list).
Proof.
  unfold LiftGeneric. cbv zeta. intros H.
  apply bind_inv in H. destruct H as [[] [st1 [H1 H]]].
  rewrite args_push_back_run in H1. inversion H1; subst st1; clear H1.
  apply bind_inv in H. destruct H as [[] [st2 [H2 H]]].
  apply for_each_operands_inv in H2. destruct H2 as [bi [cs [-> Hcs]]].
  unfold xed_decoded_inst_noperands, xed_inst_operand in Hcs.
  rewrite map_nth_seq in Hcs.
  rewrite extend_extend in H. simpl app in H.
  apply bind_inv in H. destruct H as [[] [st3 [H3 H]]].
  apply bind_inv in H. destruct H as [fixups [st4 [H4 H]]].
  unfold get_append_instrs in H4. inversion H4; subst fixups st4; clear H4.
  rewrite for_each_emit in H. inversion H; clear H. subst st'.
  destruct (getFunction M (InstructionFunctionName FLAGS_os (xedd this)))
    as [F'|] eqn:EF.
  - apply bind_inv in H3. destruct H3 as [actuals [st5 [H5 H3]]].
    unfold get_args in H5. inversion H5; subst actuals st5; clear H5.
    apply bind_inv in H3. destruct H3 as [v [st6 [H6 H3]]].
    unfold CreateCall in H6. rewrite Insert_run in H6.
    inversion H6; subst v st6; clear H6.
    inversion H3; subst st3; clear H3.
    simpl (append_instrs _).
    rewrite !extend_extend. simpl app. rewrite ?app_nil_r.
    eexists; exists cs; eexists. split; [reflexivity|]. split; [exact Hcs|].
    intros F0 HF0. inversion HF0; subst F0. exists bi.
    simpl. rewrite ?app_nil_r. reflexivity.
  - destruct (getGlobalVariable M
                (InstructionFunctionName FLAGS_os (xedd this))) as [FP|].
    + apply bind_inv in H3. destruct H3 as [[] [st5 [H5 H3]]].
      unfold CHECK in H5. destruct (_ && _); [|discriminate].
      inversion H5; subst st5; clear H5.
      apply bind_inv in H3. destruct H3 as [actuals [st5 [H5 H3]]].
      unfold get_args in H5. inversion H5; subst actuals st5; clear H5.
      apply bind_inv in H3. destruct H3 as [v [st6 [H6 H3]]].
      unfold CreateCall in H6. rewrite Insert_run in H6.
      inversion H6; subst v st6; clear H6.
      inversion H3; subst st3; clear H3.
      simpl (append_instrs _).
      rewrite !extend_extend. simpl app. rewrite ?app_nil_r.
      eexists; exists cs; eexists. split; [reflexivity|]. split; [exact Hcs|].
      intros F0 HF0. discriminate.
    + rewrite LOG_run in H3. inversion H3; subst st3; clear H3.
      simpl (append_instrs _).
      rewrite !extend_extend. simpl app. rewrite ?app_nil_r.
      eexists; exists cs; eexists. split; [reflexivity|]. split; [exact Hcs|].
      intros F0 HF0. discriminate.
Qed.

(** The call of the semantics function, on either path that finds one:
    it is inserted after what the operands need and before the
    fix-ups, and its actuals are the argument list as the pass leaves
    it. *)
Lemma LiftGeneric_call_inv this st st' :
  LiftGeneric FLAGS_os M lifter this st = Ok (tt, st') ->
  let func_name := InstructionFunctionName FLAGS_os (xedd this) in
  forall callee,
    getFunction M func_name = Some callee \/
    (getFunction M func_name = None /\
     exists FP, getGlobalVariable M func_name = Some FP /\
                callee = getInitializer FP) ->
    exists before,
      B_insts st' =
      (B_insts st ++ before
       ++ IVal (VCall callee (args st')) :: append_instrs st)%list.
Proof.
  unfold LiftGeneric. cbv zeta. intros H callee Hcallee.
  apply bind_inv in H. destruct H as [[] [st1 [H1 H]]].
  rewrite args_push_back_run in H1. inversion H1; subst st1; clear H1.
  apply bind_inv in H. destruct H as [[] [st2 [H2 H]]].
  apply for_each_operands_inv in H2. destruct H2 as [bi [cs [-> _]]].
  rewrite extend_extend in H. simpl app in H.
  apply bind_inv in H. destruct H as [[] [st3 [H3 H]]].
  apply bind_inv in H. destruct H as [fixups [st4 [H4 H]]].
  unfold get_append_instrs in H4. inversion H4; subst fixups st4; clear H4.
  rewrite for_each_emit in H. inversion H; clear H. subst st'.
  assert (Hcall : exists st5,
             CreateCall callee (args (extend st bi (VArg0 :: List.concat cs) []))
               (extend st bi (VArg0 :: List.concat cs) [])
             = Ok (VCall callee
                     (args (extend st bi (VArg0 :: List.concat cs) [])),
                   st5) /\ st3 = st5).
  { destruct Hcallee as [HF|[HF [FP [HG ->]]]]; rewrite HF in H3.
    - apply bind_inv in H3. destruct H3 as [actuals [st5 [H5 H3]]].
      unfold get_args in H5. inversion H5; subst actuals st5; clear H5.
      apply bind_inv in H3. destruct H3 as [v [st6 [H6 H3]]].
      inversion H3; subst st6; clear H3.
      unfold CreateCall in *. rewrite Insert_run in *.
      inversion H6. eexists. split; reflexivity.
    - rewrite HG in H3.
      apply bind_inv in H3. destruct H3 as [[] [st5 [H5 H3]]].
      unfold CHECK in H5.
      destruct (isConstant FP && hasInitializer FP); [|discriminate].
      inversion H5; subst st5; clear H5.
      apply bind_inv in H3. destruct H3 as [actuals [st5 [H5 H3]]].
      unfold get_args in H5. inversion H5; subst actuals st5; clear H5.
      apply bind_inv in H3. destruct H3 as [v [st6 [H6 H3]]].
      inversion H3; subst st6; clear H3.
      unfold CreateCall in *. rewrite Insert_run in *.
      inversion H6. eexists. split; reflexivity. }
  destruct Hcall as [st5 [Hc ->]].
  unfold CreateCall in Hc. rewrite Insert_run in Hc.
  inversion Hc; subst st5; clear Hc.
  exists bi. simpl. rewrite ?app_nil_r, <- ?app_assoc. reflexivity.
Qed.

(** ** The program counter *)

Lemma PCRegName_run (x : xed_decoded_inst_t) st :
  let w := xed_operand_values_get_effective_address_width x in
  exists name lg,
    PCRegName x st = Ok (name, extend st [] [] lg) /\
    ((w = 64 /\ name = "RIP" /\ lg = []) \/
     (w = 32 /\ name = "EIP" /\ lg = []) \/
     (w = 16 /\ name = "IP" /\ lg = []) \/
     (w <> 64 /\ w <> 32 /\ w <> 16 /\ name = "" /\
      lg = [(ERROR, "Unexpected address width.")])).
Proof.
  intros w. unfold PCRegName. cbv zeta. fold w.
  destruct (w =? 64) eqn:E64.
  { exists "RIP", []. rewrite extend_nil. apply Z.eqb_eq in E64.
    split; [reflexivity|]. left. auto. }
  destruct (w =? 32) eqn:E32.
  { exists "EIP", []. rewrite extend_nil. apply Z.eqb_eq in E32.
    split; [reflexivity|]. right; left. auto. }
  destruct (w =? 16) eqn:E16.
  { exists "IP", []. rewrite extend_nil. apply Z.eqb_eq in E16.
    split; [reflexivity|]. right; right; left. auto. }
  apply Z.eqb_neq in E64, E32, E16.
  exists "", [(ERROR, "Unexpected address width.")].
  unfold bind. rewrite LOG_run. split; [reflexivity|].
  right; right; right. auto.
Qed.

Lemma LiftPC_run this st :
  exists name lg,
    PCRegName (xedd this) st = Ok (name, extend st [] [] lg) /\
    LiftPC this st =
    Ok (tt, extend st
              [IVal (VLoad (VVar (name ++ "_write")) 0);
               IStore (ConstantInt_get
                         (xed_decoded_inst_get_machine_mode_bits (xedd this))
                         (NextPC this) false)
                      (VLoad (VVar (name ++ "_write")) 0)] [] lg).
Proof.
  destruct (PCRegName_run (xedd this) st) as [name [lg [Hn _]]].
  exists name, lg. split; [exact Hn|].
  unfold LiftPC. cbv zeta. rewrite (bind_Ok _ _ _ _ _ Hn).
  unfold CreateLoad, CreateAlignedLoad, CreateStore, FindVarInFunction, bind.
  rewrite Insert_run, emit_run, !extend_extend. simpl app.
  rewrite app_nil_r. reflexivity.
Qed.

Lemma tail_call_B_run (callee : Fn) st :
  AddTerminatingTailCall BB_B callee st =
  Ok (tt, extend st [ITailCall callee] [] []).
Proof. unfold AddTerminatingTailCall. apply emit_run. Qed.

(** ** The dispatch *)

Lemma IsFunctionCall_split this :
  IsFunctionCall this =
  IsDirectFunctionCall this || IsIndirectFunctionCall this.
Proof.
  unfold IsFunctionCall, IsDirectFunctionCall, IsIndirectFunctionCall.
  cbv zeta.
  destruct (XED_ICLASS_CALL_NEAR =? iclass this),
    (XED_ICLASS_CALL_FAR =? iclass this),
    (operand_eqb XED_OPERAND_RELBR _); reflexivity.
Qed.

Lemma IsJump_split this :
  IsJump this = IsDirectJump this || IsIndirectJump this.
Proof.
  unfold IsJump, IsDirectJump, IsIndirectJump. cbv zeta.
  destruct (XED_ICLASS_JMP =? iclass this),
    (XED_ICLASS_JMP_FAR =? iclass this),
    (XED_ICLASS_XEND =? iclass this),
    (XED_ICLASS_XABORT =? iclass this),
    (operand_eqb XED_OPERAND_RELBR _); reflexivity.
Qed.

Lemma classify_fall_through this :
  classify this = CatFallThrough <-> is_control_flow this = false.
Proof.
  unfold classify, is_control_flow.
  rewrite IsFunctionCall_split, IsJump_split.
  destruct (IsError this), (IsDirectJump this), (IsIndirectJump this),
    (IsDirectFunctionCall this), (IsIndirectFunctionCall this),
    (IsFunctionReturn this), (IsBranch this), (IsSystemCall this),
    (IsSystemReturn this), (IsInterruptCall this), (IsInterruptReturn this);
    simpl; split; intros H; try reflexivity; discriminate.
Qed.

(** [LiftIntoBlock], one category at a time. *)
Lemma LiftIntoBlock_by_category this :
  LiftIntoBlock FLAGS_os M lifter this =
  let generic := bind (LiftPC this)
                  (fun _ => LiftGeneric FLAGS_os M lifter this) in
  let warn :=
    LOG WARNING ("Unsupported instruction (system return) at PC "
                 ++ show (address (instr this))) in
  match classify this with
  | CatError =>
      bind (AddTerminatingTailCall BB_B (error lifter)) (fun _ => ret false)
  | CatDirectJump =>
      bind (TargetPC this) (fun target_pc =>
        bind (AddTerminatingTailCall BB_B
                (GetLiftedBlockForPC lifter target_pc))
          (fun _ => ret false))
  | CatIndirectJump =>
      bind (LiftPC this) (fun _ =>
        bind (LiftGeneric FLAGS_os M lifter this) (fun _ =>
          bind (AddTerminatingTailCall BB_B (jump lifter))
            (fun _ => ret false)))
  | CatDirectFunctionCall =>
      bind (LiftPC this) (fun _ =>
        bind (LiftGeneric FLAGS_os M lifter this) (fun _ =>
          bind (TargetPC this) (fun target_pc =>
            bind (AddTerminatingTailCall BB_B
                    (GetLiftedBlockForPC lifter target_pc))
              (fun _ => ret false))))
  | CatIndirectFunctionCall =>
      bind (LiftPC this) (fun _ =>
        bind (LiftGeneric FLAGS_os M lifter this) (fun _ =>
          bind (AddTerminatingTailCall BB_B (function_call lifter))
            (fun _ => ret false)))
  | CatFunctionReturn =>
      bind (LiftPC this) (fun _ =>
        bind (LiftGeneric FLAGS_os M lifter this) (fun _ =>
          bind (AddTerminatingTailCall BB_B (function_return lifter))
            (fun _ => ret false)))
  | CatBranch =>
      bind (LiftPC this) (fun _ =>
        bind (LiftGeneric FLAGS_os M lifter this) (fun _ =>
          bind (LiftConditionalBranch lifter this) (fun _ => ret false)))
  | CatSystemCall =>
      bind (LiftPC this) (fun _ =>
        bind (LiftGeneric FLAGS_os M lifter this) (fun _ =>
          bind (AddTerminatingTailCall BB_B (system_call lifter))
            (fun _ => ret false)))
  | CatSystemReturn =>
      bind (LiftPC this) (fun _ =>
        bind (LiftGeneric FLAGS_os M lifter this) (fun _ =>
          bind (AddTerminatingTailCall BB_B (system_return lifter))
            (fun _ => bind warn (fun _ => ret false))))
  | CatInterruptCall =>
      bind (LiftPC this) (fun _ =>
        bind (LiftGeneric FLAGS_os M lifter this) (fun _ =>
          bind (AddTerminatingTailCall BB_B (interrupt_call lifter))
            (fun _ => ret false)))
  | CatInterruptReturn =>
      bind (LiftPC this) (fun _ =>
        bind (LiftGeneric FLAGS_os M lifter this) (fun _ =>
          bind (AddTerminatingTailCall BB_B (interrupt_return lifter))
            (fun _ => bind warn (fun _ => ret false))))
  | CatFallThrough =>
      bind (LiftGeneric FLAGS_os M lifter this) (fun _ => ret true)
  end.
Proof.
  unfold LiftIntoBlock, classify. cbv zeta.
  destruct (IsError this); [reflexivity|].
  destruct (IsDirectJump this); [reflexivity|].
  destruct (IsIndirectJump this); [reflexivity|].
  destruct (IsDirectFunctionCall this); [reflexivity|].
  destruct (IsIndirectFunctionCall this); [reflexivity|].
  destruct (IsFunctionReturn this); [reflexivity|].
  destruct (IsBranch this); [reflexivity|].
  destruct (IsSystemCall this); [reflexivity|].
  destruct (IsSystemReturn this); [reflexivity|].
  destruct (IsInterruptCall this); [reflexivity|].
  destruct (IsInterruptReturn this); reflexivity.
Qed.

Lemma bind_result {A B : Type} (m : IR Fn A) (k : A -> IR Fn B)
    (v : B) st b st' :
  (forall a st1, k a st1 = Ok (b, st') -> b = v) ->
  bind m k st = Ok (b, st') -> b = v.
Proof.
  intros Hk H. apply bind_inv in H. destruct H as [a [st1 [_ H]]].
  exact (Hk a st1 H).
Qed.

Lemma ret_result {B : Type} (v : B) st b st' :
  ret (Fn:=Fn) v st = Ok (b, st') -> b = v.
Proof. intros H. inversion H. reflexivity. Qed.

Lemma LiftIntoBlock_result this st b st' :
  LiftIntoBlock FLAGS_os M lifter this st = Ok (b, st') ->
  b = match classify this with CatFallThrough => true | _ => false end.
Proof.
  rewrite LiftIntoBlock_by_category. cbv zeta.
  destruct (classify this);
    repeat (apply bind_result; intros ? ?); apply ret_result.
Qed.

Lemma direct_jump_category this :
  XED_ICLASS_HLT <> XED_ICLASS_JMP ->
  IsDirectJump this = true -> classify this = CatDirectJump.
Proof.
  intros Hne Hj. unfold classify. rewrite Hj.
  unfold IsDirectJump in Hj. cbv zeta in Hj.
  apply andb_true_iff in Hj. destruct Hj as [Hj _].
  apply Z.eqb_eq in Hj. unfold IsError.
  destruct (XED_ICLASS_HLT =? iclass this) eqn:E; [|reflexivity].
  apply Z.eqb_eq in E. congruence.
Qed.

(** ** Conditional branches *)

Lemma push_in_created_last (x : Inst Fn) (name : string)
    (insts : list (Inst Fn)) (l r : list (string * list (Inst Fn))) :
  push_in_created (List.length l) x (l ++ (name, insts) :: r) =
  (l ++ (name, insts ++ [x]) :: r)%list.
Proof.
  induction l as [|[n i] l IH]; simpl; [reflexivity|].
  rewrite IH. reflexivity.
Qed.

Lemma push_in_created_second (x : Inst Fn) (b : string * list (Inst Fn))
    (name : string) (insts : list (Inst Fn))
    (l : list (string * list (Inst Fn))) :
  push_in_created (S (List.length l)) x (l ++ [b; (name, insts)]) =
  (l ++ [b; (name, insts ++ [x])])%list.
Proof.
  induction l as [|[n i] l IH].
  - destruct b. reflexivity.
  - change (push_in_created (S (List.length ((n, i) :: l))) x
              (((n, i) :: l) ++ [b; (name, insts)]))
      with ((n, i) :: push_in_created (S (List.length l)) x
                        (l ++ [b; (name, insts)])).
    rewrite IH. reflexivity.
Qed.

Lemma LiftConditionalBranch_run this st :
  IsDirectJump this || IsDirectFunctionCall this || IsBranch this = true ->
  let target_pc :=
    to_uint64 (address (instr this) + size (instr this)
               + xed_decoded_inst_get_branch_displacement (xedd this)) in
  let addr_width := xed_decoded_inst_get_machine_mode_bits (xedd this) in
  let Taken := BB_created (List.length (F_created st)) in
  let FallThrough := BB_created (S (List.length (F_created st))) in
  exists name lg,
    PCRegName (xedd this) st = Ok (name, extend st [] [] lg) /\
    let DestPC := VLoad (VLoad (VVar (name ++ "_read")) 0) 0 in
    let cond := VICmpEQ (ConstantInt_get addr_width target_pc false) DestPC in
    LiftConditionalBranch lifter this st =
    Ok (tt,
        {| B_insts :=
             (B_insts st
              ++ [IVal (VLoad (VVar (name ++ "_read")) 0); IVal DestPC;
                  IVal cond; ICondBr cond Taken FallThrough])%list;
           F_created :=
             (F_created st
              ++ [("branch_taken",
                   [ITailCall (GetLiftedBlockForPC lifter target_pc)]);
                  ("fall_through",
                   [ITailCall
                      (GetLiftedBlockForPC lifter (NextPC this))])])%list;
           args := args st;
           append_instrs := append_instrs st;
           logged := (logged st ++ lg)%list |}).
Proof.
  intros Hc. cbv zeta.
  destruct (PCRegName_run (xedd this) st) as [name [lg [Hn _]]].
  exists name, lg. split; [exact Hn|].
  unfold LiftConditionalBranch. cbv zeta.
  unfold bind at 1. rewrite TargetPC_run, Hc.
  rewrite (bind_Ok _ _ _ _ _ Hn).
  unfold CreateLoad, CreateAlignedLoad.
  unfold bind at 1. rewrite Insert_run.
  unfold bind at 1. rewrite Insert_run.
  rewrite !extend_extend.
  destruct st as [bi fc ar ai lg0].
  cbv [bind BasicBlock_Create AddTerminatingTailCall CreateICmpEQ
       ConstantInt_get CreateCondBr Insert emit ret extend FindVarInFunction
       B_insts F_created args append_instrs logged].
  rewrite length_app. cbn [List.length Nat.add].
  replace (List.length fc + 1)%nat with (S (List.length fc)) by lia.
  rewrite <- !app_assoc. cbn [app].
  rewrite (push_in_created_last _ "branch_taken" [] fc
             [("fall_through", [])]).
  cbn [app]. rewrite push_in_created_second. cbn [app].
  rewrite !app_nil_r. unfold to_uint64. rewrite Z.mod_mod by lia.
  reflexivity.
Qed.

(** ** The stages of a control transfer *)

Lemma staged_of_run this st st1 st2 st' (tail : list (Inst Fn))
    (last : Inst Fn) :
  LiftPC this st = Ok (tt, st1) ->
  LiftGeneric FLAGS_os M lifter this st1 = Ok (tt, st2) ->
  B_insts st' = (B_insts st2 ++ tail ++ [last])%list ->
  forallb (fun x => negb (is_terminator x)) tail = true ->
  is_terminator last = true ->
  staged FLAGS_os M lifter this st st' last.
Proof.
  intros H1 H2 H3 H4 H5.
  destruct (LiftPC_run this st) as [name [lg [Hn Hpc]]].
  rewrite Hpc in H1. inversion H1; subst st1; clear H1.
  destruct (LiftGeneric_inv this _ _ H2) as [bi [cs [lg' [Hst2 [_ Hcall]]]]].
  exists name, (extend st [] [] lg). eexists. exists st2, bi, tail.
  split; [exact Hn|]. split; [exact Hpc|]. split; [reflexivity|].
  split; [exact H2|]. split; [rewrite Hst2; reflexivity|].
  split; [exact Hcall|]. split; [exact H3|]. split; assumption.
Qed.

Lemma staged_tail_call this (callee : Fn) (after : IR Fn bool) st b st' :
  (forall s r s', after s = Ok (r, s') -> B_insts s' = B_insts s) ->
  bind (LiftPC this) (fun _ =>
    bind (LiftGeneric FLAGS_os M lifter this) (fun _ =>
      bind (AddTerminatingTailCall BB_B callee) (fun _ => after))) st
  = Ok (b, st') ->
  staged FLAGS_os M lifter this st st' (ITailCall callee).
Proof.
  intros Hafter H.
  apply bind_inv in H. destruct H as [[] [st1 [H1 H]]].
  apply bind_inv in H. destruct H as [[] [st2 [H2 H]]].
  apply bind_inv in H. destruct H as [[] [st3 [H3 H]]].
  rewrite tail_call_B_run in H3. inversion H3; subst st3; clear H3.
  apply Hafter in H.
  apply (staged_of_run this st st1 st2 st' [] (ITailCall callee) H1 H2);
    [rewrite H; reflexivity|reflexivity|reflexivity].
Qed.

Lemma ret_keeps_B (v : bool) (s : LiftState Fn) (r : bool) s' :
  ret v s = Ok (r, s') -> B_insts s' = B_insts s.
Proof. intros H. inversion H. reflexivity. Qed.

Lemma warn_keeps_B (msg : string) (v : bool) (s : LiftState Fn) (r : bool) s' :
  bind (LOG WARNING msg) (fun _ => ret v) s = Ok (r, s') ->
  B_insts s' = B_insts s.
Proof.
  unfold bind. rewrite LOG_run. intros H. inversion H. simpl.
  apply app_nil_r.
Qed.

(** C2, as the code has it.  When [LiftIntoBlock] returns on an indirect
    jump, a direct or indirect function call, a return, a branch, a
    system call or return or an interrupt call or return, it has first
    stored the next program counter into the [_write] slot of the
    program counter register, then run the generic pass, and only then
    inserted the terminating transfer.  On an error and on a direct jump
    the terminating transfer is all it inserts; on any other instruction
    it is the generic pass alone. *)
Theorem LiftIntoBlock_stages this st b st' :
  LiftIntoBlock FLAGS_os M lifter this st = Ok (b, st') ->
  match classify this with
  | CatError => st' = extend st [ITailCall (error lifter)] [] []
  | CatDirectJump =>
      exists target_pc,
        TargetPC this st = Ok (target_pc, st) /\
        st' = extend st [ITailCall (GetLiftedBlockForPC lifter target_pc)]
                [] []
  | CatIndirectJump =>
      staged FLAGS_os M lifter this st st' (ITailCall (jump lifter))
  | CatDirectFunctionCall =>
      exists target_pc,
        TargetPC this st = Ok (target_pc, st) /\
        staged FLAGS_os M lifter this st st'
          (ITailCall (GetLiftedBlockForPC lifter target_pc))
  | CatIndirectFunctionCall =>
      staged FLAGS_os M lifter this st st' (ITailCall (function_call lifter))
  | CatFunctionReturn =>
      staged FLAGS_os M lifter this st st'
        (ITailCall (function_return lifter))
  | CatBranch =>
      exists cond taken fall_through,
        staged FLAGS_os M lifter this st st'
          (ICondBr cond taken fall_through)
  | CatSystemCall =>
      staged FLAGS_os M lifter this st st' (ITailCall (system_call lifter))
  | CatSystemReturn =>
      staged FLAGS_os M lifter this st st' (ITailCall (system_return lifter))
  | CatInterruptCall =>
      staged FLAGS_os M lifter this st st'
        (ITailCall (interrupt_call lifter))
  | CatInterruptReturn =>
      staged FLAGS_os M lifter this st st'
        (ITailCall (interrupt_return lifter))
  | CatFallThrough => LiftGeneric FLAGS_os M lifter this st = Ok (tt, st')
  end.
Proof.
  rewrite LiftIntoBlock_by_category. cbv zeta.
  destruct (classify this); intros H;
    try (apply (staged_tail_call this _ _ st b st' (ret_keeps_B false) H));
    try (apply (staged_tail_call this _ _ st b st' (warn_keeps_B _ false) H)).
  - unfold bind in H. rewrite tail_call_B_run in H. inversion H. reflexivity.
  - apply bind_inv in H. destruct H as [t [st1 [H1 H]]].
    rewrite TargetPC_run in H1. rewrite TargetPC_run.
    destruct (_ || _); [|discriminate]. inversion H1; subst t st1.
    eexists. split; [reflexivity|].
    unfold bind in H. rewrite tail_call_B_run in H. inversion H. reflexivity.
  - apply bind_inv in H. destruct H as [[] [st1 [H1 H]]].
    apply bind_inv in H. destruct H as [[] [st2 [H2 H]]].
    apply bind_inv in H. destruct H as [t [st3 [H3 H]]].
    rewrite TargetPC_run in H3. rewrite TargetPC_run.
    destruct (_ || _); [|discriminate]. inversion H3; subst t st3; clear H3.
    eexists. split; [reflexivity|].
    unfold bind in H. rewrite tail_call_B_run in H. inversion H.
    apply (staged_of_run this st st1 st2 _ [] _ H1 H2); reflexivity.
  - apply bind_inv in H. destruct H as [[] [st1 [H1 H]]].
    apply bind_inv in H. destruct H as [[] [st2 [H2 H]]].
    apply bind_inv in H. destruct H as [[] [st3 [H3 H]]].
    inversion H; subst b st3; clear H.
    assert (Hc : IsDirectJump this || IsDirectFunctionCall this
                 || IsBranch this = true).
    { unfold LiftConditionalBranch in H3. cbv zeta in H3.
      apply bind_inv in H3. destruct H3 as [t [s [Ht _]]].
      rewrite TargetPC_run in Ht. destruct (_ || _); [reflexivity|].
      discriminate. }
    destruct (LiftConditionalBranch_run this st2 Hc) as [name [lg [_ Hrun]]].
    cbv zeta in Hrun. rewrite Hrun in H3. inversion H3; clear H3.
    eexists; eexists; eexists.
    eapply (staged_of_run this st st1 st2 _ [_; _; _] _ H1 H2);
      reflexivity.
  - apply bind_inv in H. destruct H as [[] [st1 [H1 H]]].
    inversion H; subst. exact H1.
Qed.

(** ** Instructions the lifter goes through with *)

Lemma LiftImmediate_run this (op_name : xed_operand_enum_t) st :
  is_immediate_name op_name = true ->
  (xed_decoded_inst_get_immediate_width_bits (xedd this)
   <=? xed_decoded_inst_get_operand_width (xedd this)) = true ->
  exists pattern,
    LiftImmediate this op_name st =
    Ok (tt, extend st []
              [VConst (xed_decoded_inst_get_operand_width (xedd this))
                 pattern] []).
Proof.
  intros Hn Hw. unfold LiftImmediate. cbv zeta.
  unfold bind at 1. unfold CHECK. rewrite Hw. unfold ret at 1.
  destruct op_name; try discriminate; simpl;
    destruct (xed_operand_values_get_immediate_is_signed (xedd this));
    unfold bind, ret; rewrite args_push_back_run; eexists; reflexivity.
Qed.

Lemma LiftOperand_total this (op_num : nat) st :
  operand_liftable this (xed_inst_operand (xedd this) op_num) = true ->
  exists bi c, LiftOperand lifter this op_num st = Ok (tt, extend st bi c []).
Proof.
  unfold operand_liftable, LiftOperand, visible. cbv zeta.
  set (xedo := xed_inst_operand (xedd this) op_num).
  assert (Hvis : forall st,
             match xed_operand_name xedo with
             | XED_OPERAND_AGEN | XED_OPERAND_MEM0 => true
             | XED_OPERAND_IMM0SIGNED | XED_OPERAND_IMM0
             | XED_OPERAND_IMM1_BYTES | XED_OPERAND_IMM1 =>
                 xed_decoded_inst_get_immediate_width_bits (xedd this)
                 <=? xed_decoded_inst_get_operand_width (xedd this)
             | XED_OPERAND_REG0 | XED_OPERAND_REG1
             | XED_OPERAND_REG2 | XED_OPERAND_REG3 => true
             | XED_OPERAND_RELBR =>
                 IsDirectJump this || IsDirectFunctionCall this
                 || IsBranch this
             | _ => false
             end = true ->
             exists bi c,
               match xed_operand_name xedo with
               | XED_OPERAND_AGEN | XED_OPERAND_MEM0 =>
                   LiftMemory lifter this xedo op_num
               | XED_OPERAND_IMM0SIGNED | XED_OPERAND_IMM0
               | XED_OPERAND_IMM1_BYTES | XED_OPERAND_IMM1 =>
                   LiftImmediate this (xed_operand_name xedo)
               | XED_OPERAND_PTR =>
                   LOG_FATAL "Unsupported operand type: XED_OPERAND_PTR"
               | XED_OPERAND_REG0 | XED_OPERAND_REG1
               | XED_OPERAND_REG2 | XED_OPERAND_REG3 =>
                   LiftRegister this xedo
               | XED_OPERAND_RELBR => LiftBranchDisplacement this
               | _ => LOG_FATAL "Unexpected operand type"
               end st = Ok (tt, extend st bi c [])).
  { clear st. intros st H.
    destruct (xed_operand_name xedo) eqn:En; try discriminate;
      try (destruct (LiftMemory_run this xedo op_num st)
             as [bi [raw [_ Hr]]];
           eexists; eexists; exact Hr);
      try (destruct (LiftRegister_run this xedo st) as [bi Hr];
           eexists; eexists; exact Hr);
      try (destruct (LiftImmediate_run this (xed_operand_name xedo) st)
             as [p Hr];
           [rewrite En; reflexivity|exact H|];
           rewrite En in Hr; eexists; eexists; exact Hr).
    unfold LiftBranchDisplacement. cbv zeta. unfold bind.
    rewrite TargetPC_run, H, args_push_back_run.
    eexists; eexists; reflexivity. }
  destruct (xed_operand_operand_visibility xedo); simpl; intros H;
    try (apply Hvis; exact H).
  exists [], []. rewrite extend_nil. reflexivity.
Qed.

Lemma for_each_operands_total this (l : list nat) :
  (forall i, In i l ->
             operand_liftable this (xed_inst_operand (xedd this) i) = true) ->
  forall st,
  exists bi ar,
    for_each l (fun i => LiftOperand lifter this i) st
    = Ok (tt, extend st bi ar []).
Proof.
  induction l as [|i l IH]; intros Hl st; simpl.
  - exists [], []. rewrite extend_nil. reflexivity.
  - destruct (LiftOperand_total this i st (Hl i (or_introl eq_refl)))
      as [bi [c Hi]].
    destruct (IH (fun j Hj => Hl j (or_intror Hj)) (extend st bi c []))
      as [bi' [ar Hrest]].
    unfold bind. rewrite Hi, Hrest, extend_extend.
    eexists; eexists; reflexivity.
Qed.

Lemma LiftGeneric_total this st :
  liftable FLAGS_os M this = true ->
  exists st', LiftGeneric FLAGS_os M lifter this st = Ok (tt, st').
Proof.
  unfold liftable. intros H. apply andb_true_iff in H.
  destruct H as [Hops Hsem].
  unfold LiftGeneric. cbv zeta.
  unfold bind at 1. rewrite args_push_back_run.
  assert (Hall : forall i,
             In i (seq 0 (xed_decoded_inst_noperands (xedd this))) ->
             operand_liftable this (xed_inst_operand (xedd this) i) = true).
  { intros i Hi. apply in_seq in Hi.
    rewrite forallb_forall in Hops. apply Hops.
    unfold xed_inst_operand. apply nth_In.
    unfold xed_decoded_inst_noperands in Hi. lia. }
  destruct (for_each_operands_total this _ Hall (extend st [] [VArg0] []))
    as [bi [ar Hfor]].
  unfold bind at 1. rewrite Hfor.
  destruct (getFunction M (InstructionFunctionName FLAGS_os (xedd this))).
  - unfold bind, get_args, CreateCall, get_append_instrs, ret.
    rewrite Insert_run, for_each_emit. eexists; reflexivity.
  - destruct (getGlobalVariable M
                (InstructionFunctionName FLAGS_os (xedd this))).
    + unfold bind, CHECK, get_args, CreateCall, get_append_instrs, ret.
      rewrite Hsem. rewrite Insert_run, for_each_emit.
      eexists; reflexivity.
    + unfold bind, get_append_instrs. rewrite LOG_run, for_each_emit.
      eexists; reflexivity.
Qed.

Lemma LiftPC_then_generic_total this st :
  liftable FLAGS_os M this = true ->
  exists st1 st2,
    LiftPC this st = Ok (tt, st1) /\
    LiftGeneric FLAGS_os M lifter this st1 = Ok (tt, st2).
Proof.
  intros Hl. destruct (LiftPC_run this st) as [name [lg [_ Hpc]]].
  destruct (LiftGeneric_total this
              (extend st
                 [IVal (VLoad (VVar (name ++ "_write")) 0);
                  IStore (ConstantInt_get
                            (xed_decoded_inst_get_machine_mode_bits
                               (xedd this))
                            (NextPC this) false)
                         (VLoad (VVar (name ++ "_write")) 0)] [] lg) Hl)
    as [st2 Hg].
  eexists; exists st2. split; [exact Hpc|exact Hg].
Qed.

Lemma LiftIntoBlock_total this st :
  liftable FLAGS_os M this = true ->
  exists st',
    LiftIntoBlock FLAGS_os M lifter this st
    = Ok (negb (is_control_flow this), st').
Proof.
  intros Hl.
  assert (Hb : negb (is_control_flow this)
               = match classify this with
                 | CatFallThrough => true
                 | _ => false
                 end).
  { destruct (is_control_flow this) eqn:E.
    - destruct (classify this) eqn:Ec; try reflexivity.
      apply classify_fall_through in Ec. congruence.
    - apply classify_fall_through in E. rewrite E. reflexivity. }
  rewrite Hb. rewrite LiftIntoBlock_by_category. cbv zeta.
  destruct (LiftPC_then_generic_total this st Hl) as [st1 [st2 [H1 H2]]].
  destruct (classify this) eqn:Ec;
    try (rewrite (bind_Ok _ _ _ _ _ H1), (bind_Ok _ _ _ _ _ H2);
         unfold bind; rewrite tail_call_B_run; try rewrite LOG_run;
         eexists; reflexivity).
  - unfold bind. rewrite tail_call_B_run. eexists; reflexivity.
  - unfold classify in Ec.
    destruct (IsError this); [discriminate|].
    destruct (IsDirectJump this) eqn:Ej.
    + unfold bind at 1. rewrite TargetPC_run, Ej. simpl orb. cbv iota beta.
      unfold bind. rewrite tail_call_B_run. eexists; reflexivity.
    + destruct (IsIndirectJump this), (IsDirectFunctionCall this),
        (IsIndirectFunctionCall this), (IsFunctionReturn this),
        (IsBranch this), (IsSystemCall this), (IsSystemReturn this),
        (IsInterruptCall this), (IsInterruptReturn this); discriminate.
  - rewrite (bind_Ok _ _ _ _ _ H1), (bind_Ok _ _ _ _ _ H2).
    assert (Hc : IsDirectFunctionCall this = true).
    { unfold classify in Ec.
      destruct (IsError this); [discriminate|].
      destruct (IsDirectJump this); [discriminate|].
      destruct (IsIndirectJump this); [discriminate|].
      destruct (IsDirectFunctionCall this); [reflexivity|].
      destruct (IsIndirectFunctionCall this), (IsFunctionReturn this),
        (IsBranch this), (IsSystemCall this), (IsSystemReturn this),
        (IsInterruptCall this), (IsInterruptReturn this); discriminate. }
    unfold bind at 1. rewrite TargetPC_run, Hc, orb_true_r. simpl orb.
    cbv iota beta. unfold bind. rewrite tail_call_B_run.
    eexists; reflexivity.
  - rewrite (bind_Ok _ _ _ _ _ H1), (bind_Ok _ _ _ _ _ H2).
    assert (Hc : IsBranch this = true).
    { unfold classify in Ec.
      destruct (IsError this); [discriminate|].
      destruct (IsDirectJump this); [discriminate|].
      destruct (IsIndirectJump this); [discriminate|].
      destruct (IsDirectFunctionCall this); [discriminate|].
      destruct (IsIndirectFunctionCall this); [discriminate|].
      destruct (IsFunctionReturn this); [discriminate|].
      destruct (IsBranch this); [reflexivity|].
      destruct (IsSystemCall this), (IsSystemReturn this),
        (IsInterruptCall this), (IsInterruptReturn this); discriminate. }
    assert (Hc' : IsDirectJump this || IsDirectFunctionCall this
                  || IsBranch this = true).
    { rewrite Hc. apply orb_true_r. }
    destruct (LiftConditionalBranch_run this st2 Hc') as [name [lg [_ Hr]]].
    cbv zeta in Hr. unfold bind. rewrite Hr. eexists; reflexivity.
  - destruct (LiftGeneric_total this st Hl) as [st' Hg].
    rewrite (bind_Ok _ _ _ _ _ Hg). eexists; reflexivity.
Qed.

(** C1.  [LiftIntoBlock] returns [true] exactly when no control-flow
    classification predicate holds of the instruction: that is the flag
    whenever it returns, and it does return, with that flag, on every
    instruction the lifter goes through with.  On a direct jump it
    always returns, with [false], and all it does is end the block with
    one transfer to the block resolved for the target [A + S + D]:
    nothing else is inserted, pushed or logged. *)
Theorem LiftIntoBlock_fall_through this st :
  XED_ICLASS_HLT <> XED_ICLASS_JMP ->
  (forall b st',
      LiftIntoBlock FLAGS_os M lifter this st = Ok (b, st') ->
      (b = true <-> is_control_flow this = false)) /\
  (liftable FLAGS_os M this = true ->
   exists st',
     LiftIntoBlock FLAGS_os M lifter this st
     = Ok (negb (is_control_flow this), st')) /\
  (IsDirectJump this = true ->
   LiftIntoBlock FLAGS_os M lifter this st =
   Ok (false,
       extend st
         [ITailCall
            (GetLiftedBlockForPC lifter
               (to_uint64
                  (address (instr this) + size (instr this)
                   + xed_decoded_inst_get_branch_displacement (xedd this))))]
         [] [])).
Proof.
  intros Hne. split; [|split].
  - intros b st' H. apply LiftIntoBlock_result in H. subst b.
    rewrite <- classify_fall_through.
    destruct (classify this); split; intros H; try reflexivity;
      discriminate.
  - apply LiftIntoBlock_total.
  - intros Hj. rewrite LiftIntoBlock_by_category.
    rewrite (direct_jump_category this Hne Hj). cbv zeta.
    unfold bind at 1. rewrite TargetPC_run, Hj. simpl orb. cbv iota beta.
    unfold bind. rewrite tail_call_B_run. reflexivity.
Qed.

(** ** Conditional branches, lifted *)

Lemma PCRegName_name_independent (x : xed_decoded_inst_t) st st'
    (n n' : string) (s s' : LiftState Fn) :
  PCRegName x st = Ok (n, s) -> PCRegName x st' = Ok (n', s') -> n = n'.
Proof.
  unfold PCRegName. cbv zeta.
  destruct (_ =? 64); [intros H H'; inversion H; inversion H'; congruence|].
  destruct (_ =? 32); [intros H H'; inversion H; inversion H'; congruence|].
  destruct (_ =? 16); [intros H H'; inversion H; inversion H'; congruence|].
  unfold bind. rewrite !LOG_run. intros H H'.
  inversion H; inversion H'; congruence.
Qed.

Lemma branch_category this : classify this = CatBranch -> IsBranch this = true.
Proof.
  unfold classify.
  destruct (IsError this); [discriminate|].
  destruct (IsDirectJump this); [discriminate|].
  destruct (IsIndirectJump this); [discriminate|].
  destruct (IsDirectFunctionCall this); [discriminate|].
  destruct (IsIndirectFunctionCall this); [discriminate|].
  destruct (IsFunctionReturn this); [discriminate|].
  destruct (IsBranch this); [reflexivity|].
  destruct (IsSystemCall this), (IsSystemReturn this),
    (IsInterruptCall this), (IsInterruptReturn this); discriminate.
Qed.

(** C5.  Lifting a conditional branch creates exactly two blocks,
    [branch_taken] and [fall_through]; the first ends with the transfer
    to the block resolved for [TargetPC], the second with the transfer
    to the block resolved for [NextPC]; the insertion block ends with a
    conditional transfer on the equality of the constant [TargetPC] and
    the value loaded through the [_read] slot of the program counter
    register, which goes to [branch_taken] when they are equal and to
    [fall_through] otherwise.  That is what [LiftConditionalBranch]
    does, and what is left of it when [LiftIntoBlock] returns on an
    instruction it treats as a branch. *)
Theorem LiftConditionalBranch_two_blocks this st :
  IsBranch this = true ->
  exists target_pc name st0,
    TargetPC this st = Ok (target_pc, st) /\
    PCRegName (xedd this) st = Ok (name, st0) /\
    let DestPC := VLoad (VLoad (VVar (name ++ "_read")) 0) 0 in
    let BranchPC :=
      ConstantInt_get (xed_decoded_inst_get_machine_mode_bits (xedd this))
        target_pc false in
    let created :=
      [("branch_taken", [ITailCall (GetLiftedBlockForPC lifter target_pc)]);
       ("fall_through",
        [ITailCall (GetLiftedBlockForPC lifter (NextPC this))])] in
    let transfer :=
      ICondBr (VICmpEQ BranchPC DestPC)
        (BB_created (List.length (F_created st)))
        (BB_created (S (List.length (F_created st)))) in
    (exists st',
        LiftConditionalBranch lifter this st = Ok (tt, st') /\
        F_created st' = (F_created st ++ created)%list /\
        B_insts st' =
          (B_insts st
           ++ [IVal (VLoad (VVar (name ++ "_read")) 0); IVal DestPC;
               IVal (VICmpEQ BranchPC DestPC); transfer])%list) /\
    (classify this = CatBranch ->
     forall b st'',
       LiftIntoBlock FLAGS_os M lifter this st = Ok (b, st'') ->
       b = false /\
       F_created st'' = (F_created st ++ created)%list /\
       exists before, B_insts st'' = (before ++ [transfer])%list).
Proof.
  intros Hb.
  assert (Hc : IsDirectJump this || IsDirectFunctionCall this
               || IsBranch this = true).
  { rewrite Hb. apply orb_true_r. }
  destruct (LiftConditionalBranch_run this st Hc) as [name [lg [Hn Hrun]]].
  cbv zeta in Hrun.
  eexists; exists name; eexists.
  split; [rewrite TargetPC_run, Hc; reflexivity|].
  split; [exact Hn|]. cbv zeta. split.
  - eexists. split; [exact Hrun|]. split; reflexivity.
  - intros Ec b st'' H.
    rewrite LiftIntoBlock_by_category, Ec in H. cbv zeta in H.
    apply bind_inv in H. destruct H as [[] [st1 [H1 H]]].
    apply bind_inv in H. destruct H as [[] [st2 [H2 H]]].
    apply bind_inv in H. destruct H as [[] [st3 [H3 H]]].
    inversion H; subst b st3; clear H.
    destruct (LiftPC_run this st) as [name1 [lg1 [_ Hpc]]].
    rewrite Hpc in H1. inversion H1; subst st1; clear H1.
    destruct (LiftGeneric_inv this _ _ H2) as [bi [cs [lg2 [Hst2 _]]]].
    destruct (LiftConditionalBranch_run this st2 Hc)
      as [name2 [lg3 [Hn2 Hrun2]]].
    cbv zeta in Hrun2. rewrite Hrun2 in H3. inversion H3; clear H3.
    rewrite (PCRegName_name_independent _ _ _ _ _ _ _ Hn2 Hn).
    assert (HF : F_created st2 = F_created st).
    { rewrite Hst2. reflexivity. }
    simpl F_created. simpl B_insts. rewrite HF.
    split; [reflexivity|]. split; [reflexivity|].
    eexists (B_insts st2 ++ [_; _; _])%list.
    rewrite <- app_assoc. reflexivity.
Qed.

(** ** The argument list *)

(** C4.  The generic pass appends to the argument list the machine-state
    argument and then, for the visible operands in decode order, what
    each contributes: a register operand its write handle if it is
    written and then its value if it is read, a memory operand one and
    the same address once if it is written and once more if it is read,
    an immediate or a branch displacement one constant.  An operand that
    is both written and read thus contributes two entries, the one for
    the write slot first.  That list is what the semantics function is
    called on, whether the module has it as a function or as the
    initializer of a constant variable: the call is inserted after what
    the operands need and before the fix-ups, and its actuals are the
    argument list as the pass leaves it. *)
Theorem LiftGeneric_argument_order this st st' :
  LiftGeneric FLAGS_os M lifter this st = Ok (tt, st') ->
  let func_name := InstructionFunctionName FLAGS_os (xedd this) in
  (exists cs,
      args st' = (args st ++ VArg0 :: List.concat cs)%list /\
      Forall2 (contributes this)
        (filter visible (xed_decoded_inst_operands (xedd this))) cs) /\
  (forall xedo (w r : Value Fn),
      xed_operand_written xedo = true ->
      xed_operand_read xedo = true ->
      per_role xedo w r = [w; r]) /\
  (forall F',
      getFunction M func_name = Some F' ->
      In (IVal (VCall F' (args st'))) (B_insts st') /\
      exists before,
        B_insts st' =
        (B_insts st ++ before
         ++ IVal (VCall F' (args st')) :: append_instrs st)%list) /\
  (forall FP,
      getFunction M func_name = None ->
      getGlobalVariable M func_name = Some FP ->
      In (IVal (VCall (getInitializer FP) (args st'))) (B_insts st') /\
      exists before,
        B_insts st' =
        (B_insts st ++ before
         ++ IVal (VCall (getInitializer FP) (args st'))
         :: append_instrs st)%list).
Proof.
  intros H func_name.
  destruct (LiftGeneric_inv this st st' H) as [bi [cs [lg [Hst [Hcs _]]]]].
  pose proof (LiftGeneric_call_inv this st st' H) as Hcall.
  cbv zeta in Hcall. fold func_name in Hcall.
  assert (Hin : forall callee before,
             B_insts st' =
             (B_insts st ++ before
              ++ IVal (VCall callee (args st')) :: append_instrs st)%list ->
             In (IVal (VCall callee (args st'))) (B_insts st')).
  { intros callee before ->.
    apply in_or_app. right. apply in_or_app. right. left. reflexivity. }
  split; [|split; [|split]].
  - exists cs. split; [rewrite Hst; reflexivity|exact Hcs].
  - intros xedo w r Hw Hr. unfold per_role. rewrite Hw, Hr. reflexivity.
  - intros F' HF. destruct (Hcall F' (or_introl HF)) as [before Hb].
    split; [exact (Hin _ _ Hb)|exists before; exact Hb].
  - intros FP HF HG.
    destruct (Hcall (getInitializer FP)) as [before Hb].
    { right. split; [exact HF|]. exists FP. split; [exact HG|reflexivity]. }
    split; [exact (Hin _ _ Hb)|exists before; exact Hb].
Qed.

(** ** Addresses *)

(** C7.  On a [POP] whose memory operand has a base register of the
    stack pointer family, the base part of the address is the value of
    that register plus the address width in bytes.  The two register
    facts say that neither "no register" nor the instruction pointer
    belongs to that family. *)
Theorem LiftMemory_pop_stack_pointer this xedo (op_num : nat) st :
  let mem_index :=
    if operand_eqb XED_OPERAND_MEM1 (xed_operand_name xedo) then 1 else 0 in
  let base := xed_decoded_inst_get_base_reg (xedd this) mem_index in
  let addr_width := xed_decoded_inst_get_machine_mode_bits (xedd this) in
  let tag :=
    AddressSpace (xed_decoded_inst_get_seg_reg (xedd this) mem_index)
      (xed_operand_name xedo) in
  xed_get_largest_enclosing_register XED_REG_INVALID <> XED_REG_RSP ->
  xed_get_largest_enclosing_register XED_REG_RIP <> XED_REG_RSP ->
  iclass this = XED_ICLASS_POP ->
  xed_get_largest_enclosing_register base = XED_REG_RSP ->
  exists bi IS D,
    let B := VAdd (address_part this base)
               (ConstantInt_get addr_width (addr_width / 8) false) in
    let A := routed lifter tag (VAdd (VAdd B IS) D) in
    LiftMemory lifter this xedo op_num st =
    Ok (tt, extend st bi (per_role xedo A A) []).
Proof.
  intros mem_index base addr_width tag Hinv Hrip Hpop Hsp.
  destruct (LiftMemory_run this xedo op_num st) as [bi [raw [Hshape Hrun]]].
  fold mem_index tag in Hrun.
  unfold memory_address_shape in Hshape. cbv zeta in Hshape.
  fold mem_index base addr_width in Hshape.
  assert (Hb : base <> XED_REG_INVALID) by congruence.
  assert (Hr : base <> XED_REG_RIP) by congruence.
  assert (E1 : (XED_REG_INVALID =? base) = false).
  { apply Z.eqb_neq. congruence. }
  assert (E2 : (XED_REG_RIP =? base) = false).
  { apply Z.eqb_neq. congruence. }
  rewrite E1, E2 in Hshape. simpl andb in Hshape. cbv iota in Hshape.
  destruct Hshape as [B [IS [D [-> HB]]]].
  rewrite (HB Hb) in Hrun.
  rewrite Hpop, Hsp, !Z.eqb_refl in Hrun. simpl andb in Hrun.
  cbv iota in Hrun.
  exists bi, IS, D. exact Hrun.
Qed.

(** C8.  The address-space tag is 0 for an address-generation operand
    whatever its segment, 256 for a [GS] override and 257 for an [FS]
    override on any other operand, and 0 for every other segment.  The
    address a memory operand contributes is the result of the
    segmented-address helper, called on the machine state, the plain
    address and the tag, exactly when the tag is not 0; otherwise it is
    the plain address. *)
Theorem LiftMemory_segment_routing this xedo (op_num : nat) st :
  XED_REG_GS <> XED_REG_FS ->
  let mem_index :=
    if operand_eqb XED_OPERAND_MEM1 (xed_operand_name xedo) then 1 else 0 in
  let tag :=
    AddressSpace (xed_decoded_inst_get_seg_reg (xedd this) mem_index)
      (xed_operand_name xedo) in
  ((forall seg, AddressSpace seg XED_OPERAND_AGEN = 0) /\
   (forall name,
       name <> XED_OPERAND_AGEN -> AddressSpace XED_REG_GS name = 256) /\
   (forall name,
       name <> XED_OPERAND_AGEN -> AddressSpace XED_REG_FS name = 257) /\
   (forall seg name,
       seg <> XED_REG_GS -> seg <> XED_REG_FS -> AddressSpace seg name = 0)) /\
  exists bi raw A,
    plain_address raw /\
    LiftMemory lifter this xedo op_num st =
      Ok (tt, extend st bi (per_role xedo A A) []) /\
    A = (if tag =? 0 then raw
         else VCall (compute_address lifter)
                [VStatePtr; raw; ConstantInt_get 32 tag true]) /\
    (through_helper lifter A <-> tag <> 0).
Proof.
  intros Hne mem_index tag. split.
  - unfold AddressSpace. split; [|split; [|split]].
    + intros seg. reflexivity.
    + intros name Hn.
      destruct (operand_eqb XED_OPERAND_AGEN name) eqn:E.
      * destruct name; try discriminate. congruence.
      * rewrite Z.eqb_refl. reflexivity.
    + intros name Hn.
      destruct (operand_eqb XED_OPERAND_AGEN name) eqn:E.
      * destruct name; try discriminate. congruence.
      * destruct (XED_REG_GS =? XED_REG_FS) eqn:E'.
        -- apply Z.eqb_eq in E'. contradiction.
        -- rewrite Z.eqb_refl. reflexivity.
    + intros seg name Hg Hf.
      destruct (operand_eqb XED_OPERAND_AGEN name); [reflexivity|].
      destruct (XED_REG_GS =? seg) eqn:E1;
        [apply Z.eqb_eq in E1; congruence|].
      destruct (XED_REG_FS =? seg) eqn:E2;
        [apply Z.eqb_eq in E2; congruence|].
      reflexivity.
  - destruct (LiftMemory_run this xedo op_num st) as [bi [raw [Hshape Hrun]]].
    fold mem_index tag in Hrun.
    assert (Hplain : plain_address raw).
    { unfold memory_address_shape in Hshape. cbv zeta in Hshape.
      destruct (_ && _); [subst raw; exact I|].
      destruct (XED_REG_RIP =? _); [subst raw; exact I|].
      destruct Hshape as [B [IS [D [-> _]]]]. exact I. }
    exists bi, raw, (routed lifter tag raw).
    split; [exact Hplain|]. split; [exact Hrun|]. split; [reflexivity|].
    unfold routed, through_helper.
    destruct (tag =? 0) eqn:Et.
    + apply Z.eqb_eq in Et. split; [|contradiction].
      intros [actuals Ha]. rewrite Ha in Hplain. contradiction.
    + apply Z.eqb_neq in Et. split; [intros _; exact Et|].
      intros _. eexists. reflexivity.
Qed.

(** ** The name of the program counter register *)

(** C9, as the code has it.  For an effective address width other than
    64, 32 and 16 the name is the empty string and an error is logged;
    the run goes on.  For those three widths the names are [RIP], [EIP]
    and [IP] and nothing is logged. *)
Theorem PCRegName_unrecognized_width (x : xed_decoded_inst_t) st :
  let w := xed_operand_values_get_effective_address_width x in
  (w <> 64 -> w <> 32 -> w <> 16 ->
   PCRegName x st =
   Ok ("", extend st [] [] [(ERROR, "Unexpected address width.")])) /\
  (w = 64 -> PCRegName x st = Ok ("RIP", st)) /\
  (w = 32 -> PCRegName x st = Ok ("EIP", st)) /\
  (w = 16 -> PCRegName x st = Ok ("IP", st)).
Proof.
  intros w. unfold PCRegName. cbv zeta. fold w.
  split; [|split; [|split]].
  - intros H64 H32 H16.
    apply Z.eqb_neq in H64, H32, H16. rewrite H64, H32, H16.
    unfold bind. rewrite LOG_run. reflexivity.
  - intros ->. reflexivity.
  - intros ->. reflexivity.
  - intros ->. reflexivity.
Qed.

(** ** Immediates *)

(** With the signedness flag clear, the second immediate is pushed
    zero-extended. *)
Lemma LiftImmediate_second_unsigned this st :
  xed_operand_values_get_immediate_is_signed (xedd this) = false ->
  xed_decoded_inst_get_immediate_width_bits (xedd this)
    <= xed_decoded_inst_get_operand_width (xedd this) ->
  LiftImmediate this XED_OPERAND_IMM1 st =
  Ok (tt, extend st []
            [ConstantInt_get (xed_decoded_inst_get_operand_width (xedd this))
               (to_uint64 (xed_decoded_inst_get_second_immediate (xedd this)))
               false] []).
Proof.
  intros Hf Hw. unfold LiftImmediate. cbv zeta.
  apply Z.leb_le in Hw. unfold bind at 1. unfold CHECK. rewrite Hw.
  unfold ret at 1. rewrite Hf. simpl. unfold bind, ret.
  rewrite args_push_back_run. reflexivity.
Qed.

(** With the signedness flag set, what is pushed for the second
    immediate is the first one, sign-extended. *)
Lemma LiftImmediate_second_flagged this st :
  xed_operand_values_get_immediate_is_signed (xedd this) = true ->
  xed_decoded_inst_get_immediate_width_bits (xedd this)
    <= xed_decoded_inst_get_operand_width (xedd this) ->
  LiftImmediate this XED_OPERAND_IMM1 st =
  Ok (tt, extend st []
            [ConstantInt_get (xed_decoded_inst_get_operand_width (xedd this))
               (to_uint64
                  (to_int64
                     (xed_decoded_inst_get_signed_immediate (xedd this))))
               true] []).
Proof.
  intros Hf Hw. unfold LiftImmediate. cbv zeta.
  apply Z.leb_le in Hw. unfold bind at 1. unfold CHECK. rewrite Hw.
  unfold ret at 1. rewrite Hf. simpl. unfold bind, ret.
  rewrite args_push_back_run. reflexivity.
Qed.

(** ** Where the lifter gives up *)

Lemma LiftOperand_ok_liftable this (op_num : nat) st st' :
  LiftOperand lifter this op_num st = Ok (tt, st') ->
  operand_liftable this (xed_inst_operand (xedd this) op_num) = true.
Proof.
  unfold LiftOperand, operand_liftable, visible. cbv zeta.
  set (xedo := xed_inst_operand (xedd this) op_num).
  assert (Hvis : match xed_operand_name xedo with
                 | XED_OPERAND_AGEN | XED_OPERAND_MEM0 =>
                     LiftMemory lifter this xedo op_num
                 | XED_OPERAND_IMM0SIGNED | XED_OPERAND_IMM0
                 | XED_OPERAND_IMM1_BYTES | XED_OPERAND_IMM1 =>
                     LiftImmediate this (xed_operand_name xedo)
                 | XED_OPERAND_PTR =>
                     LOG_FATAL "Unsupported operand type: XED_OPERAND_PTR"
                 | XED_OPERAND_REG0 | XED_OPERAND_REG1
                 | XED_OPERAND_REG2 | XED_OPERAND_REG3 =>
                     LiftRegister this xedo
                 | XED_OPERAND_RELBR => LiftBranchDisplacement this
                 | _ => LOG_FATAL "Unexpected operand type"
                 end st = Ok (tt, st') ->
                 match xed_operand_name xedo with
                 | XED_OPERAND_AGEN | XED_OPERAND_MEM0 => true
                 | XED_OPERAND_IMM0SIGNED | XED_OPERAND_IMM0
                 | XED_OPERAND_IMM1_BYTES | XED_OPERAND_IMM1 =>
                     xed_decoded_inst_get_immediate_width_bits (xedd this)
                     <=? xed_decoded_inst_get_operand_width (xedd this)
                 | XED_OPERAND_REG0 | XED_OPERAND_REG1
                 | XED_OPERAND_REG2 | XED_OPERAND_REG3 => true
                 | XED_OPERAND_RELBR =>
                     IsDirectJump this || IsDirectFunctionCall this
                     || IsBranch this
                 | _ => false
                 end = true).
  { assert (Himm : forall name,
               LiftImmediate (Fn:=Fn) this name st = Ok (tt, st') ->
               (xed_decoded_inst_get_immediate_width_bits (xedd this)
                <=? xed_decoded_inst_get_operand_width (xedd this)) = true).
    { intros name H. unfold LiftImmediate in H. cbv zeta in H.
      apply bind_inv in H. destruct H as [[] [s [H _]]].
      unfold CHECK in H. destruct (_ <=? _); [reflexivity|discriminate]. }
    destruct (xed_operand_name xedo); intros H;
      try reflexivity; try discriminate; try (apply (Himm _ H)).
    unfold LiftBranchDisplacement in H. cbv zeta in H.
    apply bind_inv in H. destruct H as [t [s [H _]]].
    rewrite TargetPC_run in H.
    destruct (_ || _); [reflexivity|discriminate]. }
  destruct (xed_operand_operand_visibility xedo); simpl; intros H;
    try (apply Hvis; exact H).
  reflexivity.
Qed.

Lemma for_each_operands_ok_liftable this (l : list nat) :
  forall st st',
    for_each l (fun i => LiftOperand lifter this i) st = Ok (tt, st') ->
    forall i, In i l ->
              operand_liftable this (xed_inst_operand (xedd this) i) = true.
Proof.
  induction l as [|j l IH]; intros st st' H i Hi; [contradiction|].
  simpl in H. apply bind_inv in H. destruct H as [[] [st1 [H1 H]]].
  destruct Hi as [<-|Hi].
  - apply (LiftOperand_ok_liftable _ _ _ _ H1).
  - apply (IH _ _ H i Hi).
Qed.

Lemma LiftGeneric_ok_liftable this st st' :
  LiftGeneric FLAGS_os M lifter this st = Ok (tt, st') ->
  liftable FLAGS_os M this = true.
Proof.
  unfold LiftGeneric, liftable. cbv zeta. intros H.
  apply bind_inv in H. destruct H as [[] [st1 [_ H]]].
  apply bind_inv in H. destruct H as [[] [st2 [H2 H]]].
  apply bind_inv in H. destruct H as [[] [st3 [H3 _]]].
  apply andb_true_iff. split.
  - apply forallb_forall. intros x Hx.
    destruct (In_nth _ _ no_operand Hx) as [i [Hi <-]].
    apply (for_each_operands_ok_liftable this _ _ _ H2 i).
    apply in_seq. unfold xed_decoded_inst_noperands. lia.
  - destruct (getFunction M (InstructionFunctionName FLAGS_os (xedd this)));
      [reflexivity|].
    destruct (getGlobalVariable M
                (InstructionFunctionName FLAGS_os (xedd this)));
      [|reflexivity].
    apply bind_inv in H3. destruct H3 as [[] [s [H3 _]]].
    unfold CHECK in H3. destruct (_ && _); [reflexivity|discriminate].
Qed.

(** X13.  The generic pass gives up, with a fatal error, exactly on the
    instructions that are not liftable: a visible operand of an
    unsupported kind (a far pointer, a second memory operand, any kind
    the dispatch does not name), an immediate wider than the operand, a
    branch displacement on an instruction without a target, or a
    semantics entry that is a variable but not a constant with an
    initializer.  [LiftIntoBlock] gives up on the same instructions,
    except that it always returns on an error instruction and on a
    direct jump, which it lifts without the generic pass. *)
Theorem lifter_gives_up_iff this st :
  ((exists st', LiftGeneric FLAGS_os M lifter this st = Ok (tt, st')) <->
   liftable FLAGS_os M this = true) /\
  ((exists b st', LiftIntoBlock FLAGS_os M lifter this st = Ok (b, st')) <->
   classify this = CatError \/ classify this = CatDirectJump \/
   liftable FLAGS_os M this = true).
Proof.
  split.
  - split.
    + intros [st' H]. apply (LiftGeneric_ok_liftable _ _ _ H).
    + apply LiftGeneric_total.
  - split.
    + intros [b [st' H]]. rewrite LiftIntoBlock_by_category in H.
      cbv zeta in H.
      destruct (classify this); auto; right; right;
        try (apply bind_inv in H; destruct H as [[] [st1 [_ H]]];
             apply bind_inv in H; destruct H as [[] [st2 [H2 _]]];
             apply (LiftGeneric_ok_liftable _ _ _ H2)).
      apply bind_inv in H. destruct H as [[] [st1 [H1 _]]].
      apply (LiftGeneric_ok_liftable _ _ _ H1).
    + intros [Hc|[Hc|Hl]].
      * rewrite LiftIntoBlock_by_category, Hc. cbv zeta iota beta.
        unfold bind.
        rewrite tail_call_B_run. eexists; eexists; reflexivity.
      * rewrite LiftIntoBlock_by_category, Hc. cbv zeta iota beta.
        assert (Hj : IsDirectJump this = true).
        { unfold classify in Hc.
          destruct (IsError this); [discriminate|].
          destruct (IsDirectJump this); [reflexivity|].
          destruct (IsIndirectJump this), (IsDirectFunctionCall this),
            (IsIndirectFunctionCall this), (IsFunctionReturn this),
            (IsBranch this), (IsSystemCall this), (IsSystemReturn this),
            (IsInterruptCall this), (IsInterruptReturn this);
            discriminate. }
        unfold bind at 1. rewrite TargetPC_run, Hj. simpl orb.
        cbv iota beta. unfold bind. rewrite tail_call_B_run.
        eexists; eexists; reflexivity.
      * destruct (LiftIntoBlock_total this st Hl) as [st' H].
        eexists; eexists; exact H.
Qed.

(** X14.  A suppressed operand is skipped whatever its kind: nothing is
    inserted, pushed or logged, even for a far pointer.  A visible far
    pointer, second memory operand or operand of a kind without a name
    in the dispatch is fatal. *)
Theorem LiftOperand_suppressed_or_unsupported this (op_num : nat) st :
  let xedo := xed_inst_operand (xedd this) op_num in
  (xed_operand_operand_visibility xedo = XED_OPVIS_SUPPRESSED ->
   LiftOperand lifter this op_num st = Ok (tt, st)) /\
  (xed_operand_operand_visibility xedo <> XED_OPVIS_SUPPRESSED ->
   is_memory_name (xed_operand_name xedo) = false ->
   is_register_name (xed_operand_name xedo) = false ->
   is_immediate_name (xed_operand_name xedo) = false ->
   xed_operand_name xedo <> XED_OPERAND_RELBR ->
   exists msg, LiftOperand lifter this op_num st = Fatal msg).
Proof.
  intros xedo. unfold LiftOperand. cbv zeta. fold xedo. split.
  - intros ->. reflexivity.
  - intros Hv Hm Hr Hi Hb.
    destruct (xed_operand_operand_visibility xedo); try contradiction;
      destruct (xed_operand_name xedo); try discriminate;
      try contradiction; eexists; reflexivity.
Qed.

(** ** Constant addresses *)

(** X15.  A memory operand without base and index is its displacement,
    and one based on the instruction pointer is the address after the
    instruction plus the displacement, [A + S + D] in 64-bit
    arithmetic; both are constants of the address width, and without a
    segment tag lifting them inserts no instruction at all. *)
Theorem LiftMemory_constant_address this xedo (op_num : nat) st :
  let mem_index :=
    if operand_eqb XED_OPERAND_MEM1 (xed_operand_name xedo) then 1 else 0 in
  let base := xed_decoded_inst_get_base_reg (xedd this) mem_index in
  let index := xed_decoded_inst_get_index_reg (xedd this) mem_index in
  let disp := xed_decoded_inst_get_memory_displacement (xedd this) mem_index in
  let addr_width := xed_decoded_inst_get_machine_mode_bits (xedd this) in
  let tag :=
    AddressSpace (xed_decoded_inst_get_seg_reg (xedd this) mem_index)
      (xed_operand_name xedo) in
  (base = XED_REG_INVALID -> index = XED_REG_INVALID ->
   let A := VConst addr_width (APInt addr_width (to_uint64 disp) false) in
   exists bi,
     LiftMemory lifter this xedo op_num st =
     Ok (tt, extend st bi
               (per_role xedo (routed lifter tag A) (routed lifter tag A))
               []) /\
     (tag = 0 -> bi = [])) /\
  (base = XED_REG_RIP -> XED_REG_RIP <> XED_REG_INVALID ->
   let A := VConst addr_width
              (APInt addr_width
                 (to_uint64 (address (instr this) + size (instr this) + disp))
                 false) in
   exists bi,
     LiftMemory lifter this xedo op_num st =
     Ok (tt, extend st bi
               (per_role xedo (routed lifter tag A) (routed lifter tag A))
               []) /\
     (tag = 0 -> bi = [])).
Proof.
  intros mem_index base index disp addr_width tag.
  assert (Hrest : forall A : Value Fn,
             exists bi,
               bind (if negb (tag =? 0) then
                       CreateCall (compute_address lifter)
                         [FindStatePointer; A; ConstantInt_get 32 tag true]
                     else ret A)
                 (fun A0 =>
                    bind (if xed_operand_written xedo
                          then args_push_back A0 else ret tt)
                      (fun _ => if xed_operand_read xedo
                                then args_push_back A0 else ret tt)) st
               = Ok (tt, extend st bi
                           (per_role xedo (routed lifter tag A)
                              (routed lifter tag A)) []) /\
               (tag = 0 -> bi = [])).
  { intros A. unfold routed, per_role.
    destruct (tag =? 0) eqn:Et; simpl negb; cbv iota.
    - exists []. split; [|reflexivity].
      unfold bind, ret.
      destruct (xed_operand_written xedo), (xed_operand_read xedo);
        rewrite ?args_push_back_run, ?extend_extend, ?extend_nil;
        reflexivity.
    - apply Z.eqb_neq in Et. eexists. split; [|intros; contradiction].
      unfold bind at 1. unfold CreateCall. rewrite Insert_run.
      unfold bind, ret.
      destruct (xed_operand_written xedo), (xed_operand_read xedo);
        rewrite ?args_push_back_run, ?extend_extend, ?app_nil_r;
        reflexivity. }
  split.
  - intros Hb Hi. cbv zeta.
    unfold LiftMemory. cbv zeta. fold mem_index base index disp addr_width tag.
    rewrite Hb, Hi, Z.eqb_refl. simpl andb. cbv iota.
    unfold bind at 1. unfold ret at 1. unfold ConstantInt_get.
    rewrite to_uint64_idem. apply Hrest.
  - intros Hb Hne. cbv zeta.
    unfold LiftMemory. cbv zeta. fold mem_index base index disp addr_width tag.
    rewrite Hb.
    replace (XED_REG_INVALID =? XED_REG_RIP) with false
      by (symmetry; apply Z.eqb_neq; congruence).
    rewrite Z.eqb_refl. simpl andb. cbv iota.
    unfold bind at 1. unfold ret at 1. unfold ConstantInt_get.
    rewrite to_uint64_idem, next_pc_plus. apply Hrest.
Qed.

(** ** Immediates, by their width *)

Lemma truncate_uint64 (x w : Z) :
  0 <= w <= 64 -> to_uint64 x mod 2 ^ w = x mod 2 ^ w.
Proof.
  intros Hw. unfold to_uint64. apply Z.mod_mod_divide.
  exists (2 ^ (64 - w)). rewrite <- Z.pow_add_r by lia. f_equal. lia.
Qed.

Lemma to_uint64_of_int64 (x : Z) : to_uint64 (to_int64 x) = to_uint64 x.
Proof.
  pose proof (to_uint64_to_int64 x 0) as H. rewrite !Z.add_0_r in H. exact H.
Qed.

(** X16.  In an operand of at most 64 bits a signed immediate [x] is
    materialised in two's complement, as the constant [x mod 2^w] of
    the operand width [w], and an unsigned one likewise as its value
    cut to that width; an immediate wider than the operand is fatal
    whatever kind it is. *)
Theorem LiftImmediate_by_width this (op_name : xed_operand_enum_t) st :
  let op_size := xed_decoded_inst_get_operand_width (xedd this) in
  let imm_size := xed_decoded_inst_get_immediate_width_bits (xedd this) in
  (0 <= op_size <= 64 -> imm_size <= op_size ->
   LiftImmediate this XED_OPERAND_IMM0SIGNED st =
   Ok (tt, extend st []
             [VConst op_size
                (xed_decoded_inst_get_signed_immediate (xedd this)
                 mod 2 ^ op_size)] []) /\
   (xed_operand_values_get_immediate_is_signed (xedd this) = false ->
    LiftImmediate this XED_OPERAND_IMM0 st =
    Ok (tt, extend st []
              [VConst op_size
                 (xed_decoded_inst_get_unsigned_immediate (xedd this)
                  mod 2 ^ op_size)] []))) /\
  (op_size < imm_size ->
   exists msg, LiftImmediate this op_name st = Fatal msg).
Proof.
  intros op_size imm_size. unfold LiftImmediate. cbv zeta.
  fold op_size imm_size. split.
  - intros Hw Hle. apply Z.leb_le in Hle.
    assert (H64 : (op_size <=? 64) = true) by (apply Z.leb_le; lia).
    split.
    + unfold bind at 1. unfold CHECK. rewrite Hle. unfold ret at 1.
      simpl orb. cbv iota. unfold bind, ret.
      rewrite args_push_back_run. unfold ConstantInt_get, APInt.
      rewrite H64, to_uint64_idem, to_uint64_of_int64.
      rewrite truncate_uint64 by exact Hw. reflexivity.
    + intros Hf. unfold bind at 1. unfold CHECK. rewrite Hle.
      unfold ret at 1. rewrite Hf. simpl. unfold bind, ret.
      rewrite args_push_back_run. unfold ConstantInt_get, APInt.
      rewrite H64, to_uint64_idem.
      rewrite truncate_uint64 by exact Hw. reflexivity.
  - intros Hlt. apply Z.leb_gt in Hlt.
    unfold bind at 1. unfold CHECK. rewrite Hlt.
    eexists. reflexivity.
Qed.


(** ** Registers *)

(** X17.  A register operand is lifted in this order: the write handle
    is loaded first, then the address and the value to read; the value
    of a vector register is stored into a fresh local, and it is that
    local which is passed, never the value. *)
Theorem LiftRegister_sequence this xedo st :
  let reg :=
    xed_decoded_inst_get_reg (xedd this) (xed_operand_name xedo) in
  let RegAddr := VLoad (VVar (xed_reg_enum_t2str reg ++ "_read")) 0 in
  let Reg := VLoad RegAddr kVectorRegAlign in
  LiftRegister this xedo st =
  Ok (tt,
      extend st
        ((if xed_operand_written xedo then [IVal (write_handle reg)] else [])
         ++ (if xed_operand_read xedo then
               [IVal RegAddr; IVal Reg]
               ++ (if IsVectorReg reg
                   then [IVal (VAlloca Reg); IStore Reg (VAlloca Reg)]
                   else [])
             else []))%list
        (per_role xedo (write_handle reg)
           (if IsVectorReg reg then VAlloca Reg else Reg)) []).
Proof.
  intros reg RegAddr Reg.
  unfold LiftRegister, per_role, write_handle. cbv zeta.
  fold reg RegAddr Reg.
  unfold CreateAlloca, CreateStore, CreateLoad, CreateAlignedLoad,
    FindVarInFunction, bind, ret.
  destruct (xed_operand_written xedo), (xed_operand_read xedo),
    (IsVectorReg reg);
    rewrite ?Insert_run, ?emit_run, ?args_push_back_run, ?extend_extend;
    rewrite ?Insert_run, ?emit_run, ?args_push_back_run, ?extend_extend;
    rewrite ?Insert_run, ?emit_run, ?args_push_back_run, ?extend_extend;
    try reflexivity; simpl app; rewrite extend_nil; reflexivity.
Qed.

(** ** What the generic pass never inserts *)

Lemma quiet_ret {A : Type} (a : A) : quiet (Fn:=Fn) (ret a).
Proof.
  intros st a' st' H. inversion H; subst. exists [].
  rewrite app_nil_r. auto.
Qed.

Lemma quiet_bind {A B : Type} (m : IR Fn A) (k : A -> IR Fn B) :
  quiet m -> (forall a, quiet (k a)) -> quiet (bind m k).
Proof.
  intros Hm Hk st b st' H.
  apply bind_inv in H. destruct H as [a [st1 [H1 H2]]].
  destruct (Hm _ _ _ H1) as [bi [HB [Hnt [HF HA]]]].
  destruct (Hk a _ _ _ H2) as [bi' [HB' [Hnt' [HF' HA']]]].
  exists (bi ++ bi')%list. rewrite HB', HB, app_assoc, forallb_app, Hnt, Hnt'.
  repeat split; congruence.
Qed.

Lemma quiet_extend {A : Type} (m : IR Fn A) :
  (forall st, exists a bi ar lg,
      m st = Ok (a, extend st bi ar lg) /\ forallb not_terminator bi = true) ->
  quiet m.
Proof.
  intros Hm st a st' H. destruct (Hm st) as [a' [bi [ar [lg [Hr Hnt]]]]].
  rewrite Hr in H. inversion H; subst. exists bi. auto.
Qed.

Lemma quiet_Insert (v : Value Fn) : quiet (Insert v).
Proof.
  apply quiet_extend. intros st. exists v, [IVal v], [], [].
  rewrite Insert_run. auto.
Qed.

Lemma quiet_store (v p : Value Fn) : quiet (CreateStore v p).
Proof.
  apply quiet_extend. intros st. exists tt, [IStore v p], [], [].
  unfold CreateStore. rewrite emit_run. auto.
Qed.

Lemma quiet_push (v : Value Fn) : quiet (args_push_back v).
Proof.
  apply quiet_extend. intros st. exists tt, [], [v], [].
  rewrite args_push_back_run. auto.
Qed.

Lemma quiet_LOG (sev : Severity) (msg : string) : quiet (Fn:=Fn) (LOG sev msg).
Proof.
  apply quiet_extend. intros st. exists tt, [], [], [(sev, msg)].
  rewrite LOG_run. auto.
Qed.

Lemma quiet_fatal {A : Type} (msg : string) :
  quiet (Fn:=Fn) (A:=A) (LOG_FATAL msg).
Proof. intros st a st' H. discriminate H. Qed.

Lemma quiet_CHECK (c : bool) (msg : string) : quiet (Fn:=Fn) (CHECK c msg).
Proof. destruct c; [apply quiet_ret|apply quiet_fatal]. Qed.

Lemma quiet_TargetPC this : quiet (Fn:=Fn) (TargetPC this).
Proof.
  intros st a st' H. rewrite TargetPC_run in H.
  destruct (_ || _); [|discriminate]. inversion H; subst.
  exists []. rewrite app_nil_r. auto.
Qed.

Lemma quiet_CreateAdd (a b : Value Fn) : quiet (CreateAdd a b).
Proof.
  destruct a, b; first [apply quiet_ret | apply quiet_Insert].
Qed.

Lemma quiet_CreateMul (a b : Value Fn) : quiet (CreateMul a b).
Proof.
  destruct a, b; first [apply quiet_ret | apply quiet_Insert].
Qed.

Lemma quiet_CreateZExt (v : Value Fn) (bits : Z) : quiet (CreateZExt v bits).
Proof. destruct v; first [apply quiet_ret | apply quiet_Insert]. Qed.

Lemma quiet_CreateSExt (v : Value Fn) (bits : Z) : quiet (CreateSExt v bits).
Proof.
  destruct v; try apply quiet_Insert. simpl.
  destruct (_ =? _); apply quiet_ret.
Qed.

Ltac quiet_steps :=
  repeat first
    [ apply quiet_ret
    | apply quiet_Insert
    | apply quiet_store
    | apply quiet_push
    | apply quiet_LOG
    | apply quiet_fatal
    | apply quiet_CHECK
    | apply quiet_TargetPC
    | apply quiet_CreateAdd
    | apply quiet_CreateMul
    | apply quiet_CreateZExt
    | apply quiet_CreateSExt
    | apply quiet_bind; [|intro]
    | match goal with
      | |- quiet (if ?c then _ else _) => destruct c
      | |- quiet (match ?p with (_, _) => _ end) => destruct p
      end ].

Lemma quiet_LiftMemory this xedo (op_num : nat) :
  quiet (LiftMemory lifter this xedo op_num).
Proof.
  unfold LiftMemory, CreateCall, CreateLoad, CreateAlignedLoad. cbv zeta.
  quiet_steps.
Qed.

Lemma quiet_LiftOperand this (op_num : nat) :
  quiet (LiftOperand lifter this op_num).
Proof.
  unfold LiftOperand. cbv zeta.
  destruct (xed_operand_operand_visibility _);
    try apply quiet_ret;
    destruct (xed_operand_name _);
    try apply quiet_fatal; try apply quiet_LiftMemory;
    unfold LiftImmediate, LiftRegister, LiftBranchDisplacement,
      CreateAlloca, CreateLoad, CreateAlignedLoad;
    cbv zeta; quiet_steps.
Qed.

Lemma quiet_for_each {A : Type} (l : list A) (body : A -> IR Fn unit) :
  (forall x, quiet (body x)) -> quiet (for_each l body).
Proof.
  intros Hb. induction l as [|x l IH]; simpl.
  - apply quiet_ret.
  - apply quiet_bind; [apply Hb|intros _; exact IH].
Qed.

Lemma LiftGeneric_quiet this st st' :
  forallb not_terminator (append_instrs st) = true ->
  LiftGeneric FLAGS_os M lifter this st = Ok (tt, st') ->
  exists bi,
    B_insts st' = (B_insts st ++ bi)%list /\
    forallb not_terminator bi = true /\
    F_created st' = F_created st /\
    append_instrs st' = append_instrs st.
Proof.
  intros Hfix H. unfold LiftGeneric in H. cbv zeta in H.
  assert (Hq : quiet
            (bind (args_push_back VArg0) (fun _ =>
               bind (for_each (seq 0 (xed_decoded_inst_noperands (xedd this)))
                       (fun i => LiftOperand lifter this i)) (fun _ =>
                 match getFunction M
                         (InstructionFunctionName FLAGS_os (xedd this)) with
                 | Some F' =>
                     bind get_args (fun actuals =>
                       bind (CreateCall F' actuals) (fun _ => ret tt))
                 | None =>
                     match getGlobalVariable M
                             (InstructionFunctionName FLAGS_os (xedd this))
                     with
                     | Some FP =>
                         bind (CHECK (isConstant FP && hasInitializer FP)
                                 "Expected a `constexpr` variable as the function pointer.")
                           (fun _ =>
                              bind get_args (fun actuals =>
                                bind (CreateCall (getInitializer FP) actuals)
                                  (fun _ => ret tt)))
                     | None =>
                         LOG WARNING
                           ("Missing instruction semantics for "
                            ++ InstructionFunctionName FLAGS_os (xedd this))
                     end
                 end)))).
  { assert (Hargs : quiet (Fn:=Fn) get_args).
    { intros s a s' Hs. inversion Hs; subst. exists [].
      rewrite app_nil_r. auto. }
    apply quiet_bind; [apply quiet_push|intros _].
    apply quiet_bind;
      [apply quiet_for_each; intros i; apply quiet_LiftOperand|intros _].
    destruct (getFunction M _).
    - apply quiet_bind; [exact Hargs|intros actuals].
      unfold CreateCall. quiet_steps.
    - destruct (getGlobalVariable M _); [|apply quiet_LOG].
      apply quiet_bind; [apply quiet_CHECK|intros _].
      apply quiet_bind; [exact Hargs|intros actuals].
      unfold CreateCall. quiet_steps. }
  apply bind_inv in H. destruct H as [[] [st1 [H1 H]]].
  apply bind_inv in H. destruct H as [[] [st2 [H2 H]]].
  apply bind_inv in H. destruct H as [[] [st3 [H3 H]]].
  assert (Hrun : bind (args_push_back VArg0) (fun _ =>
               bind (for_each (seq 0 (xed_decoded_inst_noperands (xedd this)))
                       (fun i => LiftOperand lifter this i)) (fun _ =>
                 match getFunction M
                         (InstructionFunctionName FLAGS_os (xedd this)) with
                 | Some F' =>
                     bind get_args (fun actuals =>
                       bind (CreateCall F' actuals) (fun _ => ret tt))
                 | None =>
                     match getGlobalVariable M
                             (InstructionFunctionName FLAGS_os (xedd this))
                     with
                     | Some FP =>
                         bind (CHECK (isConstant FP && hasInitializer FP)
                                 "Expected a `constexpr` variable as the function pointer.")
                           (fun _ =>
                              bind get_args (fun actuals =>
                                bind (CreateCall (getInitializer FP) actuals)
                                  (fun _ => ret tt)))
                     | None =>
                         LOG WARNING
                           ("Missing instruction semantics for "
                            ++ InstructionFunctionName FLAGS_os (xedd this))
                     end
                 end)) st = Ok (tt, st3)).
  { rewrite (bind_Ok _ _ _ _ _ H1), (bind_Ok _ _ _ _ _ H2). exact H3. }
  destruct (Hq _ _ _ Hrun) as [bi [HB [Hnt [HF HA]]]].
  apply bind_inv in H. destruct H as [fixups [st4 [H4 H]]].
  unfold get_append_instrs in H4. inversion H4; subst fixups st4; clear H4.
  rewrite for_each_emit in H. inversion H; subst st'; clear H.
  exists (bi ++ append_instrs st3)%list. simpl.
  rewrite HB, <- app_assoc, forallb_app, Hnt, HA, Hfix.
  auto.
Qed.

Lemma LiftPC_then_generic_quiet this st st1 st2 :
  forallb not_terminator (append_instrs st) = true ->
  LiftPC this st = Ok (tt, st1) ->
  LiftGeneric FLAGS_os M lifter this st1 = Ok (tt, st2) ->
  exists bi,
    B_insts st2 = (B_insts st ++ bi)%list /\
    forallb not_terminator bi = true /\
    F_created st2 = F_created st.
Proof.
  intros Hfix H1 H2.
  destruct (LiftPC_run this st) as [name [lg [_ Hpc]]].
  rewrite Hpc in H1. inversion H1; subst st1; clear H1.
  destruct (LiftGeneric_quiet this _ _ (Hfix : forallb not_terminator
              (append_instrs (extend st _ [] lg)) = true) H2)
    as [bi [HB [Hnt [HF _]]]].
  eexists. rewrite HB. simpl. rewrite <- app_assoc.
  split; [reflexivity|]. split; [|exact HF].
  simpl. exact Hnt.
Qed.

(** X18.  When the fix-up list holds no terminating transfer, the
    generic pass inserts none either, whatever the operands are, and it
    creates no block: the block it works on stays open. *)
Theorem LiftGeneric_keeps_block_open this st st' :
  forallb not_terminator (append_instrs st) = true ->
  LiftGeneric FLAGS_os M lifter this st = Ok (tt, st') ->
  exists bi,
    B_insts st' = (B_insts st ++ bi)%list /\
    forallb not_terminator bi = true /\
    F_created st' = F_created st.
Proof.
  intros Hfix H.
  destruct (LiftGeneric_quiet this st st' Hfix H) as [bi [HB [Hnt [HF _]]]].
  exists bi. auto.
Qed.

(** ** How a lifted block ends *)

Lemma ends_with_tail_call this (callee : Fn) (after : IR Fn bool) st b st' :
  forallb not_terminator (append_instrs st) = true ->
  (forall s r s', after s = Ok (r, s') ->
                  r = false /\ B_insts s' = B_insts s /\
                  F_created s' = F_created s) ->
  bind (LiftPC this) (fun _ =>
    bind (LiftGeneric FLAGS_os M lifter this) (fun _ =>
      bind (AddTerminatingTailCall BB_B callee) (fun _ => after))) st
  = Ok (b, st') ->
  b = false /\
  F_created st' = F_created st /\
  exists body,
    forallb not_terminator body = true /\
    B_insts st' = (B_insts st ++ body ++ [ITailCall callee])%list.
Proof.
  intros Hfix Hafter H.
  apply bind_inv in H. destruct H as [[] [st1 [H1 H]]].
  apply bind_inv in H. destruct H as [[] [st2 [H2 H]]].
  apply bind_inv in H. destruct H as [[] [st3 [H3 H]]].
  rewrite tail_call_B_run in H3. inversion H3; subst st3; clear H3.
  destruct (Hafter _ _ _ H) as [-> [HB HF]].
  destruct (LiftPC_then_generic_quiet this st st1 st2 Hfix H1 H2)
    as [bi [HB2 [Hnt HF2]]].
  split; [reflexivity|]. split.
  - rewrite HF. simpl. exact HF2.
  - exists bi. split; [exact Hnt|]. rewrite HB. simpl. rewrite HB2.
    rewrite <- app_assoc. reflexivity.
Qed.

Lemma after_ret (s : LiftState Fn) (r : bool) s' :
  ret false s = Ok (r, s') ->
  r = false /\ B_insts s' = B_insts s /\ F_created s' = F_created s.
Proof. intros H. inversion H. auto. Qed.

Lemma after_warning (msg : string) (s : LiftState Fn) (r : bool) s' :
  bind (LOG WARNING msg) (fun _ => ret false) s = Ok (r, s') ->
  r = false /\ B_insts s' = B_insts s /\ F_created s' = F_created s.
Proof.
  unfold bind. rewrite LOG_run. intros H. inversion H. simpl.
  rewrite app_nil_r. auto.
Qed.

(** X19.  When the fix-up list holds no terminating transfer, a call of
    [LiftIntoBlock] that returns [false] has inserted exactly one
    terminating transfer, as the last instruction of the block, and one
    that returns [true] has inserted none.  Only a branch creates
    blocks. *)
Theorem LiftIntoBlock_ends_block this st b st' :
  forallb not_terminator (append_instrs st) = true ->
  LiftIntoBlock FLAGS_os M lifter this st = Ok (b, st') ->
  exists body,
    forallb not_terminator body = true /\
    (if b then B_insts st' = (B_insts st ++ body)%list
     else exists last,
         is_terminator last = true /\
         B_insts st' = (B_insts st ++ body ++ [last])%list) /\
    (classify this <> CatBranch -> F_created st' = F_created st).
Proof.
  intros Hfix H. rewrite LiftIntoBlock_by_category in H. cbv zeta in H.
  destruct (classify this) eqn:Ec;
    try (destruct (ends_with_tail_call this _ _ st b st' Hfix after_ret H)
           as [-> [HF [body [Hnt HB]]]];
         exists body; split; [exact Hnt|]; split; [|intros _; exact HF];
         eexists; split; [|exact HB]; reflexivity);
    try (destruct (ends_with_tail_call this _ _ st b st' Hfix
                     (after_warning _) H)
           as [-> [HF [body [Hnt HB]]]];
         exists body; split; [exact Hnt|]; split; [|intros _; exact HF];
         eexists; split; [|exact HB]; reflexivity).
  - unfold bind in H. rewrite tail_call_B_run in H. inversion H; subst.
    exists []. split; [reflexivity|]. split; [|reflexivity].
    eexists. split; [|reflexivity]. reflexivity.
  - apply bind_inv in H. destruct H as [t [st1 [H1 H]]].
    rewrite TargetPC_run in H1. destruct (_ || _); [|discriminate].
    inversion H1; subst t st1; clear H1.
    unfold bind in H. rewrite tail_call_B_run in H. inversion H; subst.
    exists []. split; [reflexivity|]. split; [|reflexivity].
    eexists. split; [|reflexivity]. reflexivity.
  - apply bind_inv in H. destruct H as [[] [st1 [H1 H]]].
    apply bind_inv in H. destruct H as [[] [st2 [H2 H]]].
    apply bind_inv in H. destruct H as [t [st3 [H3 H]]].
    rewrite TargetPC_run in H3. destruct (_ || _); [|discriminate].
    inversion H3; subst t st3; clear H3.
    unfold bind in H. rewrite tail_call_B_run in H. inversion H; subst.
    destruct (LiftPC_then_generic_quiet this st st1 st2 Hfix H1 H2)
      as [bi [HB2 [Hnt HF2]]].
    exists bi. split; [exact Hnt|]. split; [|intros _; exact HF2].
    eexists. split; [|simpl; rewrite HB2, <- app_assoc; reflexivity].
    reflexivity.
  - apply bind_inv in H. destruct H as [[] [st1 [H1 H]]].
    apply bind_inv in H. destruct H as [[] [st2 [H2 H]]].
    apply bind_inv in H. destruct H as [[] [st3 [H3 H]]].
    inversion H; subst b st3; clear H.
    destruct (LiftPC_then_generic_quiet this st st1 st2 Hfix H1 H2)
      as [bi [HB2 [Hnt HF2]]].
    assert (Hc : IsDirectJump this || IsDirectFunctionCall this
                 || IsBranch this = true).
    { rewrite (branch_category this Ec). apply orb_true_r. }
    destruct (LiftConditionalBranch_run this st2 Hc) as [name [lg [_ Hrun]]].
    cbv zeta in Hrun. rewrite Hrun in H3. inversion H3; clear H3.
    eexists (bi ++ [_; _; _])%list. split; cycle 1.
    + split; [|intros Hn; exfalso; apply Hn; reflexivity].
      eexists. split; [|simpl; rewrite HB2, <- !app_assoc; reflexivity].
      reflexivity.
    + rewrite forallb_app, Hnt. reflexivity.
  - apply bind_inv in H. destruct H as [[] [st1 [H1 H]]].
    inversion H; subst b st1; clear H.
    destruct (LiftGeneric_quiet this st st' Hfix H1) as [bi [HB [Hnt [HF _]]]].
    exists bi. split; [exact Hnt|]. split; [exact HB|intros _; exact HF].
Qed.

(** X22.  A system return and an interrupt return are lifted with a
    warning, the same one for both: the last entry of the log is that
    the instruction at this address is an unsupported system return. *)
Theorem return_instructions_warn this st b st' :
  classify this = CatSystemReturn \/ classify this = CatInterruptReturn ->
  LiftIntoBlock FLAGS_os M lifter this st = Ok (b, st') ->
  let warning :=
    (WARNING, "Unsupported instruction (system return) at PC "
              ++ show (address (instr this))) in
  exists lg, logged st' = (logged st ++ lg ++ [warning])%list.
Proof.
  intros Hc H warning. rewrite LiftIntoBlock_by_category in H. cbv zeta in H.
  assert (Hgen : forall callee,
             bind (LiftPC this) (fun _ =>
               bind (LiftGeneric FLAGS_os M lifter this) (fun _ =>
                 bind (AddTerminatingTailCall BB_B callee) (fun _ =>
                   bind (LOG WARNING
                           ("Unsupported instruction (system return) at PC "
                            ++ show (address (instr this))))
                     (fun _ => ret false)))) st = Ok (b, st') ->
             exists lg, logged st' = (logged st ++ lg ++ [warning])%list).
  { intros callee H0.
    apply bind_inv in H0. destruct H0 as [[] [st1 [H1 H0]]].
    apply bind_inv in H0. destruct H0 as [[] [st2 [H2 H0]]].
    destruct (LiftPC_run this st) as [name [lg1 [_ Hpc]]].
    rewrite Hpc in H1. inversion H1; subst st1; clear H1.
    destruct (LiftGeneric_inv this _ _ H2) as [bi [cs [lg2 [-> _]]]].
    unfold bind in H0. rewrite tail_call_B_run, LOG_run in H0.
    inversion H0; subst. exists (lg1 ++ lg2)%list. simpl.
    rewrite app_nil_r, <- !app_assoc. reflexivity. }
  destruct Hc as [Hc|Hc]; rewrite Hc in H; apply (Hgen _ H).
Qed.

(** ** Branch targets *)

(** X20.  In a mode of at most 64 bits, the constant that the semantics
    function of a branch receives for its displacement operand is the
    very constant the conditional transfer compares the loaded program
    counter with, although the one is made as a signed and the other as
    an unsigned constant. *)
Theorem branch_target_argument this st :
  IsDirectJump this || IsDirectFunctionCall this || IsBranch this = true ->
  xed_decoded_inst_get_machine_mode_bits (xedd this) <= 64 ->
  exists target,
    LiftBranchDisplacement this st = Ok (tt, extend st [] [target] []) /\
    forall st2,
    exists st3 before loaded taken fall_through,
      LiftConditionalBranch lifter this st2 = Ok (tt, st3) /\
      B_insts st3 =
        (before ++ [ICondBr (VICmpEQ target loaded) taken fall_through])%list.
Proof.
  intros Hc Hw. eexists. split.
  - unfold LiftBranchDisplacement. cbv zeta. unfold bind.
    rewrite TargetPC_run, Hc, args_push_back_run. reflexivity.
  - intros st2.
    destruct (LiftConditionalBranch_run this st2 Hc) as [name [lg [_ Hrun]]].
    cbv zeta in Hrun. rewrite Hrun.
    eexists; eexists (B_insts st2 ++ [_; _; _])%list; eexists; eexists;
      eexists.
    split; [reflexivity|]. simpl. rewrite <- app_assoc. simpl.
    unfold ConstantInt_get, APInt.
    apply Z.leb_le in Hw. rewrite Hw. reflexivity.
Qed.

(** ** Jumps and calls *)

(** X21.  With distinct enumerators, every jump is a direct or an
    indirect jump and never both, and every function call is a direct
    or an indirect call and never both. *)
Theorem jumps_and_calls_partition this :
  XED_ICLASS_JMP <> XED_ICLASS_JMP_FAR ->
  XED_ICLASS_JMP <> XED_ICLASS_XEND ->
  XED_ICLASS_JMP <> XED_ICLASS_XABORT ->
  XED_ICLASS_CALL_NEAR <> XED_ICLASS_CALL_FAR ->
  IsJump this = xorb (IsDirectJump this) (IsIndirectJump this) /\
  IsFunctionCall this =
    xorb (IsDirectFunctionCall this) (IsIndirectFunctionCall this).
Proof.
  intros Hfar Hxend Hxabort Hcall.
  unfold IsJump, IsDirectJump, IsIndirectJump, IsFunctionCall,
    IsDirectFunctionCall, IsIndirectFunctionCall. cbv zeta. split.
  - destruct (XED_ICLASS_JMP =? iclass this) eqn:Ej.
    + apply Z.eqb_eq in Ej.
      replace (XED_ICLASS_JMP_FAR =? iclass this) with false
        by (symmetry; apply Z.eqb_neq; congruence).
      replace (XED_ICLASS_XEND =? iclass this) with false
        by (symmetry; apply Z.eqb_neq; congruence).
      replace (XED_ICLASS_XABORT =? iclass this) with false
        by (symmetry; apply Z.eqb_neq; congruence).
      destruct (operand_eqb XED_OPERAND_RELBR _); reflexivity.
    + destruct (XED_ICLASS_JMP_FAR =? iclass this),
        (XED_ICLASS_XEND =? iclass this),
        (XED_ICLASS_XABORT =? iclass this); reflexivity.
  - destruct (XED_ICLASS_CALL_NEAR =? iclass this) eqn:Ec.
    + apply Z.eqb_eq in Ec.
      replace (XED_ICLASS_CALL_FAR =? iclass this) with false
        by (symmetry; apply Z.eqb_neq; congruence).
      destruct (operand_eqb XED_OPERAND_RELBR _); reflexivity.
    + destruct (XED_ICLASS_CALL_FAR =? iclass this); reflexivity.
Qed.

(** ** Instructions without semantics *)

(** X23.  When the module has neither a function nor a variable under
    the name of the semantics function, the generic pass still goes
    through on liftable operands: it lifts the operands, inserts the
    fix-ups and no call, and logs a warning that names the missing
    function. *)
Theorem LiftGeneric_missing_semantics this st :
  getFunction M (InstructionFunctionName FLAGS_os (xedd this)) = None ->
  getGlobalVariable M (InstructionFunctionName FLAGS_os (xedd this)) = None ->
  forallb (operand_liftable this) (xed_decoded_inst_operands (xedd this))
    = true ->
  exists st2,
    for_each (seq 0 (xed_decoded_inst_noperands (xedd this)))
      (fun i => LiftOperand lifter this i) (extend st [] [VArg0] [])
    = Ok (tt, st2) /\
    LiftGeneric FLAGS_os M lifter this st =
    Ok (tt, extend st2 (append_instrs st) []
              [(WARNING,
                "Missing instruction semantics for "
                ++ InstructionFunctionName FLAGS_os (xedd this))]).
Proof.
  intros HF HG Hops.
  assert (Hall : forall i,
             In i (seq 0 (xed_decoded_inst_noperands (xedd this))) ->
             operand_liftable this (xed_inst_operand (xedd this) i) = true).
  { intros i Hi. apply in_seq in Hi.
    rewrite forallb_forall in Hops. apply Hops.
    unfold xed_inst_operand. apply nth_In.
    unfold xed_decoded_inst_noperands in Hi. lia. }
  destruct (for_each_operands_total this _ Hall (extend st [] [VArg0] []))
    as [bi [ar Hfor]].
  eexists. split; [exact Hfor|].
  unfold LiftGeneric. cbv zeta. unfold bind at 1.
  rewrite args_push_back_run. unfold bind at 1. rewrite Hfor.
  rewrite HF, HG. unfold bind, get_append_instrs.
  rewrite LOG_run, for_each_emit, !extend_extend. simpl.
  rewrite !app_nil_r. reflexivity.
Qed.

End Facts.

(** The jump at [0x1000], two bytes long, with displacement [-5] goes to
    [0x0FFD]; [hlt] has no target. *)
Lemma TargetPC_is_next_pc_plus_displacement_witness :
  @TargetPC Sample.xed_sample string Sample.jmp_rel Sample.fresh
    = Ok (4093, Sample.fresh) /\
  exists msg,
    @TargetPC Sample.xed_sample string Sample.hlt Sample.fresh = Fatal msg.
Proof.
  destruct (@TargetPC_is_next_pc_plus_displacement Sample.xed_sample string
              Sample.jmp_rel Sample.fresh) as [H1 _].
  destruct (@TargetPC_is_next_pc_plus_displacement Sample.xed_sample string
              Sample.hlt Sample.fresh) as [_ H2].
  split.
  - apply H1; [reflexivity|]. simpl. lia.
  - apply H2. reflexivity.
Defined.

(** ** Runs on the concrete inputs *)

Import Sample.

(** [jmp .-5] at [0x1000] ends the block with the one transfer to the
    block of [0x0FFD] and needs no fall-through; the addition needs
    one. *)
Lemma LiftIntoBlock_fall_through_witness :
  @XED_ICLASS_HLT xed_sample <> @XED_ICLASS_JMP xed_sample /\
  @LiftIntoBlock xed_sample string "linux" sample_module sample_lifter
    jmp_rel fresh
  = Ok (false, extend fresh [ITailCall "__lifted_block_4093"] [] []) /\
  exists st',
    @LiftIntoBlock xed_sample string "linux" sample_module sample_lifter
      add_mem_reg fresh = Ok (true, st').
Proof.
  assert (Hne : @XED_ICLASS_HLT xed_sample <> @XED_ICLASS_JMP xed_sample).
  { simpl. lia. }
  split; [exact Hne|].
  destruct (@LiftIntoBlock_fall_through xed_sample string "linux"
              sample_module sample_lifter jmp_rel fresh Hne)
    as [_ [_ Hjmp]].
  destruct (@LiftIntoBlock_fall_through xed_sample string "linux"
              sample_module sample_lifter add_mem_reg fresh Hne)
    as [_ [Hadd _]].
  split.
  - exact (Hjmp eq_refl).
  - assert (Hl : @liftable xed_sample string "linux" sample_module
                   add_mem_reg = true).
    { vm_compute. reflexivity. }
    destruct (Hadd Hl) as [st' H]. exists st'. exact H.
Defined.

(** [hlt] is in the error category, and all that lifting it inserts is
    the transfer to the error helper: no program counter is stored and
    no generic pass runs. *)
Lemma LiftIntoBlock_error_skips_stages :
  @classify xed_sample hlt = CatError /\
  @LiftIntoBlock xed_sample string "linux" sample_module sample_lifter
    hlt fresh
  = Ok (false, extend fresh [ITailCall "__mcsema_error"] [] []) /\
  ~ exists last,
      @staged xed_sample string "linux" sample_module sample_lifter hlt fresh
        (extend fresh [ITailCall "__mcsema_error"] [] []) last.
Proof.
  split; [reflexivity|]. split; [reflexivity|].
  intros [last [name [st0 [st1 [st2 [generic [tail H]]]]]]].
  destruct H as [_ [_ [H1 [_ [H2 [_ [H3 _]]]]]]].
  rewrite H2, H1 in H3. apply (f_equal (@List.length _)) in H3.
  rewrite !length_app in H3. simpl in H3. lia.
Qed.

(** [ret] goes through the three stages. *)
Lemma LiftIntoBlock_stages_witness :
  exists st',
    @LiftIntoBlock xed_sample string "linux" sample_module sample_lifter
      ret_near fresh = Ok (false, st') /\
    @staged xed_sample string "linux" sample_module sample_lifter
      ret_near fresh st' (ITailCall "__mcsema_function_return").
Proof.
  eexists. split; [vm_compute; reflexivity|].
  exact (@LiftIntoBlock_stages xed_sample string "linux" sample_module
           sample_lifter ret_near fresh false _ eq_refl).
Defined.

(** [add gs:[rbx + 8], rax]: the state, the address for the write slot,
    the same address for the read slot, the value of [rax]; the flags,
    a suppressed operand, contribute nothing.  [jz .+16], whose
    semantics function is the initializer of a constant variable: that
    function is called on the argument list. *)
Lemma LiftGeneric_argument_order_witness :
  (exists st' cs,
      @LiftGeneric xed_sample string "linux" sample_module sample_lifter
        add_mem_reg fresh = Ok (tt, st') /\
      args st' = VArg0 :: List.concat cs /\
      Forall2 (@contributes xed_sample string add_mem_reg)
        (filter visible (xed_decoded_inst_operands (xedd add_mem_reg))) cs /\
      In (IVal (VCall "ADD_MEMv_GPRv_64" (args st'))) (B_insts st')) /\
  (exists st',
      @LiftGeneric xed_sample string "linux" sample_module sample_lifter
        jz_rel fresh = Ok (tt, st') /\
      In (IVal (VCall "JZ_RELBRb_64_impl" (args st'))) (B_insts st')).
Proof.
  split.
  - destruct (@LiftGeneric xed_sample string "linux" sample_module
                sample_lifter add_mem_reg fresh) as [[[] st']|msg] eqn:Hrun.
    + destruct (@LiftGeneric_argument_order xed_sample string "linux"
                  sample_module sample_lifter add_mem_reg fresh st' Hrun)
        as [[cs [Hargs Hcs]] [_ [Hfun _]]].
      destruct (Hfun "ADD_MEMv_GPRv_64" eq_refl) as [Hin _].
      exists st', cs. split; [reflexivity|]. split; [exact Hargs|].
      split; [exact Hcs|exact Hin].
    + vm_compute in Hrun. discriminate Hrun.
  - destruct (@LiftGeneric xed_sample string "linux" sample_module
                sample_lifter jz_rel fresh) as [[[] st']|msg] eqn:Hrun.
    + destruct (@LiftGeneric_argument_order xed_sample string "linux"
                  sample_module sample_lifter jz_rel fresh st' Hrun)
        as [_ [_ [_ Hvar]]].
      destruct (Hvar {| isConstant := true; hasInitializer := true;
                        getInitializer := "JZ_RELBRb_64_impl" |}
                  eq_refl eq_refl) as [Hin _].
      exists st'. split; [reflexivity|exact Hin].
    + vm_compute in Hrun. discriminate Hrun.
Defined.

(** [jz .+16] at [0x1000]: two blocks, for [0x1012] and [0x1002]. *)
Lemma LiftConditionalBranch_two_blocks_witness :
  @IsBranch xed_sample jz_rel = true /\
  exists st',
    @LiftConditionalBranch xed_sample string sample_lifter jz_rel fresh
      = Ok (tt, st') /\
    F_created st' =
      [("branch_taken", [ITailCall "__lifted_block_4114"]);
       ("fall_through", [ITailCall "__lifted_block_4098"])] /\
    B_insts st' =
      [IVal (VLoad (VVar "RIP_read") 0);
       IVal (VLoad (VLoad (VVar "RIP_read") 0) 0);
       IVal (VICmpEQ (VConst 64 4114) (VLoad (VLoad (VVar "RIP_read") 0) 0));
       ICondBr (VICmpEQ (VConst 64 4114)
                  (VLoad (VLoad (VVar "RIP_read") 0) 0))
         (BB_created 0) (BB_created 1)].
Proof.
  split; [reflexivity|].
  destruct (@LiftConditionalBranch_two_blocks xed_sample string "linux"
              sample_module sample_lifter jz_rel fresh eq_refl)
    as [t [name [st0 [Ht [Hn [[st' [Hrun [HF HB]]] _]]]]]].
  inversion Ht; subst t. inversion Hn; subst name st0.
  exists st'. split; [exact Hrun|]. split; [exact HF|exact HB].
Defined.

(** [pop [rsp + 8]] in 64-bit mode: the base part is the value of [rsp]
    plus 8. *)
Lemma LiftMemory_pop_stack_pointer_witness :
  exists bi IS D,
    @LiftMemory xed_sample string sample_lifter pop_mem
      (xed_inst_operand (xedd pop_mem) 0) 0 fresh
    = Ok (tt, extend fresh bi
                [VAdd (VAdd (VAdd (VLoad (VLoad (VVar "RSP_read") 0) 0)
                                  (VConst 64 8)) IS) D] []).
Proof.
  destruct (@LiftMemory_pop_stack_pointer xed_sample string sample_lifter
              pop_mem (xed_inst_operand (xedd pop_mem) 0) 0%nat fresh)
    as [bi [IS [D H]]].
  - simpl. lia.
  - simpl. lia.
  - reflexivity.
  - reflexivity.
  - exists bi, IS, D. exact H.
Defined.

(** [add gs:[rbx + 8], rax]: the address goes through the helper with
    the tag 256. *)
Lemma LiftMemory_segment_routing_witness :
  @XED_REG_GS xed_sample <> @XED_REG_FS xed_sample /\
  exists bi raw,
    @LiftMemory xed_sample string sample_lifter add_mem_reg
      (xed_inst_operand (xedd add_mem_reg) 0) 0 fresh
    = Ok (tt, extend fresh bi
                [VCall "__mcsema_compute_address"
                   [VStatePtr; raw; VConst 32 256];
                 VCall "__mcsema_compute_address"
                   [VStatePtr; raw; VConst 32 256]] []).
Proof.
  assert (Hne : @XED_REG_GS xed_sample <> @XED_REG_FS xed_sample).
  { simpl. lia. }
  split; [exact Hne|].
  destruct (@LiftMemory_segment_routing xed_sample string sample_lifter
              add_mem_reg (xed_inst_operand (xedd add_mem_reg) 0) 0%nat
              fresh Hne)
    as [_ [bi [raw [A [_ [Hrun [HA _]]]]]]].
  exists bi, raw. rewrite Hrun, HA. reflexivity.
Defined.

(** An effective address width of 8 is not fatal: the name is empty and
    the run goes on after the error is logged. *)
Lemma PCRegName_width_8_not_fatal :
  PCRegName (Fn:=string) address_width_8 fresh
  = Ok ("", extend fresh [] [] [(ERROR, "Unexpected address width.")]) /\
  ~ exists msg, PCRegName (Fn:=string) address_width_8 fresh = Fatal msg.
Proof.
  split; [reflexivity|]. intros [msg H]. discriminate H.
Qed.

Lemma PCRegName_unrecognized_width_witness :
  PCRegName (Fn:=string) address_width_8 fresh
  = Ok ("", extend fresh [] [] [(ERROR, "Unexpected address width.")]) /\
  PCRegName (Fn:=string) (xedd jmp_rel) fresh = Ok ("RIP", fresh).
Proof.
  destruct (@PCRegName_unrecognized_width string address_width_8 fresh)
    as [H8 _].
  destruct (@PCRegName_unrecognized_width string (xedd jmp_rel) fresh)
    as [_ [H64 _]].
  split.
  - apply H8; simpl; lia.
  - apply H64. reflexivity.
Defined.


(** Why the fact of the decoder is needed: where the flag is set, it
    takes precedence over the name of the operand.  With the flag set
    by hand on the immediates [-1] and [5], the constant pushed for the
    second one is [0xFFFF], the first immediate sign-extended. *)
Lemma LiftImmediate_flag_takes_precedence :
  LiftImmediate (Fn:=string) (two_immediates true) XED_OPERAND_IMM1 fresh
  = Ok (tt, extend fresh [] [VConst 16 65535] []) /\
  LiftImmediate (Fn:=string) (two_immediates false) XED_OPERAND_IMM1 fresh
  = Ok (tt, extend fresh [] [VConst 16 5] []).
Proof. split; reflexivity. Qed.

(** ** More runs on the concrete inputs *)

(** The addition is liftable and lifted; the instruction with a visible
    far pointer is not, and [LiftIntoBlock] does not return on it. *)
Lemma lifter_gives_up_iff_witness :
  (exists b st',
      @LiftIntoBlock xed_sample string "linux" sample_module sample_lifter
        add_mem_reg fresh = Ok (b, st')) /\
  ~ (exists b st',
        @LiftIntoBlock xed_sample string "linux" sample_module sample_lifter
          far_pointer fresh = Ok (b, st')).
Proof.
  destruct (@lifter_gives_up_iff xed_sample string "linux" sample_module
              sample_lifter add_mem_reg fresh) as [_ [_ Hadd]].
  destruct (@lifter_gives_up_iff xed_sample string "linux" sample_module
              sample_lifter far_pointer fresh) as [_ [Hfar _]].
  split.
  - apply Hadd. right. right. vm_compute. reflexivity.
  - intros H. apply Hfar in H. vm_compute in H.
    destruct H as [H|[H|H]]; discriminate H.
Defined.

(** The suppressed second operand of [jmp] changes nothing; the visible
    far pointer is fatal. *)
Lemma LiftOperand_suppressed_or_unsupported_witness :
  @LiftOperand xed_sample string sample_lifter jmp_rel 1 fresh
    = Ok (tt, fresh) /\
  exists msg,
    @LiftOperand xed_sample string sample_lifter far_pointer 0 fresh
    = Fatal msg.
Proof.
  destruct (@LiftOperand_suppressed_or_unsupported xed_sample string
              sample_lifter jmp_rel 1%nat fresh) as [H1 _].
  destruct (@LiftOperand_suppressed_or_unsupported xed_sample string
              sample_lifter far_pointer 0%nat fresh) as [_ H2].
  split.
  - apply H1. reflexivity.
  - apply H2; [discriminate|reflexivity|reflexivity|reflexivity|discriminate].
Defined.

(** [[0x2000]] is the constant [0x2000], and [[rip + 16]] in the
    seven-byte instruction at [0x1000] is the constant [0x1017]; neither
    inserts an instruction. *)
Lemma LiftMemory_constant_address_witness :
  @LiftMemory xed_sample string sample_lifter mov_absolute
    (xed_inst_operand (xedd mov_absolute) 1) 1 fresh
  = Ok (tt, extend fresh [] [VConst 64 8192] []) /\
  @LiftMemory xed_sample string sample_lifter mov_rip_relative
    (xed_inst_operand (xedd mov_rip_relative) 1) 1 fresh
  = Ok (tt, extend fresh [] [VConst 64 4119] []).
Proof.
  destruct (@LiftMemory_constant_address xed_sample string sample_lifter
              mov_absolute (xed_inst_operand (xedd mov_absolute) 1) 1%nat
              fresh) as [H1 _].
  destruct (@LiftMemory_constant_address xed_sample string sample_lifter
              mov_rip_relative (xed_inst_operand (xedd mov_rip_relative) 1)
              1%nat fresh) as [_ H2].
  split.
  - destruct H1 as [bi [Hrun Hbi]]; [reflexivity|reflexivity|].
    rewrite Hrun, (Hbi eq_refl). reflexivity.
  - destruct H2 as [bi [Hrun Hbi]]; [reflexivity|simpl; lia|].
    rewrite Hrun, (Hbi eq_refl). reflexivity.
Defined.

(** The signed 8-bit immediate [-1] in a 32-bit operand is
    [0xFFFFFFFF]. *)
Lemma LiftImmediate_by_width_witness :
  LiftImmediate (Fn:=string) signed_immediate XED_OPERAND_IMM0SIGNED fresh
  = Ok (tt, extend fresh [] [VConst 32 4294967295] []) /\
  exists msg,
    LiftImmediate (Fn:=string) wide_immediate XED_OPERAND_IMM0 fresh
    = Fatal msg.
Proof.
  destruct (@LiftImmediate_by_width string signed_immediate
              XED_OPERAND_IMM0SIGNED fresh) as [H1 _].
  destruct (@LiftImmediate_by_width string wide_immediate
              XED_OPERAND_IMM0 fresh) as [_ H2].
  split.
  - destruct H1 as [H _]; [simpl; lia|simpl; lia|exact H].
  - apply H2. simpl. lia.
Defined.

(** [xmm0], read and written: the write handle, the two loads, the
    local and the store into it; the local is what is passed. *)
Lemma LiftRegister_sequence_witness :
  @LiftRegister xed_sample string movaps_xmm0
    (xed_inst_operand (xedd movaps_xmm0) 0) fresh
  = Ok (tt,
        extend fresh
          [IVal (VLoad (VVar "XMM0_write") 0);
           IVal (VLoad (VVar "XMM0_read") 0);
           IVal (VLoad (VLoad (VVar "XMM0_read") 0) 64);
           IVal (VAlloca (VLoad (VLoad (VVar "XMM0_read") 0) 64));
           IStore (VLoad (VLoad (VVar "XMM0_read") 0) 64)
             (VAlloca (VLoad (VLoad (VVar "XMM0_read") 0) 64))]
          [VLoad (VVar "XMM0_write") 0;
           VAlloca (VLoad (VLoad (VVar "XMM0_read") 0) 64)] []).
Proof.
  exact (@LiftRegister_sequence xed_sample string movaps_xmm0
           (xed_inst_operand (xedd movaps_xmm0) 0) fresh).
Defined.

Lemma LiftGeneric_keeps_block_open_witness :
  exists st' bi,
    @LiftGeneric xed_sample string "linux" sample_module sample_lifter
      add_mem_reg fresh = Ok (tt, st') /\
    B_insts st' = bi /\ forallb not_terminator bi = true /\
    F_created st' = [].
Proof.
  destruct (@LiftGeneric xed_sample string "linux" sample_module
              sample_lifter add_mem_reg fresh) as [[[] st']|msg] eqn:Hrun.
  - destruct (@LiftGeneric_keeps_block_open xed_sample string "linux"
                sample_module sample_lifter add_mem_reg fresh st' eq_refl Hrun)
      as [bi [HB [Hnt HF]]].
    exists st', bi. repeat split; assumption.
  - vm_compute in Hrun. discriminate Hrun.
Defined.

(** [ret]: the block ends with the one transfer to the return helper. *)
Lemma LiftIntoBlock_ends_block_witness :
  exists st' body last,
    @LiftIntoBlock xed_sample string "linux" sample_module sample_lifter
      ret_near fresh = Ok (false, st') /\
    forallb not_terminator body = true /\
    is_terminator last = true /\
    B_insts st' = (body ++ [last])%list.
Proof.
  destruct (@LiftIntoBlock xed_sample string "linux" sample_module
              sample_lifter ret_near fresh) as [[b st']|msg] eqn:Hrun.
  - destruct (@LiftIntoBlock_ends_block xed_sample string "linux"
                sample_module sample_lifter ret_near fresh b st' eq_refl Hrun)
      as [body [Hnt [HB _]]].
    assert (Hb : b = false).
    { vm_compute in Hrun. inversion Hrun. reflexivity. }
    subst b. destruct HB as [last [Hl HB]].
    exists st', body, last. repeat split; assumption.
  - vm_compute in Hrun. discriminate Hrun.
Defined.

(** [jz .+16]: the argument and the compared constant are both the
    64-bit constant [0x1012]. *)
Lemma branch_target_argument_witness :
  @LiftBranchDisplacement xed_sample string jz_rel fresh
  = Ok (tt, extend fresh [] [VConst 64 4114] []) /\
  exists st3 before loaded taken fall_through,
    @LiftConditionalBranch xed_sample string sample_lifter jz_rel fresh
      = Ok (tt, st3) /\
    B_insts st3 =
      (before
       ++ [ICondBr (VICmpEQ (VConst 64 4114) loaded) taken fall_through])%list.
Proof.
  destruct (@branch_target_argument xed_sample string sample_lifter jz_rel
              fresh) as [target [Hd Hc]];
    [reflexivity|simpl; lia|].
  assert (Ht : target = VConst 64 4114).
  { vm_compute in Hd. inversion Hd. reflexivity. }
  subst target. split; [exact Hd|]. apply Hc.
Defined.

Lemma jumps_and_calls_partition_witness :
  @IsJump xed_sample jmp_rel = true /\
  @IsDirectJump xed_sample jmp_rel = true /\
  @IsIndirectJump xed_sample jmp_rel = false.
Proof.
  destruct (@jumps_and_calls_partition xed_sample jmp_rel) as [H _];
    try (simpl; lia).
  split; [reflexivity|]. split; [reflexivity|].
  change (@IsJump xed_sample jmp_rel) with true in H.
  change (@IsDirectJump xed_sample jmp_rel) with true in H.
  destruct (@IsIndirectJump xed_sample jmp_rel); [discriminate H|reflexivity].
Defined.

(** [sysret] at [0x1000]: the warning names the address 4096. *)
Lemma return_instructions_warn_witness :
  exists st' lg,
    @LiftIntoBlock xed_sample string "linux" sample_module sample_lifter
      sysret fresh = Ok (false, st') /\
    logged st' =
      (lg ++ [(WARNING,
               "Unsupported instruction (system return) at PC 4096")])%list.
Proof.
  destruct (@LiftIntoBlock xed_sample string "linux" sample_module
              sample_lifter sysret fresh) as [[b st']|msg] eqn:Hrun.
  - destruct (@return_instructions_warn xed_sample string "linux"
                sample_module sample_lifter sysret fresh b st'
                (or_introl eq_refl) Hrun) as [lg Hlg].
    assert (Hb : b = false).
    { vm_compute in Hrun. inversion Hrun. reflexivity. }
    subst b. exists st', lg. split; [reflexivity|exact Hlg].
  - vm_compute in Hrun. discriminate Hrun.
Defined.

(** [pop [rsp + 8]] has no semantics in the sample module: it is lifted
    with a warning. *)
Lemma LiftGeneric_missing_semantics_witness :
  exists st2,
    @LiftGeneric xed_sample string "linux" sample_module sample_lifter
      pop_mem fresh
    = Ok (tt, extend st2 [] []
                [(WARNING, "Missing instruction semantics for OTHER_64")]).
Proof.
  destruct (@LiftGeneric_missing_semantics xed_sample string "linux"
              sample_module sample_lifter pop_mem fresh)
    as [st2 [_ H]]; [reflexivity|reflexivity|reflexivity|].
  exists st2. exact H.
Defined.

End X86Facts.
